(** * Gate synthesis environment ([games/1qbg_1qbsys_simple.py])

    A shallow embedding of the [GateSynthesis] class: the action catalogue,
    the two gate appliers, the observation encoder, the convergence test and
    the [reset]/[step] methods, together with the part of NumPy they call
    ([np.transpose], [ndarray.reshape], [np.tensordot], [np.allclose]).
    The training configuration [MuZeroConfig], the forwarding wrapper [Game]
    and [render] are left out.

    Scalars are exact complex numbers over [R]: rounding, infinities and NaN
    of [complex128] are outside the model.  Arrays are values (shape and
    row-major data); the class never writes into an array, it only rebinds
    [self.curr_unitary_op] to the fresh result of [np.tensordot]/[np.transpose],
    so the aliasing created by [self.curr_unitary_op = self.init_unitary_op]
    is unobservable.  Qubit numbers and axes are natural numbers, as the
    catalogue only produces them from [range]; action indices are integers,
    negative ones included. *)

From Stdlib Require Import String.
From Stdlib Require Import List ZArith Reals Lra Lia Bool Arith PeanoNat.
Import ListNotations.
Local Open Scope string_scope.
Local Open Scope list_scope.
Local Open Scope nat_scope.

Set Implicit Arguments.

(* ================================================================= *)
(** ** Python outcomes *)

Inductive exn : Type :=
| IndexError (msg : string)
| TypeError (msg : string)
| ValueError (msg : string)
| AxisError (msg : string).

Inductive outcome (A : Type) : Type :=
| Return (a : A)
| Raise (e : exn).

Arguments Return {A} a.
Arguments Raise {A} e.

Definition obind {A B} (o : outcome A) (k : A -> outcome B) : outcome B :=
  match o with
  | Return a => k a
  | Raise e => Raise e
  end.

Declare Scope outcome_scope.
Delimit Scope outcome_scope with outcome.
Notation "x <- o ;; k" := (obind o (fun x => k))
  (at level 61, o at next level, right associativity) : outcome_scope.

(** [l[i]] on a Python list: negative indices count from the end. *)
Definition list_getitem {A} (l : list A) (i : Z) : outcome A :=
  let n := Z.of_nat (length l) in
  let j := if (i <? 0)%Z then (i + n)%Z else i in
  if ((0 <=? j) && (j <? n))%Z then
    match nth_error l (Z.to_nat j) with
    | Some x => Return x
    | None => Raise (IndexError "list index out of range")
    end
  else Raise (IndexError "list index out of range").

(** [lst.insert(i, x)] for [i >= 0]. *)
Definition list_insert {A} (i : nat) (x : A) (l : list A) : list A :=
  firstn i l ++ x :: skipn i l.

(** [lst[:-n]]. *)
Definition drop_last {A} (n : nat) (l : list A) : list A :=
  firstn (length l - n) l.

(** [lst.index(m)], with [len(lst)] when [m] is absent. *)
Fixpoint index_of (m : nat) (l : list nat) : nat :=
  match l with
  | [] => 0
  | x :: l' => if x =? m then 0 else S (index_of m l')
  end.

Fixpoint nodupb (l : list nat) : bool :=
  match l with
  | [] => true
  | x :: l' => negb (existsb (Nat.eqb x) l') && nodupb l'
  end.

(** Equality of two tuples of integers. *)
Fixpoint shape_eqb (s t : list nat) : bool :=
  match s, t with
  | [], [] => true
  | x :: s', y :: t' => (x =? y) && shape_eqb s' t'
  | _, _ => false
  end.

(* ================================================================= *)
(** ** Complex scalars *)

Record complex : Type := mkC { Re : R; Im : R }.

Definition C0 : complex := mkC 0 0.
Definition C1 : complex := mkC 1 0.
Definition Ci : complex := mkC 0 1.

Definition Cadd (x y : complex) : complex := mkC (Re x + Re y) (Im x + Im y).
Definition Csub (x y : complex) : complex := mkC (Re x - Re y) (Im x - Im y).
Definition Cmul (x y : complex) : complex :=
  mkC (Re x * Re y - Im x * Im y) (Re x * Im y + Im x * Re y).
Definition Cabs (x : complex) : R := sqrt (Re x * Re x + Im x * Im x).

Definition Csum (l : list complex) : complex := fold_left Cadd l C0.

Definition Rleb (x y : R) : bool := if Rle_dec x y then true else false.

Class Dflt (A : Type) : Type := dflt : A.
#[export] Instance Dflt_complex : Dflt complex := C0.
#[export] Instance Dflt_R : Dflt R := 0%R.

(* ================================================================= *)
(** ** The fragment of NumPy used by the class *)

Module np.

Record ndarray (A : Type) : Type := mk_ndarray {
  shape : list nat;
  data : list A       (* row-major (C order) *)
}.

Arguments mk_ndarray {A} shape data.

Definition ndim {A} (a : ndarray A) : nat := length (shape a).

Definition prod_shape (sh : list nat) : nat := fold_right Nat.mul 1 sh.

Definition size {A} (a : ndarray A) : nat := prod_shape (shape a).

(** Offset of a multi-index in row-major order. *)
Fixpoint ravel (sh idx : list nat) : nat :=
  match sh, idx with
  | _ :: sh', i :: idx' => i * prod_shape sh' + ravel sh' idx'
  | _, _ => 0
  end.

(** All multi-indices of a shape, in row-major order. *)
Fixpoint indices (sh : list nat) : list (list nat) :=
  match sh with
  | [] => [[]]
  | d :: sh' => flat_map (fun i => map (cons i) (indices sh')) (seq 0 d)
  end.

Definition get {A} `{Dflt A} (a : ndarray A) (idx : list nat) : A :=
  nth (ravel (shape a) idx) (data a) dflt.

Definition tabulate {A} (sh : list nat) (f : list nat -> A) : ndarray A :=
  mk_ndarray sh (map f (indices sh)).

(** [idx] is a valid multi-index for shape [sh]. *)
Definition in_shape (idx sh : list nat) : Prop := Forall2 lt idx sh.

(** Index read in the argument of [np.transpose(a, axes)] for the index
    [idx] of the result: component [axes[k]] of the source is [idx[k]]. *)
Definition transpose_index (nd : nat) (axes idx : list nat) : list nat :=
  map (fun m => nth (index_of m axes) idx 0) (seq 0 nd).

(** [np.transpose(a, axes)]: axis [k] of the result is axis [axes[k]] of [a]. *)
Definition transpose {A} `{Dflt A} (a : ndarray A) (axes : list nat)
  : outcome (ndarray A) :=
  if negb (length axes =? ndim a) then
    Raise (ValueError "axes don't match array")
  else if negb (forallb (fun k => k <? ndim a) axes) then
    Raise (AxisError "axis is out of bounds for array")
  else if negb (nodupb axes) then
    Raise (ValueError "repeated axis in transpose")
  else
    Return (tabulate (map (fun k => nth k (shape a) 0) axes)
                     (fun idx => get a (transpose_index (ndim a) axes idx))).

(** [a.reshape(newshape)]: same elements in row-major order. *)
Definition reshape {A} (a : ndarray A) (newshape : list nat)
  : outcome (ndarray A) :=
  if prod_shape newshape =? size a then
    Return (mk_ndarray newshape (data a))
  else Raise (ValueError "cannot reshape array").

Definition real (a : ndarray complex) : ndarray R :=
  mk_ndarray (shape a) (map Re (data a)).

Definition imag (a : ndarray complex) : ndarray R :=
  mk_ndarray (shape a) (map Im (data a)).

(** [np.array([a, b])] for two arrays of one shape. *)
Definition array2 {A} (a b : ndarray A) : ndarray A :=
  mk_ndarray (2 :: shape a) (data a ++ data b).

(** The loop of [tensordot] comparing the contracted dimensions pairwise. *)
Fixpoint axes_agree (as_ bs axes_a axes_b : list nat) : outcome bool :=
  match axes_a, axes_b with
  | ka :: ra, kb :: rb =>
      match nth_error as_ ka, nth_error bs kb with
      | Some da, Some db =>
          if da =? db then axes_agree as_ bs ra rb else Return false
      | _, _ => Raise (IndexError "tuple index out of range")
      end
  | _, _ => Return true
  end.

Definition notin (nd : nat) (axes : list nat) : list nat :=
  filter (fun k => negb (existsb (Nat.eqb k) axes)) (seq 0 nd).

(** [np.tensordot(a, b, axes=(axes_a, axes_b))]: the contracted axes of [a]
    are moved to the end, those of [b] to the front, and the two are
    multiplied as matrices; the result carries the free axes of [a] followed
    by the free axes of [b]. *)
Definition tensordot (a b : ndarray complex) (axes_a axes_b : list nat)
  : outcome (ndarray complex) :=
  (equal <- (if length axes_a =? length axes_b
             then axes_agree (shape a) (shape b) axes_a axes_b
             else Return false) ;;
   if negb equal then Raise (ValueError "shape-mismatch for sum") else
   let notin_a := notin (ndim a) axes_a in
   let newaxes_a := notin_a ++ axes_a in
   let olda := map (fun k => nth k (shape a) 0) notin_a in
   let notin_b := notin (ndim b) axes_b in
   let newaxes_b := axes_b ++ notin_b in
   let oldb := map (fun k => nth k (shape b) 0) notin_b in
   let sumdims := map (fun k => nth k (shape a) 0) axes_a in
   at_ <- transpose a newaxes_a ;;
   bt <- transpose b newaxes_b ;;
   Return (tabulate (olda ++ oldb)
             (fun idx =>
                let ia := firstn (length olda) idx in
                let ib := skipn (length olda) idx in
                Csum (map (fun js => Cmul (get at_ (ia ++ js)) (get bt (js ++ ib)))
                          (indices sumdims)))))%outcome.

(** Broadcasting of two shapes, aligned on their last axes. *)
Fixpoint broadcast_rev (s t : list nat) : option (list nat) :=
  match s, t with
  | [], _ => Some t
  | _, [] => Some s
  | d :: s', e :: t' =>
      match broadcast_rev s' t' with
      | None => None
      | Some r =>
          if d =? 1 then Some (e :: r)
          else if e =? 1 then Some (d :: r)
          else if d =? e then Some (d :: r)
          else None
      end
  end.

Definition broadcast_shapes (s t : list nat) : option (list nat) :=
  option_map (@rev nat) (broadcast_rev (rev s) (rev t)).

(** Index read in an operand of shape [sh] for the index [idx] of the
    broadcast result. *)
Definition broadcast_index (sh idx : list nat) : list nat :=
  map (fun di => if fst di =? 1 then 0 else snd di)
      (combine sh (skipn (length idx - length sh) idx)).

(** [abs(x - y) <= atol + rtol * abs(y)] on one pair of elements. *)
Definition within_tol (rtol atol : R) (x y : complex) : bool :=
  Rleb (Cabs (Csub x y)) (atol + rtol * Cabs y).

(** [np.allclose(a, b, rtol, atol)] on finite values. *)
Definition allclose (a b : ndarray complex) (rtol atol : R) : outcome bool :=
  match broadcast_shapes (shape a) (shape b) with
  | None => Raise (ValueError "operands could not be broadcast together")
  | Some sh =>
      Return (forallb (fun idx =>
                         within_tol rtol atol
                           (get a (broadcast_index (shape a) idx))
                           (get b (broadcast_index (shape b) idx)))
                      (indices sh))
  end.

(** Default [atol] of [np.allclose]. *)
Definition default_atol : R := 1e-8.

End np.

Import np.

(* ================================================================= *)
(** ** The [GateSynthesis] class *)

Definition gate : Type := ndarray complex.

(** The second component of a catalogue entry: a qubit number for a
    single-qubit action, an ordered pair of qubits for a two-qubit action. *)
Inductive qbits : Type :=
| Qb (qbit : nat)
| QbPair (qbA qbB : nat).

Definition action : Type := (nat * (gate * qbits))%type.

Record GateSynthesis : Type := mk_GateSynthesis {
  init_unitary_op : ndarray complex;
  curr_unitary_op : ndarray complex;
  target_unitary_op : ndarray complex;
  nb_qbits : nat;
  final_reward : Z;
  q1_gates : list gate;
  q2_gates : list gate;
  full_action_list : list action;
  nb_steps : Z;
  max_steps : Z;
  tol : R;
  distance_history : list R;
  player : Z
}.

Definition set_curr_unitary_op (op : ndarray complex) (self : GateSynthesis)
  : GateSynthesis :=
  mk_GateSynthesis (init_unitary_op self) op (target_unitary_op self)
    (nb_qbits self) (final_reward self) (q1_gates self) (q2_gates self)
    (full_action_list self) (nb_steps self) (max_steps self) (tol self)
    (distance_history self) (player self).

Definition set_nb_steps (n : Z) (self : GateSynthesis) : GateSynthesis :=
  mk_GateSynthesis (init_unitary_op self) (curr_unitary_op self)
    (target_unitary_op self) (nb_qbits self) (final_reward self)
    (q1_gates self) (q2_gates self) (full_action_list self) n
    (max_steps self) (tol self) (distance_history self) (player self).

Definition set_distance_history (h : list R) (self : GateSynthesis)
  : GateSynthesis :=
  mk_GateSynthesis (init_unitary_op self) (curr_unitary_op self)
    (target_unitary_op self) (nb_qbits self) (final_reward self)
    (q1_gates self) (q2_gates self) (full_action_list self) (nb_steps self)
    (max_steps self) (tol self) h (player self).

(** Methods run on the object [self], may raise, and may print: a method
    maps the object to its outcome, the object afterwards (also when it
    raises) and the lines written to standard output. *)
Definition method (A : Type) : Type :=
  GateSynthesis -> outcome A * GateSynthesis * list string.

Definition ret {A} (a : A) : method A := fun self => (Return a, self, []).

Definition raise {A} (e : exn) : method A := fun self => (Raise e, self, []).

Definition bind {A B} (m : method A) (k : A -> method B) : method B :=
  fun self =>
    match m self with
    | (Return a, self', out) =>
        match k a self' with
        | (r, self'', out') => (r, self'', out ++ out')
        end
    | (Raise e, self', out) => (Raise e, self', out)
    end.

Definition lift {A} (o : outcome A) : method A := fun self => (o, self, []).

Definition read {A} (f : GateSynthesis -> A) : method A :=
  fun self => (Return (f self), self, []).

Definition call {A} (f : GateSynthesis -> outcome A) : method A :=
  fun self => (f self, self, []).

Definition assign (f : GateSynthesis -> GateSynthesis) : method unit :=
  fun self => (Return tt, f self, []).

Definition print (line : string) : method unit :=
  fun self => (Return tt, self, [line]).

Declare Scope method_scope.
Delimit Scope method_scope with method.
Notation "x <- m ;; k" := (bind m (fun x => k))
  (at level 61, m at next level, right associativity) : method_scope.
Notation "m ;; k" := (bind m (fun _ => k))
  (at level 61, right associativity) : method_scope.

(** [itertools.product(xs, ys)]. *)
Definition product {A B} (xs : list A) (ys : list B) : list (A * B) :=
  flat_map (fun x => map (pair x) ys) xs.

Definition coherent_2q_permutations (nb_qbits : nat) : list (nat * nat) :=
  let all_2q_permutations := product (seq 0 nb_qbits) (seq 0 nb_qbits) in
  filter (fun x => negb (fst x =? snd x)) all_2q_permutations.

Definition q1_actions (q1_gates : list gate) (nb_qbits : nat)
  : list (gate * qbits) :=
  map (fun gq => (fst gq, Qb (snd gq))) (product q1_gates (seq 0 nb_qbits)).

Definition q2_actions (q2_gates : list gate) (nb_qbits : nat)
  : list (gate * qbits) :=
  map (fun gp => (fst gp, QbPair (fst (snd gp)) (snd (snd gp))))
      (product q2_gates (coherent_2q_permutations nb_qbits)).

(** [make_full_action_list]: reads [q1_gates], [q2_gates] and [nb_qbits]
    of the object under construction. *)
Definition make_full_action_list (q1_gates q2_gates : list gate)
  (nb_qbits : nat) : list action :=
  let all_actions :=
    if 1 <? nb_qbits then
      q1_actions q1_gates nb_qbits ++ q2_actions q2_gates nb_qbits
    else q1_actions q1_gates nb_qbits in
  combine (seq 0 (length all_actions)) all_actions.

(** [__init__]. *)
Definition GateSynthesis_init (q1_gates q2_gates : list gate) (rwd max_steps : Z)
  (init_uop target_uop : ndarray complex) (tol : R) : GateSynthesis :=
  let nb_qbits := ndim init_uop / 2 in
  mk_GateSynthesis init_uop init_uop target_uop nb_qbits rwd q1_gates q2_gates
    (make_full_action_list q1_gates q2_gates nb_qbits) 0 max_steps tol [] 1.

Definition to_play : method Z := ret 1%Z.

Definition qbit_num_to_tensor_index (n : nat) : nat := n * 2.

(** The [axes] argument built in [get_observation]:
    [(0, n, 1, n+1, ..., n-1, 2n-1)]. *)
Definition observation_axes (n : nat) : list nat :=
  flat_map (fun tup => [fst tup; snd tup]) (combine (seq 0 n) (seq n n)).

Definition get_observation (self : GateSynthesis) : outcome (ndarray R) :=
  (let n := nb_qbits self in
   unitary <- transpose (curr_unitary_op self) (observation_axes n) ;;
   unitary <- reshape unitary [2 ^ n; 2 ^ n] ;;
   Return (array2 (real unitary) (imag unitary)))%outcome.

Definition have_winner (self : GateSynthesis) : outcome bool :=
  allclose (curr_unitary_op self) (target_unitary_op self) (tol self)
           default_atol.

Definition reset : method (ndarray R) :=
  (assign (fun self => set_curr_unitary_op (init_unitary_op self) self) ;;
   assign (set_nb_steps 0) ;;
   assign (set_distance_history []) ;;
   call get_observation)%method.

Definition apply_1q_gate (gate : gate) (qbit : nat) : method (ndarray complex) :=
  (let qb_idx := qbit_num_to_tensor_index qbit in
   curr <- read curr_unitary_op ;;
   let dim := ndim curr in
   let lst := seq 0 dim in
   tensored_res <- lift (tensordot curr gate [qb_idx] [1]) ;;
   let lst := list_insert qb_idx (dim - 1) lst in
   res <- lift (transpose tensored_res (drop_last 1 lst)) ;;
   assign (set_curr_unitary_op res) ;;
   ret res)%method.

Definition apply_2q_gate (gate : gate) (qbitA qbitB : nat)
  : method (ndarray complex) :=
  (let idx_a := qbit_num_to_tensor_index qbitA in
   let idx_b := qbit_num_to_tensor_index qbitB in
   curr <- read curr_unitary_op ;;
   let dim := ndim curr in
   let lst := seq 0 dim in
   tensored_res <- lift (tensordot curr gate [idx_a; idx_b] [1; 3]) ;;
   let '(smaller, bigger, first, second) :=
     if idx_a <? idx_b then (idx_a, idx_b, dim - 2, dim - 1)
     else (idx_b, idx_a, dim - 1, dim - 2) in
   let lst := list_insert smaller first lst in
   let lst := list_insert bigger second lst in
   res <- lift (transpose tensored_res (drop_last 2 lst)) ;;
   assign (set_curr_unitary_op res) ;;
   ret res)%method.

(** Lines 281-287 of [step]: the branch on [gate.shape].  The annotations
    [qbit:int] and [qbitA: int, qbitB: int] of the appliers fix the kind of
    target each expects; a catalogue entry of the other kind makes Python
    raise where the tuple is unpacked (two-qubit branch) or inside
    [np.tensordot] (single-qubit branch, whose [axes] argument then has
    unequal lengths). *)
Definition dispatch (gate : gate) (qbit : qbits) : method (ndarray complex) :=
  if shape_eqb (shape gate) [2; 2; 2; 2] then
    match qbit with
    | QbPair qbA qbB => apply_2q_gate gate qbA qbB
    | Qb _ => raise (TypeError "cannot unpack non-iterable int object")
    end
  else if shape_eqb (shape gate) [2; 2] then
    match qbit with
    | Qb qbit => apply_1q_gate gate qbit
    | QbPair _ _ => raise (ValueError "shape-mismatch for sum")
    end
  else raise (ValueError "Unsupported gate dimension").

(** Lines 289-294 of [step]: termination flag, reward and observation. *)
Definition conclude : method (ndarray R * Z * bool) :=
  (won <- call have_winner ;;
   n <- read nb_steps ;;
   m <- read max_steps ;;
   let done := won || (m <? n)%Z in
   (if done then print "######### FINISH!!!" else ret tt) ;;
   won' <- call have_winner ;;
   rwd <- read final_reward ;;
   let reward := if won' then rwd else 0%Z in
   obs <- call get_observation ;;
   ret (obs, reward, done))%method.

Definition step (action_idx : Z) : method (ndarray R * Z * bool) :=
  (acts <- read full_action_list ;;
   entry <- lift (list_getitem acts action_idx) ;;
   dispatch (fst (snd entry)) (snd (snd entry)) ;;
   conclude)%method.

(** A caller's use of an episode: a sequence of [reset] and [step] calls on
    one object; an exception leaves the object as the raising call left it. *)
Inductive request : Type :=
| Reset
| Step (action_idx : Z).

Definition after {A} (m : method A) (self : GateSynthesis) : GateSynthesis :=
  snd (fst (m self)).

Definition result {A} (m : method A) (self : GateSynthesis) : outcome A :=
  fst (fst (m self)).

Definition serve (r : request) (self : GateSynthesis) : GateSynthesis :=
  match r with
  | Reset => after reset self
  | Step a => after (step a) self
  end.

Definition serve_all (rs : list request) (self : GateSynthesis) : GateSynthesis :=
  fold_left (fun s r => serve r s) rs self.

(* ================================================================= *)
(** ** Sample operators and episodes *)

Definition matrix2 (a b c d : complex) : gate := mk_ndarray [2; 2] [a; b; c; d].

(** Modelled from the spec: the gate constants of
    [games/gs_utils/operators.py] are not among the sources; the spec's
    scenarios name an identity gate and an X gate, taken here as the usual
    2x2 matrices (row axis first, column axis second). *)
Definition op_I : gate := matrix2 C1 C0 C0 C1.
Definition op_X : gate := matrix2 C0 C1 C1 C0.

Fixpoint pairs_equal (idx : list nat) : bool :=
  match idx with
  | r :: c :: rest => (r =? c) && pairs_equal rest
  | _ => true
  end.

(** Modelled from the spec: the identity operator on [n] qubits (the
    constants [I], [II], [III] of [games/gs_utils/operators.py]) in the
    layout of the data model, qubit [k] owning the row axis [2k] and the
    column axis [2k+1]: the entry is 1 when every qubit's row and column
    indices agree. *)
Definition identity_op (n : nat) : ndarray complex :=
  tabulate (repeat 2 (2 * n)) (fun idx => if pairs_equal idx then C1 else C0).

(** The episode of the spec's end-to-end scenarios: one qubit, gates
    identity and X, target X, starting from the identity. *)
Definition scenario (max_steps : Z) : GateSynthesis :=
  GateSynthesis_init [op_I; op_X] [] 100 max_steps op_I op_X 1e-3.

(* ================================================================= *)
(** ** Index-level reading of the contractions *)

Definition free_dims (sh axes : list nat) : list nat :=
  map (fun k => nth k sh 0) (notin (length sh) axes).

Definition sum_dims (sh axes : list nat) : list nat :=
  map (fun k => nth k sh 0) axes.

(** Element of a contraction: the sum, over the contracted indices [js], of
    the products of the element of [a] with [js] on the contracted axes and
    the element of [b] with [js] on its contracted axes. *)
Definition contraction (a b : ndarray complex) (axes_a axes_b idx : list nat)
  : complex :=
  let na := notin (ndim a) axes_a in
  let nb := notin (ndim b) axes_b in
  let ia := firstn (length na) idx in
  let ib := skipn (length na) idx in
  Csum (map (fun js =>
               Cmul (get a (transpose_index (ndim a) (na ++ axes_a) (ia ++ js)))
                    (get b (transpose_index (ndim b) (axes_b ++ nb) (js ++ ib))))
            (indices (sum_dims (shape a) axes_a))).

(** [idx] with component [p] replaced by [v]. *)
Definition put (p v : nat) (idx : list nat) : list nat :=
  firstn p idx ++ v :: skipn (S p) idx.

(** A matrix [g] applied along axis [p] of [T]: the element at [idx] is the
    sum over [j] of [T[.., j at p, ..] * g[idx[p], j]]. *)
Definition matrix_on_axis (T g : ndarray complex) (p : nat) (idx : list nat)
  : complex :=
  Csum (map (fun j => Cmul (get T (put p j idx)) (get g [nth p idx 0; j]))
            (seq 0 (nth p (shape T) 0))).

(* ================================================================= *)
(** ** Notions used in the proofs *)

(** [axes] is a permutation of [0 .. nd-1]. *)
Definition valid_axes (nd : nat) (axes : list nat) : Prop :=
  length axes = nd /\ (forall k, In k axes -> k < nd) /\ NoDup axes.

(** Everything in the object but the current operator. *)
Definition frame (s s' : GateSynthesis) : Prop :=
  init_unitary_op s' = init_unitary_op s /\
  target_unitary_op s' = target_unitary_op s /\
  nb_qbits s' = nb_qbits s /\
  final_reward s' = final_reward s /\
  q1_gates s' = q1_gates s /\
  q2_gates s' = q2_gates s /\
  full_action_list s' = full_action_list s /\
  nb_steps s' = nb_steps s /\
  max_steps s' = max_steps s /\
  tol s' = tol s /\
  distance_history s' = distance_history s /\
  player s' = player s.

Definition framed {A} (m : method A) : Prop :=
  forall self, frame self (after m self).

(** Axis order of the final transpose of [apply_1q_gate] on an operator of
    rank [d]: the trailing axis goes to position [p]. *)
Definition reinsert1 (d p : nat) : list nat :=
  drop_last 1 (list_insert p (d - 1) (seq 0 d)).

(** Position of axis [m] in [notin d [p] ++ [p]]. *)
Definition inv_contract1 (d p m : nat) : nat :=
  if m <? p then m else if m =? p then d - 1 else m - 1.

(** Position of axis [t] in [reinsert1 d p]. *)
Definition inv_reinsert1 (d p t : nat) : nat :=
  if t <? p then t else if t =? d - 1 then p else S t.

(** A rank-4 gate [g] applied along axes [pa] and [pb] of [T], its axes 1
    and 3 being summed against [pa] and [pb] and its axes 0 and 2 indexing
    the result at [pa] and [pb]. *)
Definition gate_on_axes (T g : ndarray complex) (pa pb : nat) (idx : list nat)
  : complex :=
  Csum (map (fun js =>
               Cmul (get T (put pb (nth 1 js 0) (put pa (nth 0 js 0) idx)))
                    (get g [nth pa idx 0; nth 0 js 0; nth pb idx 0; nth 1 js 0]))
            (indices [nth pa (shape T) 0; nth pb (shape T) 0])).

(** Axis order of the final transpose of [apply_2q_gate] on an operator of
    rank [d]. *)
Definition reinsert2 (d pa pb : nat) : list nat :=
  let '(smaller, bigger, first, second) :=
    if pa <? pb then (pa, pb, d - 2, d - 1) else (pb, pa, d - 1, d - 2) in
  drop_last 2 (list_insert bigger second (list_insert smaller first (seq 0 d))).

(** Position of axis [m] in [notin d [pa; pb] ++ [pa; pb]]. *)
Definition inv_contract2 (d pa pb m : nat) : nat :=
  if m =? pa then d - 2
  else if m =? pb then d - 1
  else if m <? Nat.min pa pb then m
  else if m <? Nat.max pa pb then m - 1
  else m - 2.

(** Position of axis [t] in [reinsert2 d pa pb]. *)
Definition inv_reinsert2 (d pa pb t : nat) : nat :=
  if t =? d - 2 then pa
  else if t =? d - 1 then pb
  else if t <? Nat.min pa pb then t
  else if t <? Nat.max pa pb - 1 then S t
  else S (S t).

(** The two-qubit contraction as the specification words it: a gate with
    axes (out-A, out-B, in-A, in-B), the operator axes [pa] and [pb] summed
    against the gate's third and fourth axes, its first and second axes
    indexing the result at [pa] and [pb]. *)
Definition spec_gate_on_axes (T g : ndarray complex) (pa pb : nat)
  (idx : list nat) : complex :=
  Csum (map (fun js =>
               Cmul (get T (put pb (nth 1 js 0) (put pa (nth 0 js 0) idx)))
                    (get g [nth pa idx 0; nth pb idx 0; nth 0 js 0; nth 1 js 0]))
            (indices [nth pa (shape T) 0; nth pb (shape T) 0])).

(** A rank-4 tensor with a single non-zero entry, at [[0; 1; 0; 0]]: it
    tells the gate's second axis from its third. *)
Definition probe_gate : gate :=
  tabulate [2; 2; 2; 2]
    (fun idx => if shape_eqb idx [0; 1; 0; 0] then C1 else C0).

(** A two-qubit episode starting from the identity, with [probe_gate] as its
    only gate. *)
Definition two_qubit_episode : GateSynthesis :=
  GateSynthesis_init [] [probe_gate] 100 10 (identity_op 2) (identity_op 2) 1e-3.

(** An episode whose operator is the identity up to [1e-9] in one
    off-diagonal element, with the identity as target. *)
Definition near_identity_episode : GateSynthesis :=
  GateSynthesis_init [op_I] [] 100 10
    (matrix2 C1 (mkC 1e-9 0) C0 C1) op_I 1e-3.

(** Every element [1e-4] above the identity, with the identity as target. *)
Definition shifted_identity_episode : GateSynthesis :=
  GateSynthesis_init [op_I] [] 100 10
    (matrix2 (mkC (1 + 1e-4) 0) (mkC 1e-4 0) (mkC 1e-4 0) (mkC (1 + 1e-4) 0))
    op_I 1e-3.

(** The axis order the specification asks of the observation: the row axes
    of qubits 0 .. n-1, then their column axes. *)
Definition rows_then_columns (n : nat) : list nat :=
  map (fun k => 2 * k) (seq 0 n) ++ map (fun k => 2 * k + 1) (seq 0 n).

(** The observation as the specification words it. *)
Definition spec_get_observation (self : GateSynthesis) : outcome (ndarray R) :=
  (let n := nb_qbits self in
   unitary <- transpose (curr_unitary_op self) (rows_then_columns n) ;;
   unitary <- reshape unitary [2 ^ n; 2 ^ n] ;;
   Return (array2 (real unitary) (imag unitary)))%outcome.

(** The observation of the identity the specification expects: the identity
    matrix of side [D] on layer 0 and the zero matrix on layer 1. *)
Definition identity_observation (D : nat) : ndarray R :=
  tabulate [2; D; D]
    (fun idx =>
       if (nth 0 idx 0 =? 0) && (nth 1 idx 0 =? nth 2 idx 0) then 1%R else 0%R).

(** An episode on [n] qubits starting from the identity. *)
Definition identity_episode (n : nat) : GateSynthesis :=
  GateSynthesis_init [op_I] [] 100 10 (identity_op n) (identity_op n) 1e-3.

(** Position of axis [m] in [observation_axes n]. *)
Definition inv_observation (n m : nat) : nat :=
  if m <? n then 2 * m else 2 * (m - n) + 1.

(** The exception of the last branch of [step]. *)
Definition unsupported_gate : exn := ValueError "Unsupported gate dimension".

(** The exceptions raised inside NumPy or by Python itself. *)
Definition numpy_error (e : exn) : Prop := e <> unsupported_gate.

(** [m] raises nothing but exceptions satisfying [P]. *)
Definition raises_only {A} (P : exn -> Prop) (m : method A) : Prop :=
  forall self e, result m self = Raise e -> P e.

(** CNOT as a 4x4 matrix, a rank-2 array. *)
Definition cnot_matrix : gate :=
  mk_ndarray [4; 4]
    [C1; C0; C0; C0;
     C0; C1; C0; C0;
     C0; C0; C0; C1;
     C0; C0; C1; C0].

(** A two-qubit episode whose catalogue offers [cnot_matrix]. *)
Definition matrix_gate_episode : GateSynthesis :=
  GateSynthesis_init [cnot_matrix] [] 100 10 (identity_op 2) (identity_op 2) 1e-3.

(** What the identity-only run of the one-qubit scenario keeps true: all
    attributes but the operator are those of the scenario, and the operator
    has the shape and the elements of the identity. *)
Definition idle (max_steps : Z) (s : GateSynthesis) : Prop :=
  frame (scenario max_steps) s /\
  shape (curr_unitary_op s) = [2; 2] /\
  forall idx, in_shape idx [2; 2] -> get (curr_unitary_op s) idx = get op_I idx.

Unset Implicit Arguments.

(* ================================================================= *)
(** ** Well-formed episodes *)

(** An episode on [N] qubits whose operators have shape (2,)*2N, whose
    single-qubit gates have shape (2, 2) and two-qubit gates (2, 2, 2, 2),
    and whose catalogue is the one [__init__] builds. *)
Definition well_formed (N : nat) (s : GateSynthesis) : Prop :=
  nb_qbits s = N /\
  shape (init_unitary_op s) = repeat 2 (2 * N) /\
  shape (curr_unitary_op s) = repeat 2 (2 * N) /\
  shape (target_unitary_op s) = repeat 2 (2 * N) /\
  full_action_list s = make_full_action_list (q1_gates s) (q2_gates s) N /\
  Forall (fun g => shape g = [2; 2]) (q1_gates s) /\
  Forall (fun g => shape g = [2; 2; 2; 2]) (q2_gates s).

(** The call [r] on [s] returns (raises nothing). *)
Definition returns (r : request) (s : GateSynthesis) : Prop :=
  match r with
  | Reset => exists obs, result reset s = Return obs
  | Step a => exists x, result (step a) s = Return x
  end.

(** Every call of the sequence returns, each on the object its predecessors
    left. *)
Fixpoint all_return (rs : list request) (s : GateSynthesis) : Prop :=
  match rs with
  | [] => True
  | r :: rs' => returns r s /\ all_return rs' (serve r s)
  end.

(** The action index of [r], if any, is one Python accepts for a list of
    length [K]. *)
Definition indexable (K : nat) (r : request) : Prop :=
  match r with
  | Reset => True
  | Step a => (- Z.of_nat K <= a < Z.of_nat K)%Z
  end.

(** [m] prints nothing. *)
Definition silent {A} (m : method A) : Prop :=
  forall self, snd (m self) = [].

(** An episode whose target, a vector of length 3, cannot be compared with
    a one-qubit operator; [__init__] accepts it. *)
Definition mismatched_target_episode : GateSynthesis :=
  GateSynthesis_init [op_X] [] 100 10 op_I (mk_ndarray [3] [C0; C0; C0]) 1e-3.

(** A copy of [self] with another tolerance, as a constructor call with
    another [tol] argument gives. *)
Definition with_tol (t : R) (self : GateSynthesis) : GateSynthesis :=
  mk_GateSynthesis (init_unitary_op self) (curr_unitary_op self)
    (target_unitary_op self) (nb_qbits self) (final_reward self)
    (q1_gates self) (q2_gates self) (full_action_list self) (nb_steps self)
    (max_steps self) t (distance_history self) (player self).

(* ================================================================= *)
(** ** The [Game] wrapper *)

Record Game : Type := mk_Game { env : GateSynthesis }.

(** [Game.__init__].  [QB1GATES] and [I_op] stand for the constants
    [QB1GATES] and [I] of [games/gs_utils/operators.py]; [draw] stands for
    the value [np.random.randint(0, len(poss_targets))] returns, which
    NumPy takes from [0, len(poss_targets)) and refuses to draw when that
    range is empty. *)
Definition Game_init (QB1GATES : list gate) (I_op : ndarray complex)
  (randomise : bool) (poss_targets : list (ndarray complex)) (draw : Z)
  : outcome Game :=
  (idx <- (if randomise then
             if 0 <? length poss_targets then Return draw
             else Raise (ValueError "low >= high")
           else Return 0%Z) ;;
   target <- list_getitem poss_targets idx ;;
   Return (mk_Game (GateSynthesis_init QB1GATES [] 100 1000 I_op target 1e-3))
  )%outcome.

(** [Game.step]: forwards to the environment. *)
Definition Game_step (action : Z) (self : Game)
  : outcome (ndarray R * Z * bool) * Game * list string :=
  (result (step action) (env self),
   mk_Game (after (step action) (env self)),
   snd (step action (env self))).

(** [Game.legal_actions]. *)
Definition Game_legal_actions (self : Game) : list Z :=
  map Z.of_nat (seq 0 (length (full_action_list (env self)))).

(** [Game.reset]. *)
Definition Game_reset (self : Game) : outcome (ndarray R) * Game * list string :=
  (result reset (env self), mk_Game (after reset (env self)),
   snd (reset (env self))).

(** The game after the moves [actions]. *)
Definition Game_play (actions : list Z) (self : Game) : Game :=
  fold_left (fun g a => snd (fst (Game_step a g))) actions self.

(* ================================================================= *)
(** ** Matrices of single-qubit gates *)

(** The product [h @ g] of two 2x2 matrices. *)
Definition matmul2 (h g : gate) : gate :=
  tabulate [2; 2]
    (fun il => Csum (map (fun j => Cmul (get h [nth 0 il 0; j])
                                        (get g [j; nth 1 il 0]))
                         (seq 0 2))).

(** [m] has the entries of the 2x2 identity matrix. *)
Definition is_identity2 (m : gate) : Prop :=
  forall i l, i < 2 -> l < 2 ->
    get m [i; l] = if i =? l then C1 else C0.

(** The two-qubit gate acting as [g] on its first qubit and as [h] on its
    second, in the layout [apply_2q_gate] reads: axes (out-A, in-A, out-B,
    in-B). *)
Definition kron2 (g h : gate) : gate :=
  tabulate [2; 2; 2; 2]
    (fun x => Cmul (get g [nth 0 x 0; nth 1 x 0]) (get h [nth 2 x 0; nth 3 x 0])).

(** A two-qubit gate with the roles of its two qubits exchanged. *)
Definition swap_qubits (g : gate) : gate :=
  tabulate [2; 2; 2; 2]
    (fun x => get g [nth 2 x 0; nth 3 x 0; nth 0 x 0; nth 1 x 0]).

(** The index of the transposed array that reads the element [idx] of the
    source: component [k] is [idx[axes[k]]]. *)
Definition permuted_index (axes idx : list nat) : list nat :=
  map (fun a => nth a idx 0) axes.

(* ================================================================= *)
(** ** [MuZeroConfig.visit_softmax_temperature_fn] *)


(* ================================================================= *)
(** ** Indexing lemmas *)

Unset Implicit Arguments.

Section Indexing.

Lemma length_indices (sh : list nat) :
  length (indices sh) = prod_shape sh.
Proof.
  induction sh as [|d sh IH]; simpl; [reflexivity|].
  rewrite <- IH. generalize 0 as s.
  induction d as [|d IHd]; intros s; simpl; [reflexivity|].
  rewrite length_app, length_map, IHd. reflexivity.
Qed.

Lemma in_shape_length (idx sh : list nat) :
  in_shape idx sh -> length idx = length sh.
Proof. induction 1; simpl; congruence. Qed.

Lemma in_shape_nth (idx sh : list nat) (k : nat) :
  in_shape idx sh -> k < length sh -> nth k idx 0 < nth k sh 0.
Proof.
  intros H; revert k; induction H; intros [|k] Hk; simpl in *; try lia.
  apply IHForall2; lia.
Qed.

Lemma in_shape_intro (idx sh : list nat) :
  length idx = length sh ->
  (forall k, k < length sh -> nth k idx 0 < nth k sh 0) ->
  in_shape idx sh.
Proof.
  revert sh; induction idx as [|i idx IH]; intros [|d sh] Hl Hn;
    simpl in *; try discriminate; constructor.
  - apply (Hn 0); lia.
  - apply IH; [lia|]. intros k Hk. apply (Hn (S k)); lia.
Qed.

Lemma ravel_lt (idx sh : list nat) :
  in_shape idx sh -> ravel sh idx < prod_shape sh.
Proof.
  induction 1 as [|i d idx sh Hi _ IH]; simpl; [lia|]. nia.
Qed.

(** Position [i * p + r] in a concatenation of blocks of length [p]. *)
Lemma nth_flat_map_blocks {B} (f : nat -> list B) (p : nat) (dflt : B) :
  forall n s i r,
    (forall j, s <= j < s + n -> length (f j) = p) ->
    i < n -> r < p ->
    nth (i * p + r) (flat_map f (seq s n)) dflt = nth r (f (s + i)) dflt.
Proof.
  induction n as [|n IH]; intros s i r Hlen Hi Hr; [lia|].
  simpl. destruct i as [|i].
  - simpl. rewrite app_nth1 by (rewrite Hlen; lia).
    now rewrite Nat.add_0_r.
  - rewrite app_nth2 by (rewrite Hlen; simpl; lia).
    rewrite Hlen by lia.
    replace (S i * p + r - p) with (i * p + r) by (simpl; lia).
    rewrite IH; try lia.
    + f_equal. f_equal. lia.
    + intros j Hj. apply Hlen. lia.
Qed.

Lemma length_flat_map_blocks {B} (f : nat -> list B) (p : nat) :
  forall n s,
    (forall j, s <= j < s + n -> length (f j) = p) ->
    length (flat_map f (seq s n)) = n * p.
Proof.
  induction n as [|n IH]; intros s Hlen; [reflexivity|].
  simpl. rewrite length_app, Hlen by lia. rewrite IH; [lia|].
  intros j Hj. apply Hlen. lia.
Qed.

Lemma nth_indices (idx sh : list nat) :
  in_shape idx sh -> nth (ravel sh idx) (indices sh) [] = idx.
Proof.
  induction 1 as [|i d idx sh Hi Hs IH]; simpl; [reflexivity|].
  rewrite (@nth_flat_map_blocks _ (fun i => map (cons i) (indices sh))
             (prod_shape sh)).
  - simpl. rewrite <- IH at 2.
    rewrite (nth_indep _ [] (i :: [])).
    + now rewrite (map_nth (cons i)).
    + rewrite length_map, length_indices. now apply ravel_lt.
  - intros j _. now rewrite length_map, length_indices.
  - exact Hi.
  - now apply ravel_lt.
Qed.

Lemma get_tabulate {A} `{Dflt A} (sh : list nat) (f : list nat -> A)
  (idx : list nat) :
  in_shape idx sh -> get (tabulate sh f) idx = f idx.
Proof.
  intros Hin. unfold get, tabulate; simpl.
  rewrite (nth_indep _ dflt (f [])).
  - rewrite (map_nth f). now rewrite nth_indices.
  - rewrite length_map, length_indices. now apply ravel_lt.
Qed.

Lemma in_indices (idx sh : list nat) :
  In idx (indices sh) <-> in_shape idx sh.
Proof.
  revert idx; induction sh as [|d sh IH]; intros idx; simpl.
  - split.
    + intros [<-|[]]. constructor.
    + intros H; inversion H; now left.
  - rewrite in_flat_map. split.
    + intros (i & Hi & Hin). rewrite in_map_iff in Hin.
      destruct Hin as (idx' & <- & Hin'). rewrite in_seq in Hi.
      constructor; [lia|now apply IH].
    + intros H; inversion H as [|i d' idx' sh' Hi Hs]; subst.
      exists i. split; [rewrite in_seq; lia|].
      rewrite in_map_iff. exists idx'. split; [reflexivity|now apply IH].
Qed.

End Indexing.

(* ================================================================= *)
(** ** The action catalogue *)

Section Catalogue.

Lemma length_product {A B} (xs : list A) (ys : list B) :
  length (product xs ys) = length xs * length ys.
Proof.
  unfold product. induction xs as [|x xs IH]; simpl; [reflexivity|].
  now rewrite length_app, length_map, IH.
Qed.

(** [itertools.product] is major in its first argument. *)
Lemma nth_error_product {A B} (xs : list A) (ys : list B) (i j : nat) x y :
  nth_error xs i = Some x -> nth_error ys j = Some y ->
  nth_error (product xs ys) (i * length ys + j) = Some (x, y).
Proof.
  unfold product. revert i; induction xs as [|x0 xs IH]; intros i Hx Hy.
  - destruct i; discriminate.
  - assert (Hj : j < length ys) by (apply nth_error_Some; congruence).
    destruct i as [|i]; simpl in *.
    + injection Hx as ->. rewrite nth_error_app1 by (rewrite length_map; lia).
      now rewrite nth_error_map, Hy.
    + rewrite nth_error_app2 by (rewrite length_map; lia).
      rewrite length_map.
      replace (length ys + i * length ys + j - length ys)
        with (i * length ys + j) by lia.
      now apply IH.
Qed.

Lemma nth_error_combine_seq_from {A} (l : list A) (s i : nat) x :
  nth_error l i = Some x ->
  nth_error (combine (seq s (length l)) l) i = Some (s + i, x).
Proof.
  revert s i; induction l as [|a l IH]; intros s [|i] Hx; simpl in *;
    try discriminate.
  - injection Hx as ->. now rewrite Nat.add_0_r.
  - rewrite (IH (S s) i Hx). f_equal. f_equal. lia.
Qed.

Lemma nth_error_combine_seq {A} (l : list A) (i : nat) x :
  nth_error l i = Some x ->
  nth_error (combine (seq 0 (length l)) l) i = Some (i, x).
Proof. intros Hx. now rewrite (nth_error_combine_seq_from l 0 i x Hx). Qed.

(** Row [a] of the pair table: every [b] except [a], in increasing order. *)
Lemma filter_row (N a : nat) :
  a < N ->
  filter (fun b => negb (a =? b)) (seq 0 N) = seq 0 a ++ seq (S a) (N - 1 - a).
Proof.
  intros Ha.
  replace N with (a + (1 + (N - 1 - a))) at 1 by lia.
  rewrite seq_app, filter_app, seq_app, filter_app. simpl.
  rewrite Nat.eqb_refl. simpl. replace (a + 1) with (S a) by lia. f_equal.
  - apply forallb_filter_id. apply forallb_forall. intros b Hb.
    apply in_seq in Hb. apply negb_true_iff, Nat.eqb_neq. lia.
  - apply forallb_filter_id. apply forallb_forall. intros b Hb.
    apply in_seq in Hb. apply negb_true_iff, Nat.eqb_neq. lia.
Qed.

Lemma filter_flat_map {A B} (p : B -> bool) (f : A -> list B) (l : list A) :
  filter p (flat_map f l) = flat_map (fun x => filter p (f x)) l.
Proof.
  induction l as [|x l IH]; simpl; [reflexivity|].
  now rewrite filter_app, IH.
Qed.

Lemma filter_map_pair (a : nat) (l : list nat) :
  filter (fun x => negb (fst x =? snd x)) (map (pair a) l) =
  map (pair a) (filter (fun b => negb (a =? b)) l).
Proof.
  induction l as [|b l IH]; simpl; [reflexivity|].
  destruct (a =? b); simpl; now rewrite IH.
Qed.

Lemma coherent_rows (N : nat) :
  coherent_2q_permutations N =
  flat_map (fun a => map (pair a) (filter (fun b => negb (a =? b)) (seq 0 N)))
           (seq 0 N).
Proof.
  unfold coherent_2q_permutations, product. rewrite filter_flat_map.
  apply flat_map_ext. intros a. apply filter_map_pair.
Qed.

Lemma length_row (N a : nat) :
  a < N ->
  length (map (pair a) (filter (fun b => negb (a =? b)) (seq 0 N))) = N - 1.
Proof.
  intros Ha. rewrite length_map, filter_row, length_app, !length_seq by exact Ha.
  lia.
Qed.

Lemma length_coherent (N : nat) :
  length (coherent_2q_permutations N) = N * (N - 1).
Proof.
  rewrite coherent_rows. apply length_flat_map_blocks.
  intros a Ha. apply length_row. lia.
Qed.

(** The ordered pairs of distinct qubits come in lexicographic order. *)
Lemma nth_error_coherent (N a b : nat) :
  a < N -> b < N -> a <> b ->
  nth_error (coherent_2q_permutations N)
            (a * (N - 1) + (if b <? a then b else b - 1)) = Some (a, b).
Proof.
  intros Ha Hb Hab.
  set (r := if b <? a then b else b - 1).
  assert (Hr : r < N - 1).
  { unfold r. destruct (Nat.ltb_spec b a); lia. }
  rewrite coherent_rows.
  rewrite (nth_error_nth' _ (0, 0)).
  2:{ rewrite (@length_flat_map_blocks _ _ (N - 1)); [nia|].
      intros j Hj. apply length_row. lia. }
  f_equal. rewrite nth_flat_map_blocks; try assumption.
  2:{ intros j Hj. apply length_row. lia. }
  simpl. rewrite (nth_indep _ (0, 0) (a, 0)) by (rewrite length_row; lia).
  rewrite (map_nth (pair a)). f_equal.
  rewrite filter_row by exact Ha. unfold r.
  destruct (Nat.ltb_spec b a).
  - rewrite app_nth1 by (rewrite length_seq; lia). now rewrite seq_nth.
  - rewrite app_nth2 by (rewrite length_seq; lia). rewrite length_seq.
    rewrite seq_nth by lia. lia.
Qed.

Lemma in_coherent (N a b : nat) :
  In (a, b) (coherent_2q_permutations N) <-> a < N /\ b < N /\ a <> b.
Proof.
  unfold coherent_2q_permutations, product.
  rewrite filter_In, in_flat_map. simpl. split.
  - intros [(x & Hx & Hin) Hne]. apply in_map_iff in Hin.
    destruct Hin as (y & Heq & Hy). injection Heq as -> ->.
    apply in_seq in Hx, Hy. apply negb_true_iff, Nat.eqb_neq in Hne. lia.
  - intros (Ha & Hb & Hne). split.
    + exists a. split; [apply in_seq; lia|].
      apply in_map_iff. exists b. split; [reflexivity|apply in_seq; lia].
    + apply negb_true_iff, Nat.eqb_neq. exact Hne.
Qed.

Lemma q2_actions_short (G2 : list gate) (N : nat) :
  N <= 1 -> q2_actions G2 N = [].
Proof.
  intros HN. unfold q2_actions.
  assert (H : coherent_2q_permutations N = []).
  { apply length_zero_iff_nil. rewrite length_coherent. nia. }
  rewrite H. unfold product. induction G2; simpl; auto.
Qed.

Lemma catalogue_unfold (G1 G2 : list gate) (N : nat) :
  make_full_action_list G1 G2 N =
  combine (seq 0 (length (q1_actions G1 N ++ q2_actions G2 N)))
          (q1_actions G1 N ++ q2_actions G2 N).
Proof.
  unfold make_full_action_list.
  destruct (Nat.ltb_spec 1 N) as [H|H]; [reflexivity|].
  now rewrite q2_actions_short, app_nil_r by exact H.
Qed.

Lemma length_q1_actions (G1 : list gate) (N : nat) :
  length (q1_actions G1 N) = length G1 * N.
Proof. unfold q1_actions. now rewrite length_map, length_product, length_seq. Qed.

Lemma length_q2_actions (G2 : list gate) (N : nat) :
  length (q2_actions G2 N) = length G2 * (N * (N - 1)).
Proof.
  unfold q2_actions. now rewrite length_map, length_product, length_coherent.
Qed.

Lemma length_catalogue (G1 G2 : list gate) (N : nat) :
  length (make_full_action_list G1 G2 N) =
  length G1 * N + length G2 * (N * (N - 1)).
Proof.
  rewrite catalogue_unfold. unfold action.
  rewrite length_combine, length_seq, Nat.min_id.
  now rewrite length_app, length_q1_actions, length_q2_actions.
Qed.

Lemma nth_error_q1_actions (G1 : list gate) (N i k : nat) g :
  nth_error G1 i = Some g -> k < N ->
  nth_error (q1_actions G1 N) (i * N + k) = Some (g, Qb k).
Proof.
  intros Hg Hk. unfold q1_actions. rewrite nth_error_map.
  replace (i * N + k) with (i * length (seq 0 N) + k)
    by now rewrite length_seq.
  rewrite (@nth_error_product _ _ G1 (seq 0 N) i k g k Hg); [reflexivity|].
  rewrite nth_error_nth' with (d := 0) by (rewrite length_seq; exact Hk).
  now rewrite seq_nth.
Qed.

Lemma nth_error_q2_actions (G2 : list gate) (N i a b : nat) g :
  nth_error G2 i = Some g -> a < N -> b < N -> a <> b ->
  nth_error (q2_actions G2 N)
            (i * (N * (N - 1)) + (a * (N - 1) + (if b <? a then b else b - 1)))
  = Some (g, QbPair a b).
Proof.
  intros Hg Ha Hb Hab. unfold q2_actions. rewrite nth_error_map.
  rewrite <- (length_coherent N).
  rewrite (@nth_error_product _ _ G2 _ i _ g (a, b) Hg); [reflexivity|].
  now apply nth_error_coherent.
Qed.

(** C6: the catalogue built by [make_full_action_list] has
    [|G1|*N + |G2|*N*(N-1)] entries; the entry at position [i] carries the
    index [i]; the single-qubit actions come first, gate-major and
    qubit-minor; the two-qubit actions follow, gate-major over the ordered
    pairs of distinct qubits in lexicographic order, so that both [(a,b)] and
    [(b,a)] occur. *)
Theorem catalogue_layout (G1 G2 : list gate) (N : nat) :
  let cat := make_full_action_list G1 G2 N in
  let P := N * (N - 1) in
  length cat = length G1 * N + length G2 * P /\
  (forall i act, nth_error cat i = Some act -> fst act = i) /\
  (forall i k g, nth_error G1 i = Some g -> k < N ->
     nth_error cat (i * N + k) = Some (i * N + k, (g, Qb k))) /\
  (forall i a b g, nth_error G2 i = Some g -> a < N -> b < N -> a <> b ->
     let pos := length G1 * N + i * P
                + (a * (N - 1) + (if b <? a then b else b - 1)) in
     nth_error cat pos = Some (pos, (g, QbPair a b))).
Proof.
  intros cat P. split; [apply length_catalogue|]. split; [|split].
  - intros i act Hact. unfold cat in Hact. rewrite catalogue_unfold in Hact.
    unfold action in *.
    set (l := q1_actions G1 N ++ q2_actions G2 N) in *.
    assert (Hi : i < length l).
    { assert (H : nth_error (combine (seq 0 (length l)) l) i <> None)
        by (rewrite Hact; discriminate).
      apply nth_error_Some in H. rewrite length_combine, length_seq in H. lia. }
    destruct (nth_error l i) as [x|] eqn:Hx.
    + rewrite (nth_error_combine_seq l i x Hx) in Hact. now injection Hact as <-.
    + apply nth_error_None in Hx. lia.
  - intros i k g Hg Hk. unfold cat. rewrite catalogue_unfold.
    unfold action. apply nth_error_combine_seq.
    assert (Hi : i < length G1) by (apply nth_error_Some; congruence).
    rewrite nth_error_app1 by (rewrite length_q1_actions; nia).
    now apply nth_error_q1_actions.
  - intros i a b g Hg Ha Hb Hab pos. unfold cat. rewrite catalogue_unfold.
    unfold action. apply nth_error_combine_seq. unfold pos.
    rewrite nth_error_app2 by (rewrite length_q1_actions; lia).
    rewrite length_q1_actions.
    assert (E : forall x y z, x + y + z - x = y + z) by (intros; lia).
    rewrite E. now apply nth_error_q2_actions.
Qed.

Lemma catalogue_layout_witness :
  let cat := make_full_action_list [op_I; op_X] [probe_gate] 2 in
  length cat = 2 * 2 + 1 * (2 * (2 - 1)) /\
  nth_error cat (1 * 2 + 1) = Some (1 * 2 + 1, (op_X, Qb 1)) /\
  nth_error cat (2 * 2 + 0 * (2 * (2 - 1)) + (1 * (2 - 1) + 0))
  = Some (2 * 2 + 0 * (2 * (2 - 1)) + (1 * (2 - 1) + 0), (probe_gate, QbPair 1 0)).
Proof.
  destruct (catalogue_layout [op_I; op_X] [probe_gate] 2)
    as (Hlen & Hidx & H1 & H2).
  split; [exact Hlen|]. split.
  - apply (H1 1 1 op_X); [reflexivity|lia].
  - apply (H2 0 1 0 probe_gate); [reflexivity|lia|lia|lia].
Defined.

(** The catalogue of the one-qubit scenario and the first entries of a
    two-qubit catalogue. *)
Example catalogue_scenario :
  make_full_action_list [op_I; op_X] [] 1 = [(0, (op_I, Qb 0)); (1, (op_X, Qb 0))].
Proof. reflexivity. Qed.

Example catalogue_two_qubits (g h : gate) :
  map (fun a => (fst a, snd (snd a))) (make_full_action_list [g] [h] 2) =
  [(0, Qb 0); (1, Qb 1); (2, QbPair 0 1); (3, QbPair 1 0)].
Proof. reflexivity. Qed.

End Catalogue.

(* ================================================================= *)
(** ** Frame of the methods *)

Section Frame.

Lemma frame_refl s : frame s s.
Proof. repeat split. Qed.

Lemma frame_trans s1 s2 s3 : frame s1 s2 -> frame s2 s3 -> frame s1 s3.
Proof. unfold frame. intuition congruence. Qed.

Lemma after_bind {A B} (m : method A) (k : A -> method B) self :
  after (bind m k) self =
  match result m self with
  | Return a => after (k a) (after m self)
  | Raise _ => after m self
  end.
Proof.
  unfold after, result, bind.
  destruct (m self) as [[[a|e] s'] out]; simpl; [|reflexivity].
  now destruct (k a s') as [[r s''] out'].
Qed.

Lemma result_bind {A B} (m : method A) (k : A -> method B) self :
  result (bind m k) self =
  match result m self with
  | Return a => result (k a) (after m self)
  | Raise e => Raise e
  end.
Proof.
  unfold after, result, bind.
  destruct (m self) as [[[a|e] s'] out]; simpl; [|reflexivity].
  now destruct (k a s') as [[r s''] out'].
Qed.

Lemma framed_bind {A B} (m : method A) (k : A -> method B) :
  framed m -> (forall a, framed (k a)) -> framed (bind m k).
Proof.
  intros Hm Hk self. rewrite after_bind.
  destruct (result m self); [|apply Hm].
  eapply frame_trans; [apply Hm|apply Hk].
Qed.

Lemma framed_ret {A} (a : A) : framed (ret a).
Proof. intros self. apply frame_refl. Qed.

Lemma framed_raise {A} (e : exn) : framed (@raise A e).
Proof. intros self. apply frame_refl. Qed.

Lemma framed_lift {A} (o : outcome A) : framed (lift o).
Proof. intros self. apply frame_refl. Qed.

Lemma framed_read {A} (f : GateSynthesis -> A) : framed (read f).
Proof. intros self. apply frame_refl. Qed.

Lemma framed_call {A} (f : GateSynthesis -> outcome A) : framed (call f).
Proof. intros self. apply frame_refl. Qed.

Lemma framed_print (line : string) : framed (print line).
Proof. intros self. apply frame_refl. Qed.

Lemma framed_set_curr (op : ndarray complex) :
  framed (assign (set_curr_unitary_op op)).
Proof. intros self. repeat split. Qed.

Create HintDb framed.
#[local] Hint Resolve framed_ret framed_raise framed_lift framed_read
  framed_call framed_print framed_set_curr : framed.

Ltac framed_step :=
  match goal with
  | |- framed (bind _ _) => apply framed_bind; [|intros]
  | |- framed (if ?b then _ else _) => destruct b
  | |- framed (match ?q with Qb _ => _ | QbPair _ _ => _ end) => destruct q
  | |- framed (let '(_, _) := ?p in _) => destruct p
  | |- framed _ => solve [auto with framed]
  end.

Lemma framed_apply_1q_gate g k : framed (apply_1q_gate g k).
Proof. unfold apply_1q_gate. repeat framed_step. Qed.

Lemma framed_apply_2q_gate g a b : framed (apply_2q_gate g a b).
Proof. unfold apply_2q_gate. repeat framed_step. Qed.

Lemma framed_dispatch g q : framed (dispatch g q).
Proof.
  unfold dispatch.
  repeat framed_step; auto using framed_apply_1q_gate, framed_apply_2q_gate.
Qed.

Lemma framed_conclude : framed conclude.
Proof. unfold conclude. repeat framed_step. Qed.

Lemma framed_step_method a : framed (step a).
Proof.
  unfold step. repeat framed_step; auto using framed_dispatch, framed_conclude.
Qed.

(** What [reset] leaves behind. *)
Lemma after_reset self :
  after reset self =
  set_distance_history [] (set_nb_steps 0 (set_curr_unitary_op (init_unitary_op self) self)).
Proof. reflexivity. Qed.

Lemma result_reset self :
  result reset self = get_observation (after reset self).
Proof. reflexivity. Qed.

End Frame.

(* ================================================================= *)
(** ** Episodes: what a sequence of calls can change *)

Section Episodes.

Lemma frame_serve_step (a : Z) (self : GateSynthesis) :
  frame self (serve (Step a) self).
Proof. apply framed_step_method. Qed.

Lemma frame_serve_steps (acts : list Z) (self : GateSynthesis) :
  frame self (serve_all (map Step acts) self).
Proof.
  revert self; induction acts as [|a acts IH]; intros self; simpl.
  - apply frame_refl.
  - eapply frame_trans; [apply frame_serve_step|apply IH].
Qed.

Lemma distance_history_serve (r : request) (self : GateSynthesis) :
  distance_history self = [] -> distance_history (serve r self) = [].
Proof.
  intros H. destruct r as [|a]; simpl.
  - reflexivity.
  - destruct (framed_step_method a self) as (_&_&_&_&_&_&_&_&_&_&Hd&_).
    congruence.
Qed.

(** C10: from construction on, whatever [reset] and [step] calls are made,
    [distance_history] is the empty list. *)
Theorem distance_history_always_empty
  (q1 q2 : list gate) (rwd max_steps : Z) (init_uop target_uop : ndarray complex)
  (tol : R) (calls : list request) :
  distance_history
    (serve_all calls (GateSynthesis_init q1 q2 rwd max_steps init_uop target_uop tol))
  = [].
Proof.
  unfold serve_all.
  assert (H : distance_history
                (GateSynthesis_init q1 q2 rwd max_steps init_uop target_uop tol) = [])
    by reflexivity.
  revert H. generalize (GateSynthesis_init q1 q2 rwd max_steps init_uop target_uop tol).
  induction calls as [|r calls IH]; intros self H; simpl; [exact H|].
  apply IH. now apply distance_history_serve.
Qed.

End Episodes.

(* ================================================================= *)
(** ** [np.transpose] *)

Section Transpose.

Lemma nodupb_NoDup (l : list nat) : nodupb l = true <-> NoDup l.
Proof.
  induction l as [|x l IH]; simpl.
  - split; [constructor|reflexivity].
  - rewrite andb_true_iff, negb_true_iff, IH. split.
    + intros [Hx Hl]. constructor; [|exact Hl]. intros Hin.
      assert (E : existsb (Nat.eqb x) l = true)
        by (apply existsb_exists; exists x; split; [exact Hin|apply Nat.eqb_refl]).
      congruence.
    + intros H; inversion H as [|? ? Hx Hl]; subst. split; [|exact Hl].
      destruct (existsb (Nat.eqb x) l) eqn:E; [|reflexivity].
      apply existsb_exists in E. destruct E as (y & Hy & Hxy).
      apply Nat.eqb_eq in Hxy. subst y. contradiction.
Qed.

Lemma transpose_valid {A} `{Dflt A} (a : ndarray A) (axes : list nat) :
  valid_axes (ndim a) axes ->
  transpose a axes =
  Return (tabulate (map (fun k => nth k (shape a) 0) axes)
                   (fun idx => get a (transpose_index (ndim a) axes idx))).
Proof.
  intros (Hl & Hr & Hn). unfold transpose.
  rewrite (proj2 (Nat.eqb_eq _ _) Hl). simpl.
  assert (E : forallb (fun k => k <? ndim a) axes = true).
  { apply forallb_forall. intros k Hk. apply Nat.ltb_lt. now apply Hr. }
  rewrite E. simpl. rewrite (proj2 (nodupb_NoDup axes) Hn). reflexivity.
Qed.

Lemma transpose_inv {A} `{Dflt A} (a : ndarray A) (axes : list nat) t :
  transpose a axes = Return t ->
  valid_axes (ndim a) axes /\
  t = tabulate (map (fun k => nth k (shape a) 0) axes)
               (fun idx => get a (transpose_index (ndim a) axes idx)).
Proof.
  unfold transpose.
  destruct (Nat.eqb_spec (length axes) (ndim a)) as [Hl|]; [|discriminate].
  destruct (forallb (fun k => k <? ndim a) axes) eqn:Hr; [|discriminate].
  destruct (nodupb axes) eqn:Hn; [|discriminate]. simpl.
  intros E; injection E as <-. split; [|reflexivity].
  split; [exact Hl|]. split.
  - intros k Hk. rewrite forallb_forall in Hr. apply Nat.ltb_lt. now apply Hr.
  - now apply nodupb_NoDup.
Qed.

Lemma index_of_In (m : nat) (l : list nat) :
  In m l -> index_of m l < length l /\ nth (index_of m l) l 0 = m.
Proof.
  induction l as [|x l IH]; simpl; [tauto|].
  intros Hin. destruct (Nat.eqb_spec x m) as [->|Hne].
  - split; [lia|reflexivity].
  - destruct Hin as [E|Hin]; [congruence|].
    destruct (IH Hin) as [Hlt Hnth]. split; [lia|exact Hnth].
Qed.

Lemma index_of_nth (l : list nat) (k : nat) :
  NoDup l -> k < length l -> index_of (nth k l 0) l = k.
Proof.
  intros Hn Hk.
  destruct (index_of_In (nth k l 0) l (nth_In l 0 Hk)) as [Hlt Hnth].
  now apply (proj1 (NoDup_nth l 0) Hn).
Qed.

Lemma valid_axes_In (nd : nat) (axes : list nat) (m : nat) :
  valid_axes nd axes -> m < nd -> In m axes.
Proof.
  intros (Hl & Hr & Hn) Hm.
  apply (@NoDup_length_incl _ axes (seq 0 nd) Hn).
  - rewrite length_seq. lia.
  - intros k Hk. apply in_seq. specialize (Hr k Hk). lia.
  - apply in_seq. lia.
Qed.

(** A list with a left inverse on positions is a permutation. *)
Lemma valid_axes_by_inverse (nd : nat) (axes : list nat) (inv : nat -> nat) :
  length axes = nd ->
  (forall k, k < nd -> nth k axes 0 < nd /\ inv (nth k axes 0) = k) ->
  valid_axes nd axes.
Proof.
  intros Hl Hinv. split; [exact Hl|]. split.
  - intros k Hk. destruct (In_nth axes k 0 Hk) as (i & Hi & <-).
    apply Hinv. lia.
  - apply (NoDup_nth axes 0). intros i j Hi Hj E.
    rewrite <- (proj2 (Hinv i ltac:(lia))), <- (proj2 (Hinv j ltac:(lia))).
    now rewrite E.
Qed.

Lemma index_of_by_inverse (nd : nat) (axes : list nat) (inv : nat -> nat) :
  length axes = nd ->
  (forall k, k < nd -> nth k axes 0 < nd /\ inv (nth k axes 0) = k) ->
  forall m, m < nd -> index_of m axes = inv m /\ inv m < nd.
Proof.
  intros Hl Hinv m Hm.
  pose proof (valid_axes_by_inverse nd axes inv Hl Hinv) as V.
  destruct (index_of_In m axes (valid_axes_In nd axes m V Hm)) as [Hlt Hnth].
  rewrite Hl in Hlt. destruct (Hinv _ Hlt) as [_ E]. rewrite Hnth in E.
  split; [congruence|]. now rewrite E.
Qed.

Lemma length_transpose_index (nd : nat) (axes idx : list nat) :
  length (transpose_index nd axes idx) = nd.
Proof. unfold transpose_index. now rewrite length_map, length_seq. Qed.

Lemma nth_transpose_index (nd : nat) (axes idx : list nat) (m : nat) :
  m < nd ->
  nth m (transpose_index nd axes idx) 0 = nth (index_of m axes) idx 0.
Proof.
  intros Hm. unfold transpose_index.
  rewrite (nth_indep _ 0 ((fun m => nth (index_of m axes) idx 0) 0))
    by (rewrite length_map, length_seq; exact Hm).
  rewrite (map_nth (fun m => nth (index_of m axes) idx 0)).
  now rewrite seq_nth.
Qed.

Lemma in_shape_transpose_index (sh axes idx : list nat) :
  valid_axes (length sh) axes ->
  in_shape idx (map (fun k => nth k sh 0) axes) ->
  in_shape (transpose_index (length sh) axes idx) sh.
Proof.
  intros V Hin. apply in_shape_intro; [apply length_transpose_index|].
  intros m Hm. rewrite nth_transpose_index by exact Hm.
  destruct (index_of_In m axes (valid_axes_In _ axes m V Hm)) as [Hlt Hnth].
  pose proof (@in_shape_nth _ _ (index_of m axes) Hin) as Hb.
  rewrite length_map in Hb. specialize (Hb Hlt).
  rewrite (nth_indep (map (fun k => nth k sh 0) axes) 0
             ((fun k => nth k sh 0) 0)) in Hb
    by (rewrite length_map; exact Hlt).
  rewrite (map_nth (fun k => nth k sh 0)), Hnth in Hb. exact Hb.
Qed.

(** Reading a transposed array. *)
Lemma get_transpose {A} `{Dflt A} (a : ndarray A) (axes : list nat) t idx :
  transpose a axes = Return t ->
  in_shape idx (shape t) ->
  get t idx = get a (transpose_index (ndim a) axes idx).
Proof.
  intros E Hin. apply transpose_inv in E. destruct E as [_ ->].
  now rewrite get_tabulate.
Qed.

End Transpose.

(* ================================================================= *)
(** ** [np.tensordot] *)

Section Tensordot.

Lemma in_shape_app (i1 i2 s1 s2 : list nat) :
  in_shape i1 s1 -> in_shape i2 s2 -> in_shape (i1 ++ i2) (s1 ++ s2).
Proof. apply Forall2_app. Qed.

Lemma in_shape_firstn (idx s1 s2 : list nat) :
  in_shape idx (s1 ++ s2) -> in_shape (firstn (length s1) idx) s1.
Proof.
  revert idx; induction s1 as [|d s1 IH]; intros idx H; simpl in *.
  - constructor.
  - inversion H; subst. simpl. constructor; [assumption|now apply IH].
Qed.

Lemma in_shape_skipn (idx s1 s2 : list nat) :
  in_shape idx (s1 ++ s2) -> in_shape (skipn (length s1) idx) s2.
Proof.
  revert idx; induction s1 as [|d s1 IH]; intros idx H; simpl in *.
  - exact H.
  - inversion H; subst. simpl. now apply IH.
Qed.

Lemma axes_agree_true (as_ bs axes_a axes_b : list nat) :
  length axes_a = length axes_b ->
  axes_agree as_ bs axes_a axes_b = Return true ->
  map (fun k => nth k as_ 0) axes_a = map (fun k => nth k bs 0) axes_b.
Proof.
  revert axes_b; induction axes_a as [|ka ra IH]; intros [|kb rb] Hl H;
    simpl in *; try discriminate; [reflexivity|].
  destruct (nth_error as_ ka) as [da|] eqn:Ea; [|discriminate].
  destruct (nth_error bs kb) as [db|] eqn:Eb; [|discriminate].
  destruct (Nat.eqb_spec da db) as [->|]; [|discriminate].
  rewrite (nth_error_nth _ _ 0 Ea), (nth_error_nth _ _ 0 Eb).
  f_equal. apply IH; [lia|exact H].
Qed.

Lemma tensordot_inv (a b : ndarray complex) (axes_a axes_b : list nat) t :
  tensordot a b axes_a axes_b = Return t ->
  length axes_a = length axes_b /\
  sum_dims (shape a) axes_a = sum_dims (shape b) axes_b /\
  valid_axes (ndim a) (notin (ndim a) axes_a ++ axes_a) /\
  valid_axes (ndim b) (axes_b ++ notin (ndim b) axes_b) /\
  shape t = free_dims (shape a) axes_a ++ free_dims (shape b) axes_b /\
  forall idx, in_shape idx (shape t) ->
              get t idx = contraction a b axes_a axes_b idx.
Proof.
  unfold tensordot, obind.
  destruct (Nat.eqb_spec (length axes_a) (length axes_b)) as [Hl|];
    [|discriminate].
  destruct (axes_agree (shape a) (shape b) axes_a axes_b) as [[|]|] eqn:Hag;
    simpl; try discriminate.
  destruct (transpose a _) as [at_|] eqn:Ea; [|discriminate].
  destruct (transpose b _) as [bt|] eqn:Eb; [|discriminate].
  intros E; injection E as <-.
  pose proof (axes_agree_true _ _ _ _ Hl Hag) as Hsum.
  destruct (transpose_inv _ _ _ Ea) as [Va Ha].
  destruct (transpose_inv _ _ _ Eb) as [Vb Hb].
  repeat split; try assumption; try apply Va; try apply Vb.
  intros idx Hin. simpl in Hin. rewrite get_tabulate by exact Hin.
  unfold contraction. f_equal. rewrite !length_map.
  apply map_ext_in. intros js Hjs. apply in_indices in Hjs.
  f_equal.
  - apply (get_transpose _ _ _ _ Ea). rewrite Ha. simpl. rewrite map_app.
    apply in_shape_app; [|exact Hjs].
    rewrite <- (length_map (fun k => nth k (shape a) 0)).
    eapply in_shape_firstn. exact Hin.
  - apply (get_transpose _ _ _ _ Eb). rewrite Hb. simpl. rewrite map_app.
    apply in_shape_app.
    + unfold sum_dims in Hjs. rewrite Hsum in Hjs. exact Hjs.
    + rewrite <- (length_map (fun k => nth k (shape a) 0)).
      eapply in_shape_skipn. exact Hin.
Qed.

Lemma tensordot_returns (a b : ndarray complex) (axes_a axes_b : list nat) :
  length axes_a = length axes_b ->
  axes_agree (shape a) (shape b) axes_a axes_b = Return true ->
  valid_axes (ndim a) (notin (ndim a) axes_a ++ axes_a) ->
  valid_axes (ndim b) (axes_b ++ notin (ndim b) axes_b) ->
  exists t, tensordot a b axes_a axes_b = Return t.
Proof.
  intros Hl Hag Va Vb. unfold tensordot, obind.
  rewrite (proj2 (Nat.eqb_eq _ _) Hl), Hag. simpl.
  rewrite (transpose_valid _ _ Va), (transpose_valid _ _ Vb).
  eexists. reflexivity.
Qed.

End Tensordot.

(* ================================================================= *)
(** ** List surgery on axis orders *)

Section AxisLists.

Lemma length_list_insert {A} (i : nat) (x : A) (l : list A) :
  length (list_insert i x l) = S (length l).
Proof.
  unfold list_insert. rewrite length_app. simpl.
  rewrite length_firstn, length_skipn. lia.
Qed.

Lemma nth_list_insert {A} (i k : nat) (x d : A) (l : list A) :
  i <= length l ->
  nth k (list_insert i x l) d =
  if k <? i then nth k l d else if k =? i then x else nth (k - 1) l d.
Proof.
  intros Hi. unfold list_insert.
  destruct (Nat.ltb_spec k i) as [Hk|Hk].
  - rewrite app_nth1 by (rewrite length_firstn; lia).
    rewrite nth_firstn. now rewrite (proj2 (Nat.ltb_lt k i) Hk).
  - rewrite app_nth2 by (rewrite length_firstn; lia).
    rewrite length_firstn, Nat.min_l by exact Hi.
    destruct (Nat.eqb_spec k i) as [->|Hne].
    + now rewrite Nat.sub_diag.
    + replace (k - i) with (S (k - i - 1)) by lia. simpl.
      rewrite nth_skipn. f_equal. lia.
Qed.

Lemma length_drop_last {A} (n : nat) (l : list A) :
  length (drop_last n l) = length l - n.
Proof. unfold drop_last. rewrite length_firstn. lia. Qed.

Lemma nth_drop_last {A} (n k : nat) (d : A) (l : list A) :
  k < length l - n -> nth k (drop_last n l) d = nth k l d.
Proof.
  intros Hk. unfold drop_last. rewrite nth_firstn.
  now rewrite (proj2 (Nat.ltb_lt _ _) Hk).
Qed.

Lemma length_put (p v : nat) (idx : list nat) :
  p < length idx -> length (put p v idx) = length idx.
Proof.
  intros Hp. unfold put. rewrite length_app, length_firstn.
  change (length (v :: skipn (S p) idx)) with (S (length (skipn (S p) idx))).
  rewrite length_skipn. lia.
Qed.

Lemma nth_put (p v m : nat) (idx : list nat) :
  p < length idx ->
  nth m (put p v idx) 0 = if m =? p then v else nth m idx 0.
Proof.
  intros Hp. unfold put.
  destruct (Nat.eqb_spec m p) as [->|Hne].
  - rewrite app_nth2 by (rewrite length_firstn; lia).
    rewrite length_firstn, Nat.min_l by lia. now rewrite Nat.sub_diag.
  - destruct (Nat.lt_ge_cases m p) as [Hlt|Hge].
    + rewrite app_nth1 by (rewrite length_firstn; lia).
      rewrite nth_firstn. now rewrite (proj2 (Nat.ltb_lt _ _) Hlt).
    + rewrite app_nth2 by (rewrite length_firstn; lia).
      rewrite length_firstn, Nat.min_l by lia.
      replace (m - p) with (S (m - p - 1)) by lia.
      change (nth (S (m - p - 1)) (v :: skipn (S p) idx) 0)
        with (nth (m - p - 1) (skipn (S p) idx) 0).
      rewrite nth_skipn. f_equal. lia.
Qed.

Lemma in_shape_put (p v : nat) (idx sh : list nat) :
  in_shape idx sh -> v < nth p sh 0 -> in_shape (put p v idx) sh.
Proof.
  intros Hin Hv.
  pose proof (in_shape_length _ _ Hin) as Hl.
  destruct (Nat.lt_ge_cases p (length sh)) as [Hp|Hp].
  - apply in_shape_intro; [rewrite length_put; lia|].
    intros k Hk. rewrite nth_put by lia.
    destruct (Nat.eqb_spec k p) as [->|]; [exact Hv|].
    now apply in_shape_nth.
  - rewrite nth_overflow in Hv by exact Hp. lia.
Qed.

(** The free axes of a contraction over one axis. *)
Lemma notin_one (d p : nat) :
  p < d -> notin d [p] = seq 0 p ++ seq (S p) (d - 1 - p).
Proof.
  intros Hp. unfold notin.
  replace d with (p + (1 + (d - 1 - p))) at 1 by lia.
  rewrite seq_app, filter_app, seq_app, filter_app. simpl.
  rewrite Nat.eqb_refl. simpl. replace (p + 1) with (S p) by lia. f_equal.
  - apply forallb_filter_id. apply forallb_forall. intros b Hb.
    apply in_seq in Hb. destruct (Nat.eqb_spec b p); [lia|reflexivity].
  - apply forallb_filter_id. apply forallb_forall. intros b Hb.
    apply in_seq in Hb. destruct (Nat.eqb_spec b p); [lia|reflexivity].
Qed.

(** The free axes of a contraction over two axes [x < y]. *)
Lemma notin_two (d x y : nat) (axes : list nat) :
  x < y -> y < d -> (axes = [x; y] \/ axes = [y; x]) ->
  notin d axes = seq 0 x ++ seq (S x) (y - x - 1) ++ seq (S y) (d - 1 - y).
Proof.
  intros Hx Hy Hax. unfold notin.
  replace d with (x + (1 + ((y - x - 1) + (1 + (d - 1 - y))))) at 1 by lia.
  rewrite seq_app, filter_app, seq_app, filter_app, seq_app, filter_app,
    seq_app, filter_app.
  replace (0 + x + 1) with (S x) by lia.
  replace (S x + (y - x - 1)) with y by lia.
  replace (y + 1) with (S y) by lia.
  assert (Hkeep : forall s n, (forall b, s <= b < s + n -> b <> x /\ b <> y) ->
            filter (fun k => negb (existsb (Nat.eqb k) axes)) (seq s n) = seq s n).
  { intros s n Hb. apply forallb_filter_id. apply forallb_forall.
    intros b Hin. apply in_seq in Hin. destruct (Hb b Hin) as [H1 H2].
    destruct Hax as [-> | ->]; simpl;
      destruct (Nat.eqb_spec b x); destruct (Nat.eqb_spec b y);
      try reflexivity; lia. }
  assert (Hdrop : forall b, b = x \/ b = y ->
            filter (fun k => negb (existsb (Nat.eqb k) axes)) (seq b 1) = []).
  { intros b Hb. simpl.
    destruct Hax as [-> | ->]; simpl;
      destruct (Nat.eqb_spec b x); destruct (Nat.eqb_spec b y);
      try reflexivity; lia. }
  rewrite (Hkeep 0 x), (Hdrop (0 + x)), (Hkeep (S x)), (Hdrop y), (Hkeep (S y));
    try lia; try (intros; lia).
  reflexivity.
Qed.

Lemma nth_seq_gap (x n t : nat) :
  t < x + n ->
  nth t (seq 0 x ++ seq (S x) n) 0 = if t <? x then t else S t.
Proof.
  intros Ht. destruct (Nat.ltb_spec t x) as [H|H].
  - rewrite app_nth1 by (rewrite length_seq; lia). now rewrite seq_nth.
  - rewrite app_nth2 by (rewrite length_seq; lia).
    rewrite length_seq, seq_nth by lia. lia.
Qed.

Lemma nth_seq_gaps (x y n t : nat) :
  x < y -> t < y - 1 + n ->
  nth t (seq 0 x ++ seq (S x) (y - x - 1) ++ seq (S y) n) 0 =
  if t <? x then t else if t <? y - 1 then S t else S (S t).
Proof.
  intros Hxy Ht. destruct (Nat.ltb_spec t x) as [H|H].
  - rewrite app_nth1 by (rewrite length_seq; lia). now rewrite seq_nth.
  - rewrite app_nth2 by (rewrite length_seq; lia). rewrite length_seq.
    destruct (Nat.ltb_spec t (y - 1)) as [H'|H'].
    + rewrite app_nth1 by (rewrite length_seq; lia). rewrite seq_nth by lia. lia.
    + rewrite app_nth2 by (rewrite length_seq; lia). rewrite length_seq.
      rewrite seq_nth by lia. lia.
Qed.

Lemma indices_one (n : nat) : indices [n] = map (fun j => [j]) (seq 0 n).
Proof.
  simpl. induction (seq 0 n) as [|j l IH]; simpl; [reflexivity|].
  now rewrite IH.
Qed.

End AxisLists.

(* ================================================================= *)
(** ** Running methods *)

Section MethodLaws.

Context {A B : Type}.

Lemma bind_read (f : GateSynthesis -> A) (k : A -> method B) self :
  bind (read f) k self = k (f self) self.
Proof. unfold bind, read. now destruct (k (f self) self) as [[r s] out]. Qed.

Lemma bind_lift_Return (a : A) (k : A -> method B) self :
  bind (lift (Return a)) k self = k a self.
Proof. unfold bind, lift. now destruct (k a self) as [[r s] out]. Qed.

Lemma bind_lift_Raise (e : exn) (k : A -> method B) self :
  bind (lift (Raise e)) k self = (Raise e, self, []).
Proof. reflexivity. Qed.

Lemma bind_call (f : GateSynthesis -> outcome A) (k : A -> method B) self :
  bind (call f) k self =
  match f self with
  | Return a => k a self
  | Raise e => (Raise e, self, [])
  end.
Proof.
  unfold bind, call. destruct (f self) as [a|e]; [|reflexivity].
  now destruct (k a self) as [[r s] out].
Qed.

Lemma bind_raise (e : exn) (k : A -> method B) self :
  bind (raise e) k self = (Raise e, self, []).
Proof. reflexivity. Qed.

Lemma bind_ret (a : A) (k : A -> method B) self :
  bind (ret a) k self = k a self.
Proof. unfold bind, ret. now destruct (k a self) as [[r s] out]. Qed.

End MethodLaws.

Lemma bind_assign {B} (f : GateSynthesis -> GateSynthesis)
  (k : unit -> method B) self :
  bind (assign f) k self = k tt (f self).
Proof. unfold bind, assign. now destruct (k tt (f self)) as [[r s] out]. Qed.

Lemma bind_print {B} (line : string) (k : unit -> method B) self :
  bind (print line) k self =
  (fst (fst (k tt self)), snd (fst (k tt self)), line :: snd (k tt self)).
Proof. unfold bind, print. now destruct (k tt self) as [[r s] out]. Qed.

(* ================================================================= *)
(** ** The single-qubit applier *)

Section SingleQubit.

Variables (d p : nat).
Hypothesis Hp : p < d.

(** Axis order used inside [tensordot]: the free axes, then axis [p]. *)
Lemma nth_contract1 (k : nat) :
  k < d ->
  nth k (notin d [p] ++ [p]) 0 =
  if k <? d - 1 then (if k <? p then k else S k) else p.
Proof.
  intros Hk. rewrite notin_one by exact Hp.
  destruct (Nat.ltb_spec k (d - 1)) as [H|H].
  - rewrite app_nth1 by (rewrite length_app, !length_seq; lia).
    apply nth_seq_gap. lia.
  - rewrite app_nth2 by (rewrite length_app, !length_seq; lia).
    rewrite length_app, !length_seq.
    replace (k - (p + (d - 1 - p))) with 0 by lia. reflexivity.
Qed.

Lemma length_contract1 : length (notin d [p] ++ [p]) = d.
Proof.
  rewrite notin_one by exact Hp. rewrite !length_app, !length_seq. simpl. lia.
Qed.

Lemma contract1_inverse (k : nat) :
  k < d ->
  nth k (notin d [p] ++ [p]) 0 < d /\
  (inv_contract1 d p) (nth k (notin d [p] ++ [p]) 0) = k.
Proof.
  intros Hk. rewrite nth_contract1 by exact Hk. unfold inv_contract1.
  destruct (Nat.ltb_spec k (d - 1)); destruct (Nat.ltb_spec k p);
    repeat match goal with
           | |- context [?a <? ?b] => destruct (Nat.ltb_spec a b)
           | |- context [?a =? ?b] => destruct (Nat.eqb_spec a b)
           end; lia.
Qed.

Lemma valid_contract1 : valid_axes d (notin d [p] ++ [p]).
Proof.
  exact (valid_axes_by_inverse d _ (inv_contract1 d p) length_contract1
           contract1_inverse).
Qed.

Lemma length_reinsert1 : length (reinsert1 d p) = d.
Proof.
  unfold reinsert1. rewrite length_drop_last, length_list_insert, length_seq.
  lia.
Qed.

Lemma nth_reinsert1 (k : nat) :
  k < d ->
  nth k (reinsert1 d p) 0 = if k <? p then k else if k =? p then d - 1 else k - 1.
Proof.
  intros Hk. unfold reinsert1.
  rewrite nth_drop_last by (rewrite length_list_insert, length_seq; lia).
  rewrite nth_list_insert by (rewrite length_seq; lia).
  destruct (Nat.ltb_spec k p); [now rewrite seq_nth by lia|].
  destruct (Nat.eqb_spec k p); [reflexivity|]. now rewrite seq_nth by lia.
Qed.

Lemma reinsert1_inverse (k : nat) :
  k < d ->
  nth k (reinsert1 d p) 0 < d /\ (inv_reinsert1 d p) (nth k (reinsert1 d p) 0) = k.
Proof.
  intros Hk. rewrite nth_reinsert1 by exact Hk. unfold inv_reinsert1.
  destruct (Nat.ltb_spec k p); destruct (Nat.eqb_spec k p);
    repeat match goal with
           | |- context [?a <? ?b] => destruct (Nat.ltb_spec a b)
           | |- context [?a =? ?b] => destruct (Nat.eqb_spec a b)
           end; lia.
Qed.

Lemma valid_reinsert1 : valid_axes d (reinsert1 d p).
Proof.
  exact (valid_axes_by_inverse d _ (inv_reinsert1 d p) length_reinsert1
           reinsert1_inverse).
Qed.

(** The source index, through both reorderings, is [idx] with [j] at [p]. *)
Lemma source_index1 (idx : list nat) (j : nat) :
  length idx = d ->
  transpose_index d (notin d [p] ++ [p])
    (firstn (d - 1) (transpose_index d (reinsert1 d p) idx) ++ [j])
  = put p j idx.
Proof.
  intros Hl. apply (nth_ext _ _ 0 0).
  - rewrite length_transpose_index, length_put; lia.
  - rewrite length_transpose_index. intros m Hm.
    rewrite nth_transpose_index by exact Hm.
    destruct (index_of_by_inverse d _ (inv_contract1 d p) length_contract1
                contract1_inverse m Hm) as [-> Hlt].
    rewrite nth_put by lia. unfold inv_contract1 in *.
    destruct (Nat.eqb_spec m p) as [->|Hne].
    + rewrite Nat.ltb_irrefl.
      rewrite app_nth2
        by (rewrite length_firstn, length_transpose_index; lia).
      rewrite length_firstn, length_transpose_index.
      replace (d - 1 - Nat.min (d - 1) d) with 0 by lia. reflexivity.
    + assert (Hb : (if m <? p then m else m - 1) < d - 1)
        by (destruct (Nat.ltb_spec m p); lia).
      rewrite app_nth1
        by (rewrite length_firstn, length_transpose_index; lia).
      rewrite nth_firstn, (proj2 (Nat.ltb_lt _ _) Hb).
      rewrite nth_transpose_index by lia.
      destruct (index_of_by_inverse d _ (inv_reinsert1 d p) length_reinsert1
                  reinsert1_inverse (if m <? p then m else m - 1)
                  ltac:(lia)) as [-> _].
      f_equal. unfold inv_reinsert1.
      destruct (Nat.ltb_spec m p);
        repeat match goal with
               | |- context [?a <? ?b] => destruct (Nat.ltb_spec a b)
               | |- context [?a =? ?b] => destruct (Nat.eqb_spec a b)
               end; lia.
Qed.

End SingleQubit.

Section ApplyOne.

Lemma skipn_all_but_last (l : list nat) (n : nat) :
  length l = S n -> skipn n l = [nth n l 0].
Proof.
  revert l; induction n as [|n IH]; intros [|x [|y l]] H; simpl in *;
    try discriminate; try reflexivity.
  apply (IH (y :: l)). simpl. lia.
Qed.

Variables (T g : ndarray complex) (p m n : nat).
Hypothesis Hp : p < ndim T.
Hypothesis Hg : shape g = [m; n].
Hypothesis Hn : nth p (shape T) 0 = n.

Let d := ndim T.

Lemma tensordot1_returns : exists t, tensordot T g [p] [1] = Return t.
Proof.
  apply tensordot_returns.
  - reflexivity.
  - simpl. rewrite (nth_error_nth' (shape T) 0 Hp), Hn, Hg. simpl.
    now rewrite Nat.eqb_refl.
  - now apply valid_contract1.
  - unfold ndim. rewrite Hg. simpl. repeat split.
    + intros k [<-|[<-|[]]]; lia.
    + repeat constructor; simpl; intuition lia.
Qed.

Lemma length_free1 : length (free_dims (shape T) [p]) = d - 1.
Proof.
  unfold free_dims. rewrite length_map, notin_one by exact Hp.
  rewrite length_app, !length_seq. fold (ndim T). fold d. lia.
Qed.

Lemma nth_free1 (t : nat) :
  t < d - 1 ->
  nth t (free_dims (shape T) [p]) 0 =
  nth (if t <? p then t else S t) (shape T) 0.
Proof.
  intros Ht. unfold free_dims.
  rewrite (nth_indep _ 0 ((fun k => nth k (shape T) 0) 0))
    by (rewrite length_map, notin_one, length_app, !length_seq by exact Hp;
        fold (ndim T); fold d; lia).
  rewrite (map_nth (fun k => nth k (shape T) 0)). f_equal.
  rewrite notin_one by exact Hp. apply nth_seq_gap. fold (ndim T). fold d. lia.
Qed.

Lemma apply_1q_gate_run (self : GateSynthesis) (k : nat) :
  curr_unitary_op self = T -> qbit_num_to_tensor_index k = p ->
  exists res,
    apply_1q_gate g k self = (Return res, set_curr_unitary_op res self, []) /\
    length (shape res) = d /\
    (forall i, i < d ->
       nth i (shape res) 0 = if i =? p then m else nth i (shape T) 0) /\
    (forall idx, in_shape idx (shape res) ->
       get res idx = matrix_on_axis T g p idx).
Proof.
  intros Hcur Hk.
  destruct tensordot1_returns as [t1 Et].
  destruct (tensordot_inv _ _ _ _ _ Et) as (_ & _ & _ & _ & Hsh1 & Hget1).
  assert (Hfg : free_dims (shape g) [1] = [m]) by (rewrite Hg; reflexivity).
  rewrite Hfg in Hsh1.
  assert (Hd1 : ndim t1 = d).
  { unfold ndim at 1. rewrite Hsh1, length_app, length_free1. simpl.
    unfold d in *. lia. }
  pose proof (valid_reinsert1 d p Hp) as V.
  assert (Etr := transpose_valid t1 (reinsert1 d p)).
  rewrite Hd1 in Etr. specialize (Etr V).
  set (res := tabulate (map (fun k => nth k (shape t1) 0) (reinsert1 d p))
                (fun idx => get t1 (transpose_index d (reinsert1 d p) idx)))
    in Etr.
  exists res.
  assert (Hnth : forall i, i < d ->
            nth i (shape res) 0 = if i =? p then m else nth i (shape T) 0).
  { intros i Hi. simpl.
    rewrite (nth_indep _ 0 ((fun k => nth k (shape t1) 0) 0))
      by (rewrite length_map, length_reinsert1; assumption).
    rewrite (map_nth (fun k => nth k (shape t1) 0)).
    rewrite nth_reinsert1 by assumption. rewrite Hsh1.
    destruct (Nat.eqb_spec i p) as [->|Hne].
    - rewrite Nat.ltb_irrefl.
      rewrite app_nth2 by (rewrite length_free1; lia).
      rewrite length_free1. now rewrite Nat.sub_diag.
    - destruct (Nat.ltb_spec i p) as [Hlt|Hge].
      + rewrite app_nth1 by (rewrite length_free1; unfold d in *; lia).
        rewrite nth_free1 by (unfold d in *; lia).
        now rewrite (proj2 (Nat.ltb_lt _ _) Hlt).
      + rewrite app_nth1 by (rewrite length_free1; unfold d in *; lia).
        rewrite nth_free1 by (unfold d in *; lia).
        destruct (Nat.ltb_spec (i - 1) p); [lia|]. f_equal. lia. }
  split; [|split; [|split]].
  - unfold apply_1q_gate. rewrite Hk, bind_read, Hcur, Et, bind_lift_Return.
    fold d. fold (reinsert1 d p). rewrite Etr, bind_lift_Return, bind_assign.
    reflexivity.
  - simpl. now rewrite length_map, length_reinsert1.
  - exact Hnth.
  - intros idx Hin.
    pose proof (in_shape_length _ _ Hin) as Hlen.
    simpl in Hlen. rewrite length_map, length_reinsert1 in Hlen by exact Hp.
    unfold res. rewrite get_tabulate by exact Hin.
    assert (Hin' : in_shape (transpose_index d (reinsert1 d p) idx) (shape t1)).
    { pose proof (in_shape_transpose_index (shape t1) (reinsert1 d p) idx) as H.
      change (length (shape t1)) with (ndim t1) in H. rewrite Hd1 in H.
      apply H; [exact V|exact Hin]. }
    rewrite (Hget1 _ Hin'). unfold contraction, matrix_on_axis.
    assert (Hln : length (notin (ndim T) [p]) = d - 1).
    { rewrite notin_one, length_app, !length_seq by exact Hp.
      unfold d in *. lia. }
    rewrite Hln. unfold sum_dims. simpl map at 2.
    rewrite indices_one, map_map. f_equal.
    apply map_ext. intros j. f_equal.
    + f_equal. fold d. now apply source_index1.
    + f_equal. rewrite skipn_all_but_last
        by (rewrite length_transpose_index; unfold d in *; lia).
      rewrite nth_transpose_index by (unfold d in *; lia).
      destruct (index_of_by_inverse d _ (inv_reinsert1 d p)
                  (length_reinsert1 d p Hp) (reinsert1_inverse d p Hp)
                  (d - 1) ltac:(unfold d in *; lia)) as [-> _].
      unfold inv_reinsert1.
      destruct (Nat.ltb_spec (d - 1) p); [unfold d in *; lia|].
      rewrite Nat.eqb_refl. unfold ndim. rewrite Hg. reflexivity.
Qed.

End ApplyOne.

(* ================================================================= *)
(** ** The two-qubit applier *)

Ltac split_tests :=
  repeat match goal with
         | |- context [?a <? ?b] => destruct (Nat.ltb_spec a b)
         | |- context [?a =? ?b] => destruct (Nat.eqb_spec a b)
         end.

Section TwoQubit.

Variables (d pa pb : nat).
Hypothesis Hpa : pa < d.
Hypothesis Hpb : pb < d.
Hypothesis Hab : pa <> pb.

Lemma notin_pair :
  notin d [pa; pb] =
  seq 0 (Nat.min pa pb)
  ++ seq (S (Nat.min pa pb)) (Nat.max pa pb - Nat.min pa pb - 1)
  ++ seq (S (Nat.max pa pb)) (d - 1 - Nat.max pa pb).
Proof.
  apply notin_two; try lia.
  destruct (Nat.lt_ge_cases pa pb).
  - left. rewrite Nat.min_l, Nat.max_r by lia. reflexivity.
  - right. rewrite Nat.min_r, Nat.max_l by lia. reflexivity.
Qed.

Lemma length_notin_pair : length (notin d [pa; pb]) = d - 2.
Proof. rewrite notin_pair, !length_app, !length_seq. lia. Qed.

Lemma length_contract2 : length (notin d [pa; pb] ++ [pa; pb]) = d.
Proof. rewrite length_app, length_notin_pair. simpl. lia. Qed.

Lemma nth_contract2 (k : nat) :
  k < d -> nth k (notin d [pa; pb] ++ [pa; pb]) 0 = inv_reinsert2 d pa pb k.
Proof.
  intros Hk. unfold inv_reinsert2.
  destruct (Nat.eqb_spec k (d - 2)) as [->|H2].
  - rewrite app_nth2 by (rewrite length_notin_pair; lia).
    rewrite length_notin_pair, Nat.sub_diag. reflexivity.
  - destruct (Nat.eqb_spec k (d - 1)) as [->|H1].
    + rewrite app_nth2 by (rewrite length_notin_pair; lia).
      rewrite length_notin_pair.
      replace (d - 1 - (d - 2)) with 1 by lia. reflexivity.
    + rewrite app_nth1 by (rewrite length_notin_pair; lia).
      rewrite notin_pair. apply nth_seq_gaps; lia.
Qed.

Lemma contract2_inverse (k : nat) :
  k < d ->
  nth k (notin d [pa; pb] ++ [pa; pb]) 0 < d /\
  inv_contract2 d pa pb (nth k (notin d [pa; pb] ++ [pa; pb]) 0) = k.
Proof.
  intros Hk. rewrite nth_contract2 by exact Hk.
  unfold inv_contract2, inv_reinsert2. split_tests; lia.
Qed.

Lemma valid_contract2 : valid_axes d (notin d [pa; pb] ++ [pa; pb]).
Proof.
  exact (valid_axes_by_inverse d _ (inv_contract2 d pa pb) length_contract2
           contract2_inverse).
Qed.

Lemma length_reinsert2 : length (reinsert2 d pa pb) = d.
Proof.
  unfold reinsert2. destruct (pa <? pb);
    rewrite length_drop_last, !length_list_insert, length_seq; lia.
Qed.

(** The tie-break of the source: the smaller position is inserted first.
    Either way the output axis [d-2] lands at [pa] and [d-1] at [pb]. *)
Lemma nth_reinsert2 (k : nat) :
  k < d -> nth k (reinsert2 d pa pb) 0 = inv_contract2 d pa pb k.
Proof.
  intros Hk. unfold reinsert2, inv_contract2.
  destruct (Nat.ltb_spec pa pb) as [Hlt|Hge].
  - rewrite nth_drop_last
      by (rewrite !length_list_insert, length_seq; lia).
    rewrite nth_list_insert by (rewrite length_list_insert, length_seq; lia).
    rewrite !nth_list_insert by (rewrite length_seq; lia).
    rewrite Nat.min_l, Nat.max_r by lia.
    split_tests; try lia; rewrite seq_nth by lia; lia.
  - rewrite nth_drop_last
      by (rewrite !length_list_insert, length_seq; lia).
    rewrite nth_list_insert by (rewrite length_list_insert, length_seq; lia).
    rewrite !nth_list_insert by (rewrite length_seq; lia).
    rewrite Nat.min_r, Nat.max_l by lia.
    split_tests; try lia; rewrite seq_nth by lia; lia.
Qed.

Lemma reinsert2_inverse (k : nat) :
  k < d ->
  nth k (reinsert2 d pa pb) 0 < d /\
  inv_reinsert2 d pa pb (nth k (reinsert2 d pa pb) 0) = k.
Proof.
  intros Hk. rewrite nth_reinsert2 by exact Hk.
  unfold inv_contract2, inv_reinsert2. split_tests; lia.
Qed.

Lemma valid_reinsert2 : valid_axes d (reinsert2 d pa pb).
Proof.
  exact (valid_axes_by_inverse d _ (inv_reinsert2 d pa pb) length_reinsert2
           reinsert2_inverse).
Qed.

Lemma index_of_contract2 (m : nat) :
  m < d ->
  index_of m (notin d [pa; pb] ++ [pa; pb]) = inv_contract2 d pa pb m.
Proof.
  intros Hm.
  now destruct (index_of_by_inverse d _ (inv_contract2 d pa pb)
                  length_contract2 contract2_inverse m Hm).
Qed.

Lemma index_of_reinsert2 (t : nat) :
  t < d -> index_of t (reinsert2 d pa pb) = inv_reinsert2 d pa pb t.
Proof.
  intros Ht.
  now destruct (index_of_by_inverse d _ (inv_reinsert2 d pa pb)
                  length_reinsert2 reinsert2_inverse t Ht).
Qed.

(** The source index, through both reorderings, is [idx] with [ja] at [pa]
    and [jb] at [pb]. *)
Lemma source_index2 (idx : list nat) (ja jb : nat) :
  length idx = d ->
  transpose_index d (notin d [pa; pb] ++ [pa; pb])
    (firstn (d - 2) (transpose_index d (reinsert2 d pa pb) idx) ++ [ja; jb])
  = put pb jb (put pa ja idx).
Proof.
  intros Hl. apply (nth_ext _ _ 0 0).
  - rewrite length_transpose_index, !length_put; rewrite ?length_put; lia.
  - rewrite length_transpose_index. intros m Hm.
    rewrite nth_transpose_index, index_of_contract2 by exact Hm.
    rewrite nth_put by (rewrite length_put; lia). rewrite nth_put by lia.
    assert (Hlf : length (firstn (d - 2) (transpose_index d (reinsert2 d pa pb) idx))
                  = d - 2)
      by (rewrite length_firstn, length_transpose_index; lia).
    unfold inv_contract2.
    destruct (Nat.eqb_spec m pb) as [->|Hnb].
    + destruct (Nat.eqb_spec pb pa); [lia|].
      rewrite app_nth2 by lia. rewrite Hlf.
      replace (d - 1 - (d - 2)) with 1 by lia. reflexivity.
    + destruct (Nat.eqb_spec m pa) as [->|Hna].
      * rewrite app_nth2 by lia. rewrite Hlf, Nat.sub_diag. reflexivity.
      * set (t := if m <? Nat.min pa pb then m
                  else if m <? Nat.max pa pb then m - 1 else m - 2).
        assert (Ht : t < d - 2) by (unfold t; split_tests; lia).
        rewrite app_nth1 by lia.
        rewrite nth_firstn, (proj2 (Nat.ltb_lt _ _) Ht).
        rewrite nth_transpose_index, index_of_reinsert2 by lia.
        f_equal. unfold inv_reinsert2, t. split_tests; lia.
Qed.

Lemma trailing_index2 (idx : list nat) :
  length idx = d ->
  skipn (d - 2) (transpose_index d (reinsert2 d pa pb) idx) =
  [nth pa idx 0; nth pb idx 0].
Proof.
  intros Hl. apply (nth_ext _ _ 0 0).
  - rewrite length_skipn, length_transpose_index. simpl. lia.
  - rewrite length_skipn, length_transpose_index. intros k Hk.
    rewrite nth_skipn, nth_transpose_index, index_of_reinsert2 by lia.
    unfold inv_reinsert2.
    destruct k as [|[|k]]; [| |lia]; simpl; split_tests; try lia; reflexivity.
Qed.

End TwoQubit.

Section ApplyTwo.

Variables (T g : ndarray complex) (pa pb m0 n0 m1 n1 : nat).
Hypothesis Hpa : pa < ndim T.
Hypothesis Hpb : pb < ndim T.
Hypothesis Hab : pa <> pb.
Hypothesis Hg : shape g = [m0; n0; m1; n1].
Hypothesis Hna : nth pa (shape T) 0 = n0.
Hypothesis Hnb : nth pb (shape T) 0 = n1.

Let d := ndim T.

Lemma tensordot2_returns : exists t, tensordot T g [pa; pb] [1; 3] = Return t.
Proof.
  apply tensordot_returns.
  - reflexivity.
  - simpl. rewrite (nth_error_nth' (shape T) 0 Hpa), Hna, Hg. simpl.
    rewrite Nat.eqb_refl.
    rewrite (nth_error_nth' (shape T) 0 Hpb), Hnb. now rewrite Nat.eqb_refl.
  - now apply valid_contract2.
  - unfold ndim. rewrite Hg. simpl. repeat split.
    + intros k [<-|[<-|[<-|[<-|[]]]]]; lia.
    + repeat constructor; simpl; intuition lia.
Qed.

Lemma length_free2 : length (free_dims (shape T) [pa; pb]) = d - 2.
Proof.
  unfold free_dims. rewrite length_map. now apply length_notin_pair.
Qed.

Lemma nth_free2 (t : nat) :
  t < d - 2 ->
  nth t (free_dims (shape T) [pa; pb]) 0 =
  nth (inv_reinsert2 d pa pb t) (shape T) 0.
Proof.
  intros Ht. unfold free_dims. fold (ndim T). fold d.
  rewrite (nth_indep _ 0 ((fun k => nth k (shape T) 0) 0))
    by (rewrite length_map, length_notin_pair; assumption).
  rewrite (map_nth (fun k => nth k (shape T) 0)). f_equal.
  rewrite <- (nth_contract2 d pa pb Hpa Hpb Hab) by (unfold d in *; lia).
  rewrite app_nth1 by (rewrite length_notin_pair; assumption).
  reflexivity.
Qed.

Lemma apply_2q_gate_run (self : GateSynthesis) (a b : nat) :
  curr_unitary_op self = T ->
  qbit_num_to_tensor_index a = pa -> qbit_num_to_tensor_index b = pb ->
  exists res,
    apply_2q_gate g a b self = (Return res, set_curr_unitary_op res self, []) /\
    length (shape res) = d /\
    (forall i, i < d ->
       nth i (shape res) 0 =
       if i =? pa then m0 else if i =? pb then m1 else nth i (shape T) 0) /\
    (forall idx, in_shape idx (shape res) ->
       get res idx = gate_on_axes T g pa pb idx).
Proof.
  intros Hcur Ha Hb.
  destruct tensordot2_returns as [t1 Et].
  destruct (tensordot_inv _ _ _ _ _ Et) as (_ & _ & _ & _ & Hsh1 & Hget1).
  assert (Hfg : free_dims (shape g) [1; 3] = [m0; m1])
    by (rewrite Hg; reflexivity).
  rewrite Hfg in Hsh1.
  assert (Hd2 : 2 <= d) by (unfold d; lia).
  assert (Hd1 : ndim t1 = d).
  { unfold ndim at 1. rewrite Hsh1, length_app, length_free2. simpl. lia. }
  pose proof (valid_reinsert2 d pa pb Hpa Hpb Hab) as V.
  assert (Etr := transpose_valid t1 (reinsert2 d pa pb)).
  rewrite Hd1 in Etr. specialize (Etr V).
  set (res := tabulate (map (fun k => nth k (shape t1) 0) (reinsert2 d pa pb))
                (fun idx => get t1 (transpose_index d (reinsert2 d pa pb) idx)))
    in Etr.
  exists res.
  split; [|split; [|split]].
  - unfold apply_2q_gate. rewrite Ha, Hb, bind_read, Hcur, Et, bind_lift_Return.
    fold d.
    replace (let '(smaller, bigger, first, second) :=
               if pa <? pb then (pa, pb, d - 2, d - 1)
               else (pb, pa, d - 1, d - 2) in
             bind (lift (transpose t1
                     (drop_last 2
                        (list_insert bigger second
                           (list_insert smaller first (seq 0 d))))))
               (fun res0 => bind (assign (set_curr_unitary_op res0))
                              (fun _ => ret res0)))
      with (bind (lift (transpose t1 (reinsert2 d pa pb)))
              (fun res0 => bind (assign (set_curr_unitary_op res0))
                             (fun _ => ret res0)))
      by (unfold reinsert2; destruct (pa <? pb); reflexivity).
    rewrite Etr, bind_lift_Return, bind_assign. reflexivity.
  - simpl. rewrite length_map. now apply length_reinsert2.
  - intros i Hi. simpl.
    rewrite (nth_indep _ 0 ((fun k => nth k (shape t1) 0) 0))
      by (rewrite length_map, length_reinsert2; assumption).
    rewrite (map_nth (fun k => nth k (shape t1) 0)).
    rewrite nth_reinsert2 by assumption. rewrite Hsh1.
    unfold inv_contract2.
    destruct (Nat.eqb_spec i pa) as [->|Hia].
    + rewrite app_nth2 by (rewrite length_free2; lia).
      rewrite length_free2, Nat.sub_diag. reflexivity.
    + destruct (Nat.eqb_spec i pb) as [->|Hib].
      * rewrite app_nth2 by (rewrite length_free2; lia).
        rewrite length_free2. replace (d - 1 - (d - 2)) with 1 by lia.
        reflexivity.
      * set (t := if i <? Nat.min pa pb then i
                  else if i <? Nat.max pa pb then i - 1 else i - 2).
        assert (Ht : t < d - 2) by (unfold t; split_tests; lia).
        rewrite app_nth1 by (rewrite length_free2; exact Ht).
        rewrite nth_free2 by exact Ht. f_equal.
        unfold inv_reinsert2, t. split_tests; lia.
  - intros idx Hin.
    pose proof (in_shape_length _ _ Hin) as Hlen.
    simpl in Hlen. rewrite length_map, length_reinsert2 in Hlen by assumption.
    unfold res. rewrite get_tabulate by exact Hin.
    assert (Hin' : in_shape (transpose_index d (reinsert2 d pa pb) idx)
                            (shape t1)).
    { pose proof (in_shape_transpose_index (shape t1) (reinsert2 d pa pb) idx)
        as H.
      change (length (shape t1)) with (ndim t1) in H. rewrite Hd1 in H.
      apply H; [exact V|exact Hin]. }
    rewrite (Hget1 _ Hin'). unfold contraction, gate_on_axes.
    fold d. rewrite (length_notin_pair d pa pb Hpa Hpb Hab).
    unfold sum_dims. simpl map at 2. f_equal.
    apply map_ext_in. intros js Hjs. apply in_indices in Hjs.
    inversion Hjs as [|ja da js' ? _ Hjs']; subst.
    inversion Hjs' as [|jb db js'' ? _ Hjs'']; subst.
    inversion Hjs''; subst. simpl nth. f_equal.
    + f_equal. now apply source_index2.
    + f_equal. rewrite trailing_index2 by assumption.
      unfold ndim. rewrite Hg. reflexivity.
Qed.

End ApplyTwo.

(* ================================================================= *)
(** ** The appliers, as the claims state them *)

(** C7: on an operator of rank 2N, [apply_1q_gate] with a rank-2 gate [g]
    and qubit [k < N] returns (and stores) an operator of the same rank
    whose axis [2k] carries the gate's row dimension, every other axis
    being as before, and whose element at [idx] is the sum over [j] of the
    old operator's element with [j] at axis [2k] times [g[idx[2k], j]]:
    axis [2k] is contracted against the gate's second axis and the gate's
    first axis takes its place. *)
Theorem apply_1q_gate_contracts
  (self : GateSynthesis) (g : gate) (N k m n : nat) :
  ndim (curr_unitary_op self) = 2 * N -> k < N ->
  shape g = [m; n] -> nth (2 * k) (shape (curr_unitary_op self)) 0 = n ->
  exists res,
    apply_1q_gate g k self = (Return res, set_curr_unitary_op res self, []) /\
    ndim res = 2 * N /\
    (forall i, i < 2 * N ->
       nth i (shape res) 0 =
       if i =? 2 * k then m else nth i (shape (curr_unitary_op self)) 0) /\
    (forall idx, in_shape idx (shape res) ->
       get res idx = matrix_on_axis (curr_unitary_op self) g (2 * k) idx).
Proof.
  intros Hd Hk Hg Hn.
  destruct (apply_1q_gate_run (curr_unitary_op self) g (2 * k) m n
              ltac:(lia) Hg Hn self k eq_refl
              ltac:(unfold qbit_num_to_tensor_index; lia))
    as (res & Hrun & Hlen & Hsh & Hget).
  exists res. rewrite Hd in *. repeat split; assumption.
Qed.

Lemma apply_1q_gate_contracts_witness :
  exists res,
    apply_1q_gate op_X 0 (scenario 0)
    = (Return res, set_curr_unitary_op res (scenario 0), []) /\
    ndim res = 2 * 1 /\
    (forall i, i < 2 * 1 ->
       nth i (shape res) 0 =
       if i =? 2 * 0 then 2
       else nth i (shape (curr_unitary_op (scenario 0))) 0) /\
    (forall idx, in_shape idx (shape res) ->
       get res idx
       = matrix_on_axis (curr_unitary_op (scenario 0)) op_X (2 * 0) idx).
Proof.
  apply (apply_1q_gate_contracts (scenario 0) op_X 1 0 2 2);
    [reflexivity|lia|reflexivity|reflexivity].
Defined.

(** C2, as the code has it: on an operator of rank 2N, [apply_2q_gate] with
    a rank-4 gate [g] and distinct qubits [a], [b] returns (and stores) an
    operator of the same rank; its element at [idx] is the sum over
    [(ja, jb)] of the old operator's element with [ja] at axis [2a] and [jb]
    at axis [2b] times [g[idx[2a], ja, idx[2b], jb]].  The operator axes
    [2a] and [2b] are contracted against the gate's second and fourth axes,
    and the gate's first and third axes take their places, whichever of
    [2a], [2b] is smaller. *)
Theorem apply_2q_gate_contracts
  (self : GateSynthesis) (g : gate) (N a b m0 n0 m1 n1 : nat) :
  ndim (curr_unitary_op self) = 2 * N -> a < N -> b < N -> a <> b ->
  shape g = [m0; n0; m1; n1] ->
  nth (2 * a) (shape (curr_unitary_op self)) 0 = n0 ->
  nth (2 * b) (shape (curr_unitary_op self)) 0 = n1 ->
  exists res,
    apply_2q_gate g a b self = (Return res, set_curr_unitary_op res self, []) /\
    ndim res = 2 * N /\
    (forall i, i < 2 * N ->
       nth i (shape res) 0 =
       if i =? 2 * a then m0 else if i =? 2 * b then m1
       else nth i (shape (curr_unitary_op self)) 0) /\
    (forall idx, in_shape idx (shape res) ->
       get res idx
       = gate_on_axes (curr_unitary_op self) g (2 * a) (2 * b) idx).
Proof.
  intros Hd Ha Hb Hab Hg Hna Hnb.
  destruct (apply_2q_gate_run (curr_unitary_op self) g (2 * a) (2 * b)
              m0 n0 m1 n1 ltac:(lia) ltac:(lia) ltac:(lia) Hg Hna Hnb
              self a b eq_refl
              ltac:(unfold qbit_num_to_tensor_index; lia)
              ltac:(unfold qbit_num_to_tensor_index; lia))
    as (res & Hrun & Hlen & Hsh & Hget).
  exists res. rewrite Hd in *. repeat split; assumption.
Qed.

Lemma apply_2q_gate_contracts_witness :
  exists res,
    apply_2q_gate probe_gate 1 0 two_qubit_episode
    = (Return res, set_curr_unitary_op res two_qubit_episode, []) /\
    ndim res = 2 * 2 /\
    (forall i, i < 2 * 2 ->
       nth i (shape res) 0 =
       if i =? 2 * 1 then 2 else if i =? 2 * 0 then 2
       else nth i (shape (curr_unitary_op two_qubit_episode)) 0) /\
    (forall idx, in_shape idx (shape res) ->
       get res idx
       = gate_on_axes (curr_unitary_op two_qubit_episode) probe_gate
           (2 * 1) (2 * 0) idx).
Proof.
  apply (apply_2q_gate_contracts two_qubit_episode probe_gate 2 1 0 2 2 2 2);
    try reflexivity; lia.
Defined.

(** C2, as the specification words it, fails: with the identity on two
    qubits and [probe_gate] on qubits (0, 1), the element at [[0; 0; 1; 0]]
    of the result is 0, where a contraction against the gate's third and
    fourth axes gives 1. *)
Lemma apply_2q_gate_not_third_and_fourth_axes :
  ~ (forall (self : GateSynthesis) (g : gate) (N a b : nat) res,
       ndim (curr_unitary_op self) = 2 * N -> a < N -> b < N -> a <> b ->
       shape (curr_unitary_op self) = repeat 2 (2 * N) ->
       shape g = [2; 2; 2; 2] ->
       result (apply_2q_gate g a b) self = Return res ->
       forall idx, in_shape idx (shape res) ->
         get res idx
         = spec_gate_on_axes (curr_unitary_op self) g (2 * a) (2 * b) idx).
Proof.
  intros H.
  assert (Hd : ndim (identity_op 2) = 4) by reflexivity.
  destruct (apply_2q_gate_run (identity_op 2) probe_gate 0 2 2 2 2 2
              ltac:(rewrite Hd; lia) ltac:(rewrite Hd; lia) ltac:(lia)
              eq_refl eq_refl eq_refl two_qubit_episode 0 1
              eq_refl eq_refl eq_refl)
    as (res & Hrun & Hnd & Hsh & Hget).
  rewrite Hd in Hnd, Hsh.
  assert (Hin : in_shape [0; 0; 1; 0] (shape res)).
  { apply in_shape_intro.
    - exact (eq_sym Hnd).
    - rewrite Hnd. intros k Hk. rewrite (Hsh k Hk).
      destruct k as [|[|[|[|k]]]]; simpl; lia. }
  specialize (H two_qubit_episode probe_gate 2 0 1 res).
  assert (Hres : result (apply_2q_gate probe_gate 0 1) two_qubit_episode
                 = Return res) by (unfold result; now rewrite Hrun).
  specialize (H eq_refl ltac:(lia) ltac:(lia) ltac:(lia) eq_refl eq_refl Hres
                _ Hin).
  rewrite (Hget _ Hin) in H.
  apply (f_equal Re) in H. vm_compute in H. lra.
Qed.

(* ================================================================= *)
(** ** [np.allclose] and [have_winner] *)

Section Allclose.

Lemma Rleb_true (x y : R) : Rleb x y = true <-> (x <= y)%R.
Proof. unfold Rleb. destruct (Rle_dec x y); split; intros; auto; discriminate. Qed.

Lemma Rleb_false (x y : R) : Rleb x y = false <-> (y < x)%R.
Proof.
  unfold Rleb. destruct (Rle_dec x y); split; intros;
    try discriminate; try reflexivity; lra.
Qed.

Lemma forallb_ext_in {A} (f g : A -> bool) (l : list A) :
  (forall x, In x l -> f x = g x) -> forallb f l = forallb g l.
Proof.
  induction l as [|x l IH]; intros H; simpl; [reflexivity|].
  rewrite (H x (or_introl eq_refl)), IH; [reflexivity|].
  intros y Hy. apply H. now right.
Qed.

Lemma within_tol_true (rtol atol : R) (x y : complex) :
  within_tol rtol atol x y = true <->
  (Cabs (Csub x y) <= atol + rtol * Cabs y)%R.
Proof. apply Rleb_true. Qed.

Lemma Cabs_real (z : complex) : Im z = 0%R -> Cabs z = Rabs (Re z).
Proof.
  intros H. unfold Cabs. rewrite H.
  replace (Re z * Re z + 0 * 0)%R with (Rsqr (Re z)) by (unfold Rsqr; lra).
  apply sqrt_Rsqr_abs.
Qed.

Lemma Cabs_nonneg (z : complex) : (0 <= Cabs z)%R.
Proof. apply sqrt_pos. Qed.

Lemma broadcast_rev_same (l : list nat) : broadcast_rev l l = Some l.
Proof.
  induction l as [|d l IH]; simpl; [reflexivity|]. rewrite IH.
  destruct (Nat.eqb_spec d 1); [reflexivity|].
  now rewrite Nat.eqb_refl.
Qed.

Lemma broadcast_shapes_same (sh : list nat) : broadcast_shapes sh sh = Some sh.
Proof.
  unfold broadcast_shapes. rewrite broadcast_rev_same. simpl.
  now rewrite rev_involutive.
Qed.

Lemma broadcast_index_same (sh idx : list nat) :
  in_shape idx sh -> broadcast_index sh idx = idx.
Proof.
  intros Hin. unfold broadcast_index.
  rewrite (in_shape_length _ _ Hin), Nat.sub_diag. simpl.
  induction Hin as [|i d idx sh Hi _ IH]; simpl; [reflexivity|].
  rewrite IH. destruct (Nat.eqb_spec d 1); [f_equal; lia|reflexivity].
Qed.

Lemma allclose_same_shape (a b : ndarray complex) (rtol atol : R) :
  shape a = shape b ->
  allclose a b rtol atol =
  Return (forallb (fun idx => within_tol rtol atol (get a idx) (get b idx))
                  (indices (shape a))).
Proof.
  intros Hs. unfold allclose. rewrite <- Hs, broadcast_shapes_same.
  f_equal. apply forallb_ext_in.
  intros idx Hin. apply in_indices in Hin.
  now rewrite broadcast_index_same.
Qed.

End Allclose.

Section HaveWinner.

Lemma have_winner_same_shape (self : GateSynthesis) :
  shape (curr_unitary_op self) = shape (target_unitary_op self) ->
  have_winner self =
  Return (forallb (fun idx =>
                     within_tol (tol self) default_atol
                       (get (curr_unitary_op self) idx)
                       (get (target_unitary_op self) idx))
                  (indices (shape (target_unitary_op self)))).
Proof.
  intros Hs. unfold have_winner. rewrite allclose_same_shape by exact Hs.
  now rewrite Hs.
Qed.

(** C4, as the code has it: for operators of one shape, [have_winner]
    returns True exactly when every element of the current operator is
    within [1e-8 + tol * |target element|] of the target's, [1e-8] being the
    absolute tolerance [np.allclose] adds by default.  With [tol = 1e-3], a
    difference of [1e-4] in every element is accepted when every target
    element has magnitude at least 0.1, and a difference of [1e-2] in an
    element whose target has magnitude at most 1 is rejected. *)
Theorem have_winner_tolerance (self : GateSynthesis) :
  shape (curr_unitary_op self) = shape (target_unitary_op self) ->
  let diff idx := Cabs (Csub (get (curr_unitary_op self) idx)
                             (get (target_unitary_op self) idx)) in
  let mag idx := Cabs (get (target_unitary_op self) idx) in
  exists won,
    have_winner self = Return won /\
    (won = true <->
     forall idx, in_shape idx (shape (target_unitary_op self)) ->
                 (diff idx <= 1e-8 + tol self * mag idx)%R) /\
    (tol self = 1e-3%R ->
     (forall idx, in_shape idx (shape (target_unitary_op self)) ->
                  diff idx = 1e-4%R /\ (0.1 <= mag idx)%R) ->
     won = true) /\
    (tol self = 1e-3%R ->
     (exists idx, in_shape idx (shape (target_unitary_op self)) /\
                  diff idx = 1e-2%R /\ (mag idx <= 1)%R) ->
     won = false).
Proof.
  intros Hs diff mag. eexists. split; [now apply have_winner_same_shape|].
  assert (Hiff :
    forallb (fun idx =>
               within_tol (tol self) default_atol
                 (get (curr_unitary_op self) idx)
                 (get (target_unitary_op self) idx))
            (indices (shape (target_unitary_op self))) = true <->
    forall idx, in_shape idx (shape (target_unitary_op self)) ->
                (diff idx <= 1e-8 + tol self * mag idx)%R).
  { rewrite forallb_forall. split.
    - intros H idx Hin. apply within_tol_true, H, in_indices, Hin.
    - intros H idx Hin. apply within_tol_true, H, in_indices, Hin. }
  split; [exact Hiff|]. split.
  - intros Htol Hall. apply Hiff. intros idx Hin.
    destruct (Hall idx Hin) as [-> Hm]. rewrite Htol. lra.
  - intros Htol (idx & Hin & Hd & Hm).
    apply not_true_is_false. intros Hw.
    pose proof (proj1 Hiff Hw idx Hin) as Hle.
    rewrite Hd, Htol in Hle. pose proof (Cabs_nonneg (get (target_unitary_op self) idx)).
    fold (mag idx) in H. lra.
Qed.

Ltac real_abs :=
  rewrite ?Cabs_real by (simpl; lra); simpl;
  unfold Rabs; repeat destruct Rcase_abs; lra.

Lemma near_identity_wins : have_winner near_identity_episode = Return true.
Proof.
  rewrite have_winner_same_shape by reflexivity. f_equal.
  apply forallb_forall. intros idx Hin.
  simpl in Hin. unfold default_atol.
  destruct Hin as [<-|[<-|[<-|[<-|[]]]]]; apply within_tol_true;
    unfold get; simpl; real_abs.
Qed.

Lemma have_winner_tolerance_witness :
  exists won,
    have_winner near_identity_episode = Return won /\ won = true.
Proof.
  destruct (have_winner_tolerance near_identity_episode eq_refl)
    as (won & Hrun & Hiff & _).
  exists won. split; [exact Hrun|].
  rewrite near_identity_wins in Hrun. now injection Hrun as <-.
Defined.

(** C4 as stated fails: without the absolute tolerance, an element [1e-9]
    away from a zero target element would be rejected; the code accepts it. *)
Lemma have_winner_not_purely_relative :
  ~ (forall (self : GateSynthesis) won,
       shape (curr_unitary_op self) = shape (target_unitary_op self) ->
       have_winner self = Return won ->
       (won = true <->
        forall idx, in_shape idx (shape (target_unitary_op self)) ->
          (Cabs (Csub (get (curr_unitary_op self) idx)
                      (get (target_unitary_op self) idx))
           <= tol self * Cabs (get (target_unitary_op self) idx))%R)).
Proof.
  intros H.
  specialize (H near_identity_episode true eq_refl near_identity_wins).
  destruct H as [H _]. specialize (H eq_refl [0; 1]).
  assert (Hin : in_shape [0; 1] (shape (target_unitary_op near_identity_episode)))
    by (repeat constructor).
  specialize (H Hin). revert H. unfold get. simpl. real_abs.
Qed.

(** With [tol = 1e-3], the identity shifted by [1e-4] in every element is
    not accepted as the identity: the zero elements of the target leave only
    the absolute tolerance. *)
Lemma shifted_identity_loses :
  have_winner shifted_identity_episode = Return false.
Proof.
  rewrite have_winner_same_shape by reflexivity. f_equal.
  apply not_true_is_false. intros H. rewrite forallb_forall in H.
  specialize (H [0; 1] ltac:(simpl; auto)).
  apply within_tol_true in H. revert H. unfold get, default_atol. simpl.
  real_abs.
Qed.

End HaveWinner.

(* ================================================================= *)
(** ** The observation encoder *)

Section Observation.

Lemma nth_zip_axes (n : nat) :
  forall a b k, k < 2 * n ->
    nth k (flat_map (fun tup => [fst tup; snd tup])
                    (combine (seq a n) (seq b n))) 0
    = if Nat.even k then a + Nat.div2 k else b + Nat.div2 k.
Proof.
  induction n as [|n IH]; intros a b k Hk; [lia|].
  simpl seq. simpl combine. simpl flat_map.
  destruct k as [|[|k]].
  - simpl. lia.
  - simpl. lia.
  - change (nth (S (S k)) (a :: b :: ?l) 0) with (nth k l 0).
    rewrite IH by lia.
    change (Nat.even (S (S k))) with (Nat.even k).
    change (Nat.div2 (S (S k))) with (S (Nat.div2 k)).
    destruct (Nat.even k); lia.
Qed.

Lemma length_zip_axes (n : nat) :
  forall a b,
    length (flat_map (fun tup => [fst tup; snd tup])
                     (combine (seq a n) (seq b n))) = 2 * n.
Proof.
  induction n as [|n IH]; intros a b; simpl; [reflexivity|].
  rewrite IH. lia.
Qed.

Lemma length_observation_axes (n : nat) : length (observation_axes n) = 2 * n.
Proof. apply length_zip_axes. Qed.

Lemma nth_observation_axes (n k : nat) :
  k < 2 * n ->
  nth k (observation_axes n) 0
  = if Nat.even k then Nat.div2 k else n + Nat.div2 k.
Proof. intros Hk. unfold observation_axes. now rewrite nth_zip_axes. Qed.

Lemma observation_axes_inverse (n k : nat) :
  k < 2 * n ->
  nth k (observation_axes n) 0 < 2 * n /\
  inv_observation n (nth k (observation_axes n) 0) = k.
Proof.
  intros Hk. rewrite nth_observation_axes by exact Hk.
  pose proof (Nat.div2_odd k) as E. unfold inv_observation.
  rewrite <- Nat.negb_even in E.
  destruct (Nat.even k); simpl Nat.b2n in E.
  - destruct (Nat.ltb_spec (Nat.div2 k) n); lia.
  - destruct (Nat.ltb_spec (n + Nat.div2 k) n); [lia|].
    replace (n + Nat.div2 k - n) with (Nat.div2 k) by lia. lia.
Qed.

Lemma valid_observation_axes (n : nat) :
  valid_axes (2 * n) (observation_axes n).
Proof.
  exact (valid_axes_by_inverse (2 * n) _ (inv_observation n)
           (length_observation_axes n) (observation_axes_inverse n)).
Qed.

Lemma map_const_in {A B} (f : A -> B) (c : B) (l : list A) :
  (forall x, In x l -> f x = c) -> map f l = repeat c (length l).
Proof.
  induction l as [|x l IH]; intros H; simpl; [reflexivity|].
  rewrite (H x (or_introl eq_refl)), IH; [reflexivity|].
  intros y Hy. apply H. now right.
Qed.

Lemma nth_repeat_lt {A} (c d : A) (n k : nat) :
  k < n -> nth k (repeat c n) d = c.
Proof.
  revert k; induction n as [|n IH]; intros [|k] Hk; simpl; try lia; auto.
  apply IH. lia.
Qed.

Lemma prod_shape_repeat (c n : nat) : prod_shape (repeat c n) = c ^ n.
Proof. induction n as [|n IH]; simpl; [reflexivity|]. now rewrite IH. Qed.

(** On an operator of shape (2,)*2n the encoder returns an array of shape
    (2, 2^n, 2^n). *)
Lemma get_observation_returns (self : GateSynthesis) :
  shape (curr_unitary_op self) = repeat 2 (2 * nb_qbits self) ->
  exists obs,
    get_observation self = Return obs /\
    shape obs = [2; 2 ^ nb_qbits self; 2 ^ nb_qbits self].
Proof.
  intros Hs. unfold get_observation. set (n := nb_qbits self) in *.
  assert (Hd : ndim (curr_unitary_op self) = 2 * n)
    by (unfold ndim; rewrite Hs; apply repeat_length).
  pose proof (valid_observation_axes n) as V. rewrite <- Hd in V.
  rewrite (transpose_valid _ _ V). simpl obind.
  unfold reshape, size. simpl shape.
  assert (Hm : map (fun k => nth k (shape (curr_unitary_op self)) 0)
                   (observation_axes n) = repeat 2 (2 * n)).
  { rewrite <- (length_observation_axes n). apply map_const_in.
    intros k Hk. rewrite Hs. apply nth_repeat_lt.
    destruct V as (_ & Hr & _). rewrite <- Hd. now apply Hr. }
  rewrite Hm, prod_shape_repeat.
  assert (Hp : prod_shape [2 ^ n; 2 ^ n] = 2 ^ (2 * n)).
  { simpl prod_shape. rewrite Nat.mul_1_r, <- Nat.pow_add_r. f_equal. lia. }
  rewrite Hp, Nat.eqb_refl. eexists. split; reflexivity.
Qed.

(** Up to two qubits the encoder's axis order is rows first, columns next. *)
Lemma observation_axes_small (n : nat) :
  n <= 2 -> observation_axes n = rows_then_columns n.
Proof.
  intros Hn. destruct n as [|[|[|n]]]; try reflexivity. lia.
Qed.

Lemma get_observation_small (self : GateSynthesis) :
  nb_qbits self <= 2 -> get_observation self = spec_get_observation self.
Proof.
  intros Hn. unfold get_observation, spec_get_observation.
  now rewrite observation_axes_small.
Qed.

(** From three qubits on it is another order. *)
Lemma observation_axes_large (n : nat) :
  3 <= n -> nth 1 (observation_axes n) 0 = n /\ nth 1 (rows_then_columns n) 0 = 2.
Proof.
  intros Hn. split.
  - rewrite nth_observation_axes by lia. simpl. lia.
  - destruct n as [|[|n]]; try lia. reflexivity.
Qed.

Example observation_identity_1 :
  get_observation (identity_episode 1) = Return (identity_observation 2).
Proof. vm_compute. reflexivity. Qed.

Example observation_identity_2 :
  get_observation (identity_episode 2) = Return (identity_observation 4).
Proof. vm_compute. reflexivity. Qed.

Example spec_observation_identity_3 :
  spec_get_observation (identity_episode 3) = Return (identity_observation 8).
Proof. vm_compute. reflexivity. Qed.

(** C5 at three qubits: the encoder returns an array of shape (2, 8, 8), but
    its layer 0 is not the identity matrix: the diagonal element of row 1 is
    0. The rows-first order of the specification gives the identity. *)
Theorem observation_identity_3 :
  exists obs,
    get_observation (identity_episode 3) = Return obs /\
    shape obs = [2; 8; 8] /\
    get obs [0; 1; 1] = 0%R /\
    get (identity_observation 8) [0; 1; 1] = 1%R /\
    obs <> identity_observation 8.
Proof.
  eexists. split; [vm_compute; reflexivity|].
  split; [reflexivity|]. split; [reflexivity|]. split; [vm_compute; reflexivity|].
  intros E. apply (f_equal (fun a => get a [0; 1; 1])) in E.
  vm_compute in E. lra.
Qed.

End Observation.

(* ================================================================= *)
(** ** Steps, then a reset *)

Section StepsThenReset.

(** C9: a sequence of [step] calls changes nothing but the current operator,
    in particular neither the initial nor the target operator; a [reset]
    after it makes the current operator the initial one, zeroes the step
    counter, empties the distance history and returns the observation of the
    object so reset, an array of shape (2, 2^n, 2^n) when the initial
    operator has shape (2,)*2n. *)
Theorem steps_then_reset (e : GateSynthesis) (acts : list Z) :
  let s := serve_all (map Step acts) e in
  let s' := after reset s in
  init_unitary_op s = init_unitary_op e /\
  target_unitary_op s = target_unitary_op e /\
  frame e s /\
  curr_unitary_op s' = init_unitary_op e /\
  nb_steps s' = 0%Z /\
  distance_history s' = [] /\
  init_unitary_op s' = init_unitary_op e /\
  target_unitary_op s' = target_unitary_op e /\
  nb_qbits s' = nb_qbits e /\
  result reset s = get_observation s' /\
  (shape (init_unitary_op e) = repeat 2 (2 * nb_qbits e) ->
   exists obs,
     result reset s = Return obs /\
     shape obs = [2; 2 ^ nb_qbits e; 2 ^ nb_qbits e]).
Proof.
  intros s s'. pose proof (frame_serve_steps acts e) as F. fold s in F.
  pose proof F as (Hi & Ht & Hn & F').
  do 10 (split; [first [assumption | reflexivity]|]).
  intros Hsh. rewrite result_reset. fold s'.
  destruct (get_observation_returns s') as (obs & Hobs & Hso).
  - unfold s'. rewrite after_reset. simpl. now rewrite Hi, Hn.
  - exists obs. split; [exact Hobs|].
    unfold s' in Hso. rewrite after_reset in Hso. simpl in Hso.
    now rewrite Hn in Hso.
Qed.

Lemma steps_then_reset_witness :
  let s := serve_all (map Step [1; 0]%Z) (scenario 5) in
  curr_unitary_op (after reset s) = op_I /\
  exists obs, result reset s = Return obs /\ shape obs = [2; 2 ^ 1; 2 ^ 1].
Proof.
  destruct (steps_then_reset (scenario 5) [1; 0]%Z)
    as (_ & _ & _ & Hc & _ & _ & _ & _ & _ & _ & Hret).
  split; [exact Hc|]. apply Hret. reflexivity.
Defined.

End StepsThenReset.

(* ================================================================= *)
(** ** Which exceptions the methods raise *)

Section Raises.

Lemma transpose_raises {A} `{Dflt A} (a : ndarray A) axes e :
  transpose a axes = Raise e -> numpy_error e.
Proof.
  unfold transpose, numpy_error, unsupported_gate.
  repeat match goal with
         | |- context [if ?b then _ else _] => destruct b
         end; simpl; intros E; inversion E; discriminate.
Qed.

Lemma reshape_raises {A} (a : ndarray A) sh e :
  reshape a sh = Raise e -> numpy_error e.
Proof.
  unfold reshape, numpy_error, unsupported_gate.
  destruct (_ =? _); intros E; inversion E; discriminate.
Qed.

Lemma axes_agree_raises as_ bs xa xb e :
  axes_agree as_ bs xa xb = Raise e -> numpy_error e.
Proof.
  revert xb; induction xa as [|ka ra IH]; intros [|kb rb]; simpl;
    try discriminate.
  destruct (nth_error as_ ka) as [da|]; [destruct (nth_error bs kb) as [db|]|];
    try (intros E; inversion E; discriminate).
  destruct (da =? db); [apply IH|discriminate].
Qed.

Lemma tensordot_raises a b xa xb e :
  tensordot a b xa xb = Raise e -> numpy_error e.
Proof.
  unfold tensordot, obind.
  destruct (length xa =? length xb).
  - destruct (axes_agree (shape a) (shape b) xa xb) as [[|]|e'] eqn:Hag; simpl.
    + destruct (transpose a _) as [at_|e1] eqn:Ea.
      * destruct (transpose b _) as [bt|e2] eqn:Eb; [discriminate|].
        intros E; injection E as <-. exact (transpose_raises _ _ _ Eb).
      * intros E; injection E as <-. exact (transpose_raises _ _ _ Ea).
    + intros E; inversion E; discriminate.
    + intros E; injection E as <-. eapply axes_agree_raises; eassumption.
  - simpl. intros E; inversion E; discriminate.
Qed.

Lemma allclose_raises a b rtol atol e :
  allclose a b rtol atol = Raise e -> numpy_error e.
Proof.
  unfold allclose. destruct (broadcast_shapes _ _); [discriminate|].
  intros E; inversion E; discriminate.
Qed.

Lemma have_winner_raises self e : have_winner self = Raise e -> numpy_error e.
Proof. apply allclose_raises. Qed.

Lemma get_observation_raises self e :
  get_observation self = Raise e -> numpy_error e.
Proof.
  unfold get_observation, obind.
  destruct (transpose _ _) as [u|e1] eqn:Et.
  - destruct (reshape u _) as [v|e2] eqn:Er; [discriminate|].
    intros E; injection E as <-. eapply reshape_raises; eassumption.
  - intros E; injection E as <-. exact (transpose_raises _ _ _ Et).
Qed.

Lemma raises_only_bind {A B} P (m : method A) (k : A -> method B) :
  raises_only P m -> (forall a, raises_only P (k a)) ->
  raises_only P (bind m k).
Proof.
  intros Hm Hk self e. rewrite result_bind.
  destruct (result m self) as [a|e'] eqn:E.
  - apply Hk.
  - intros E'; injection E' as <-. now apply (Hm self).
Qed.

Lemma raises_only_ret {A} P (a : A) : raises_only P (ret a).
Proof. intros self e; discriminate. Qed.

Lemma raises_only_read {A} P (f : GateSynthesis -> A) : raises_only P (read f).
Proof. intros self e; discriminate. Qed.

Lemma raises_only_assign P f : raises_only P (assign f).
Proof. intros self e; discriminate. Qed.

Lemma raises_only_print P line : raises_only P (print line).
Proof. intros self e; discriminate. Qed.

Lemma raises_only_lift {A} (P : exn -> Prop) (o : outcome A) :
  (forall e, o = Raise e -> P e) -> raises_only P (lift o).
Proof. intros H self e. apply H. Qed.

Lemma raises_only_call {A} (P : exn -> Prop) (f : GateSynthesis -> outcome A) :
  (forall self e, f self = Raise e -> P e) -> raises_only P (call f).
Proof. intros H self e. apply H. Qed.

Lemma raises_only_raise {A} (P : exn -> Prop) e : P e -> raises_only P (@raise A e).
Proof. intros H self e' E. injection E as <-. exact H. Qed.

Ltac raises_step :=
  match goal with
  | |- raises_only _ (bind _ _) => apply raises_only_bind; [|intros]
  | |- raises_only _ (ret _) => apply raises_only_ret
  | |- raises_only _ (read _) => apply raises_only_read
  | |- raises_only _ (assign _) => apply raises_only_assign
  | |- raises_only _ (print _) => apply raises_only_print
  | |- raises_only _ (lift (tensordot _ _ _ _)) =>
      apply raises_only_lift; intros ?; apply tensordot_raises
  | |- raises_only _ (lift (transpose ?t ?ax)) =>
      apply raises_only_lift; intros ?; apply (transpose_raises t ax)
  | |- raises_only _ (call have_winner) =>
      apply raises_only_call; apply have_winner_raises
  | |- raises_only _ (call get_observation) =>
      apply raises_only_call; apply get_observation_raises
  | |- raises_only _ (if ?b then _ else _) => destruct b
  | |- raises_only _ (let '(_, _) := ?p in _) => destruct p
  end.

Lemma apply_1q_gate_raises g k : raises_only numpy_error (apply_1q_gate g k).
Proof. unfold apply_1q_gate. repeat raises_step. Qed.

Lemma apply_2q_gate_raises g a b : raises_only numpy_error (apply_2q_gate g a b).
Proof. unfold apply_2q_gate. repeat raises_step. Qed.

Lemma conclude_raises : raises_only numpy_error conclude.
Proof. unfold conclude. repeat raises_step. Qed.

End Raises.

(* ================================================================= *)
(** ** [step] *)

Section Step.

Lemma list_getitem_out_of_range {A} (l : list A) (i : Z) :
  (i < - Z.of_nat (length l) \/ Z.of_nat (length l) <= i)%Z ->
  list_getitem l i = Raise (IndexError "list index out of range").
Proof.
  intros Hi. unfold list_getitem.
  destruct (Z.ltb_spec i 0).
  - destruct (Z.leb_spec 0 (i + Z.of_nat (length l))); [lia|reflexivity].
  - destruct (Z.leb_spec 0 i); [|lia].
    destruct (Z.ltb_spec i (Z.of_nat (length l))); [lia|reflexivity].
Qed.

Lemma list_getitem_in_range {A} (l : list A) (i : Z) (d : A) :
  (0 <= i < Z.of_nat (length l))%Z ->
  list_getitem l i = Return (nth (Z.to_nat i) l d).
Proof.
  intros Hi. unfold list_getitem.
  destruct (Z.ltb_spec i 0); [lia|].
  destruct (Z.leb_spec 0 i); [|lia].
  destruct (Z.ltb_spec i (Z.of_nat (length l))); [|lia]. simpl.
  rewrite (nth_error_nth' l d) by lia. reflexivity.
Qed.

(** A negative index no smaller than [-len(l)] counts from the end. *)
Lemma list_getitem_negative {A} (l : list A) (i : Z) :
  (- Z.of_nat (length l) <= i < 0)%Z ->
  list_getitem l i = list_getitem l (i + Z.of_nat (length l)).
Proof.
  intros Hi. unfold list_getitem.
  destruct (Z.ltb_spec i 0); [|lia].
  destruct (Z.ltb_spec (i + Z.of_nat (length l)) 0); [lia|]. reflexivity.
Qed.

Lemma list_getitem_raises {A} (l : list A) (i : Z) e :
  list_getitem l i = Raise e -> e = IndexError "list index out of range".
Proof.
  unfold list_getitem. destruct (_ && _)%bool.
  - destruct (nth_error l _); [discriminate|]. now intros E; injection E as <-.
  - now intros E; injection E as <-.
Qed.

Lemma step_unfold (a : Z) (self : GateSynthesis) :
  step a self =
  match list_getitem (full_action_list self) a with
  | Return entry =>
      bind (dispatch (fst (snd entry)) (snd (snd entry))) (fun _ => conclude) self
  | Raise e => (Raise e, self, [])
  end.
Proof.
  unfold step. rewrite bind_read.
  destruct (list_getitem (full_action_list self) a) as [entry|e].
  - now rewrite bind_lift_Return.
  - reflexivity.
Qed.

Lemma step_selects (a a' : Z) (self : GateSynthesis) :
  list_getitem (full_action_list self) a
  = list_getitem (full_action_list self) a' ->
  step a self = step a' self.
Proof. intros H. now rewrite !step_unfold, H. Qed.

(** C3, as the code has it: an index at or above the catalogue size, or
    below minus the catalogue size, makes [step] raise IndexError and leaves
    the object as it was; an index in [-K, 0) is not rejected, it selects
    the entry [K + index] as Python's list indexing does. *)
Theorem step_index_out_of_range (self : GateSynthesis) (a : Z) :
  let K := Z.of_nat (length (full_action_list self)) in
  ((a < - K \/ K <= a)%Z ->
   step a self = (Raise (IndexError "list index out of range"), self, [])) /\
  ((- K <= a < 0)%Z -> step a self = step (a + K) self).
Proof.
  intros K. split.
  - intros Ha. rewrite step_unfold.
    now rewrite (list_getitem_out_of_range (full_action_list self) a Ha).
  - intros Ha. apply step_selects. now apply list_getitem_negative.
Qed.

Lemma step_index_out_of_range_witness :
  step 2 (scenario 0)
  = (Raise (IndexError "list index out of range"), scenario 0, [])
  /\ step (-1) (scenario 0) = step (-1 + 2) (scenario 0).
Proof.
  split.
  - apply (proj1 (step_index_out_of_range (scenario 0) 2)). simpl. lia.
  - apply (proj2 (step_index_out_of_range (scenario 0) (-1))). simpl. lia.
Defined.

(** When every part of a [step] call returns, so does the call. *)
Lemma step_returns (a : Z) (self self1 : GateSynthesis) entry res out won obs :
  list_getitem (full_action_list self) a = Return entry ->
  dispatch (fst (snd entry)) (snd (snd entry)) self = (Return res, self1, out) ->
  have_winner self1 = Return won ->
  get_observation self1 = Return obs ->
  let done := won || (max_steps self1 <? nb_steps self1)%Z in
  step a self =
  (Return (obs, (if won then final_reward self1 else 0%Z), done), self1,
   out ++ (if done then ["######### FINISH!!!"] else [])).
Proof.
  intros Hget Hdis Hwin Hobs done. rewrite step_unfold, Hget.
  unfold bind at 1. rewrite Hdis. unfold conclude.
  rewrite bind_call, Hwin, !bind_read. fold done.
  destruct done.
  - rewrite bind_print, bind_call, Hwin, bind_read, bind_call, Hobs. reflexivity.
  - rewrite bind_ret, bind_call, Hwin, bind_read, bind_call, Hobs. reflexivity.
Qed.

End Step.

Section StepRuns.

Lemma shape_eqb_eq (s t : list nat) : shape_eqb s t = true <-> s = t.
Proof.
  revert t; induction s as [|x s IH]; intros [|y t]; simpl;
    try (split; [discriminate|discriminate]); [tauto|].
  rewrite andb_true_iff, Nat.eqb_eq, IH. split.
  - intros [-> ->]; reflexivity.
  - intros E; injection E as -> ->; auto.
Qed.

Lemma dispatch_1q (g : gate) (k : nat) :
  shape g = [2; 2] -> dispatch g (Qb k) = apply_1q_gate g k.
Proof. intros Hg. unfold dispatch. rewrite Hg. reflexivity. Qed.

Lemma dispatch_2q (g : gate) (a b : nat) :
  shape g = [2; 2; 2; 2] -> dispatch g (QbPair a b) = apply_2q_gate g a b.
Proof. intros Hg. unfold dispatch. rewrite Hg. reflexivity. Qed.

Lemma dispatch_unsupported (g : gate) (q : qbits) :
  shape g <> [2; 2] -> shape g <> [2; 2; 2; 2] ->
  dispatch g q = raise unsupported_gate.
Proof.
  intros H2 H4. unfold dispatch.
  destruct (shape_eqb (shape g) [2; 2; 2; 2]) eqn:E4;
    [apply shape_eqb_eq in E4; contradiction|].
  destruct (shape_eqb (shape g) [2; 2]) eqn:E2;
    [apply shape_eqb_eq in E2; contradiction|].
  reflexivity.
Qed.

Lemma dispatch_raises (g : gate) (q : qbits) :
  shape g = [2; 2] \/ shape g = [2; 2; 2; 2] ->
  raises_only numpy_error (dispatch g q).
Proof.
  intros [Hg|Hg]; unfold dispatch; rewrite Hg; simpl; destruct q.
  - apply apply_1q_gate_raises.
  - apply raises_only_raise. unfold numpy_error, unsupported_gate. discriminate.
  - apply raises_only_raise. unfold numpy_error, unsupported_gate. discriminate.
  - apply apply_2q_gate_raises.
Qed.

Lemma shape_all_two (sh : list nat) (n : nat) :
  length sh = n -> (forall i, i < n -> nth i sh 0 = 2) -> sh = repeat 2 n.
Proof.
  intros Hl Hn. apply (nth_ext _ _ 0 0).
  - now rewrite repeat_length.
  - intros i Hi. rewrite Hn by lia. symmetry. apply nth_repeat_lt. lia.
Qed.

(** A single-qubit action on a well-formed episode: [step] returns, the
    object keeps everything but its operator, and the new operator is the
    gate applied along the qubit's row axis. *)
Lemma step_1q_run (self : GateSynthesis) (a : Z) (i k N : nat) (g : gate) :
  list_getitem (full_action_list self) a = Return (i, (g, Qb k)) ->
  shape g = [2; 2] -> k < N -> nb_qbits self = N ->
  shape (curr_unitary_op self) = repeat 2 (2 * N) ->
  shape (target_unitary_op self) = repeat 2 (2 * N) ->
  exists res won obs,
    let done := won || (max_steps self <? nb_steps self)%Z in
    step a self =
    (Return (obs, (if won then final_reward self else 0%Z), done),
     set_curr_unitary_op res self,
     if done then ["######### FINISH!!!"] else []) /\
    shape res = repeat 2 (2 * N) /\
    (forall idx, in_shape idx (shape res) ->
       get res idx = matrix_on_axis (curr_unitary_op self) g (2 * k) idx) /\
    have_winner (set_curr_unitary_op res self) = Return won /\
    shape obs = [2; 2 ^ N; 2 ^ N].
Proof.
  intros Hget Hg Hk HN Hcur Htgt.
  assert (Hd : ndim (curr_unitary_op self) = 2 * N)
    by (unfold ndim; rewrite Hcur; apply repeat_length).
  assert (Hn2 : nth (2 * k) (shape (curr_unitary_op self)) 0 = 2)
    by (rewrite Hcur; apply nth_repeat_lt; lia).
  destruct (apply_1q_gate_run (curr_unitary_op self) g (2 * k) 2 2
              ltac:(lia) Hg Hn2 self k eq_refl
              ltac:(unfold qbit_num_to_tensor_index; lia))
    as (res & Hrun & Hnd & Hsh & Hval).
  rewrite Hd in Hnd, Hsh.
  assert (Hres : shape res = repeat 2 (2 * N)).
  { apply shape_all_two; [exact Hnd|]. intros j Hj. rewrite Hsh by exact Hj.
    destruct (j =? 2 * k); [reflexivity|].
    rewrite Hcur. now apply nth_repeat_lt. }
  set (self1 := set_curr_unitary_op res self).
  assert (Hw : exists won, have_winner self1 = Return won).
  { eexists. apply have_winner_same_shape. simpl. now rewrite Hres, Htgt. }
  destruct Hw as [won Hw].
  destruct (get_observation_returns self1) as (obs & Hobs & Hso).
  { simpl. now rewrite HN. }
  exists res, won, obs. simpl.
  split; [|split; [exact Hres|split; [exact Hval|split; [exact Hw|]]]].
  - rewrite <- (dispatch_1q g k Hg) in Hrun.
    apply (step_returns a self self1 _ res [] won obs Hget Hrun Hw Hobs).
  - simpl in Hso. now rewrite HN in Hso.
Qed.

End StepRuns.

(* ================================================================= *)
(** ** [step], as the claims state it *)

Section StepClaims.

(** C3 as stated fails: on the one-qubit scenario (two catalogue entries)
    [step(-1)] is outside [0, 2) and yet returns. *)
Lemma step_negative_index_accepted :
  ~ (forall (self : GateSynthesis) (a : Z),
       (a < 0 \/ Z.of_nat (length (full_action_list self)) <= a)%Z ->
       (exists msg, result (step a) self = Raise (IndexError msg)) /\
       after (step a) self = self).
Proof.
  intros H.
  destruct (H (scenario 0) (-1)%Z ltac:(left; lia)) as [[msg Hr] _].
  destruct (step_1q_run (scenario 0) (-1) 1 0 1 op_X)
    as (res & won & obs & Hstep & _); try reflexivity; try lia.
  unfold result in Hr. rewrite Hstep in Hr. discriminate.
Qed.

Lemma step_raises_unsupported (self : GateSynthesis) (a : Z) entry :
  list_getitem (full_action_list self) a = Return entry ->
  shape (fst (snd entry)) <> [2; 2] ->
  shape (fst (snd entry)) <> [2; 2; 2; 2] ->
  result (step a) self = Raise unsupported_gate.
Proof.
  intros Hget N2 N4. unfold result.
  rewrite step_unfold, Hget, dispatch_unsupported by assumption.
  reflexivity.
Qed.

Lemma step_unsupported_only (self : GateSynthesis) (a : Z) :
  result (step a) self = Raise unsupported_gate ->
  exists entry,
    list_getitem (full_action_list self) a = Return entry /\
    shape (fst (snd entry)) <> [2; 2] /\
    shape (fst (snd entry)) <> [2; 2; 2; 2].
Proof.
  intros Hr. unfold result in Hr. rewrite step_unfold in Hr.
  destruct (list_getitem (full_action_list self) a) as [entry|e] eqn:Hget.
  - exists entry. split; [reflexivity|].
    destruct (list_eq_dec Nat.eq_dec (shape (fst (snd entry))) [2; 2])
      as [E2|N2].
    { exfalso.
      apply (raises_only_bind numpy_error
               (dispatch (fst (snd entry)) (snd (snd entry)))
               (fun _ => conclude)
               (dispatch_raises _ _ (or_introl E2))
               (fun _ => conclude_raises) self unsupported_gate Hr).
      reflexivity. }
    destruct (list_eq_dec Nat.eq_dec (shape (fst (snd entry))) [2; 2; 2; 2])
      as [E4|N4].
    { exfalso.
      apply (raises_only_bind numpy_error
               (dispatch (fst (snd entry)) (snd (snd entry)))
               (fun _ => conclude)
               (dispatch_raises _ _ (or_intror E4))
               (fun _ => conclude_raises) self unsupported_gate Hr).
      reflexivity. }
    split; assumption.
  - simpl in Hr. injection Hr as ->.
    apply list_getitem_raises in Hget. discriminate.
Qed.

(** C8, as the code has it: [step] raises the "Unsupported gate dimension"
    error exactly when the selected gate's shape is neither (2, 2) nor
    (2, 2, 2, 2); a gate of shape (2, 2) goes to [apply_1q_gate], one of
    shape (2, 2, 2, 2) to [apply_2q_gate]; and the entries of the gate are
    not looked at: on a well-formed episode a single-qubit action returns
    whatever the 2x2 matrix is. *)
Theorem step_unsupported_gate (self : GateSynthesis) (a : Z) :
  (result (step a) self = Raise unsupported_gate <->
   exists entry,
     list_getitem (full_action_list self) a = Return entry /\
     shape (fst (snd entry)) <> [2; 2] /\
     shape (fst (snd entry)) <> [2; 2; 2; 2]) /\
  (forall g k, shape g = [2; 2] -> dispatch g (Qb k) = apply_1q_gate g k) /\
  (forall g qa qb,
     shape g = [2; 2; 2; 2] -> dispatch g (QbPair qa qb) = apply_2q_gate g qa qb) /\
  (forall i g k N,
     list_getitem (full_action_list self) a = Return (i, (g, Qb k)) ->
     shape g = [2; 2] -> k < N -> nb_qbits self = N ->
     shape (curr_unitary_op self) = repeat 2 (2 * N) ->
     shape (target_unitary_op self) = repeat 2 (2 * N) ->
     exists r, result (step a) self = Return r).
Proof.
  split; [|split; [exact dispatch_1q|split; [exact dispatch_2q|]]].
  - split; [apply step_unsupported_only|].
    intros (entry & Hget & N2 & N4). now apply (step_raises_unsupported _ _ entry).
  - intros i g k N Hget Hg Hk HN Hcur Htgt.
    destruct (step_1q_run self a i k N g Hget Hg Hk HN Hcur Htgt)
      as (res & won & obs & Hstep & _).
    eexists. unfold result. rewrite Hstep. reflexivity.
Qed.

Lemma step_unsupported_gate_witness :
  result (step 0) matrix_gate_episode = Raise unsupported_gate
  /\ exists r, result (step 1) (scenario 0) = Return r.
Proof.
  split.
  - apply (proj1 (step_unsupported_gate matrix_gate_episode 0)).
    exists (0, (cnot_matrix, Qb 0)).
    split; [reflexivity|split; discriminate].
  - apply (proj2 (proj2 (proj2 (step_unsupported_gate (scenario 0) 1)))
             1 op_X 0 1); try reflexivity; lia.
Defined.

(** C8 as stated fails: [cnot_matrix] has rank 2 and [step] raises the
    unsupported-gate error on it. *)
Lemma rank_two_gate_rejected :
  ~ (forall (self : GateSynthesis) (a : Z) entry,
       list_getitem (full_action_list self) a = Return entry ->
       (result (step a) self = Raise unsupported_gate <->
        ndim (fst (snd entry)) <> 2 /\ ndim (fst (snd entry)) <> 4)).
Proof.
  intros H.
  specialize (H matrix_gate_episode 0%Z (0, (cnot_matrix, Qb 0)) eq_refl).
  assert (Hr : result (step 0) matrix_gate_episode = Raise unsupported_gate).
  { apply (step_raises_unsupported _ _ (0, (cnot_matrix, Qb 0)));
      [reflexivity|discriminate|discriminate]. }
  destruct (proj1 H Hr) as [Hn _]. apply Hn. reflexivity.
Qed.

End StepClaims.

(* ================================================================= *)
(** ** The step counter *)

Section StepCounter.

Lemma in_shape_2_2 (idx : list nat) :
  in_shape idx [2; 2] ->
  idx = [0; 0] \/ idx = [0; 1] \/ idx = [1; 0] \/ idx = [1; 1].
Proof.
  intros H. inversion H as [|i ? idx' ? Hi H']; subst.
  inversion H' as [|j ? idx'' ? Hj H'']; subst. inversion H''; subst.
  destruct i as [|[|i]]; destruct j as [|[|j]]; try lia; auto.
Qed.

Lemma idle_scenario (max : Z) : idle max (scenario max).
Proof. split; [apply frame_refl|]. split; reflexivity || auto. Qed.

(** One more identity step: it returns reward 0 and done = False, and the
    run stays idle. *)
Lemma idle_step (max : Z) (s : GateSynthesis) :
  (0 <= max)%Z -> idle max s ->
  exists obs s',
    step 0 s = (Return (obs, 0%Z, false), s', []) /\ idle max s'.
Proof.
  intros Hmax (F & Hsh & Hval).
  pose proof F as (Hi & Ht & Hn & Hr & H1 & H2 & Hl & Hs & Hm & Htol & Hh & Hp).
  destruct (step_1q_run s 0 0 0 1 op_I)
    as (res & won & obs & Hstep & Hres & Hget & Hwin & Hobs);
    try reflexivity; try lia; try assumption.
  { rewrite Hl. reflexivity. }
  { now rewrite Ht. }
  assert (Hnew : forall idx, in_shape idx [2; 2] -> get res idx = get op_I idx).
  { intros idx Hin. rewrite Hget by (rewrite Hres; exact Hin).
    change (2 * 0) with 0. unfold matrix_on_axis. rewrite Hsh.
    destruct (in_shape_2_2 idx Hin) as [-> | [-> | [-> | ->]]].
    all: cbn [put firstn skipn app nth seq map].
    all: rewrite !Hval by (repeat constructor).
    all: unfold get, Csum, Cadd, Cmul; simpl; unfold C0, C1; f_equal; lra. }
  assert (Hlose : won = false).
  { rewrite have_winner_same_shape in Hwin
      by (simpl; rewrite Hres, Ht; reflexivity).
    injection Hwin as <-. apply not_true_is_false. intros Hall.
    rewrite forallb_forall in Hall.
    specialize (Hall [0; 0]). simpl target_unitary_op in Hall.
    rewrite Ht in Hall. specialize (Hall ltac:(simpl; auto)).
    apply within_tol_true in Hall. simpl curr_unitary_op in Hall.
    rewrite Hnew in Hall by (repeat constructor).
    simpl tol in Hall. rewrite Htol in Hall.
    revert Hall. unfold get, default_atol. simpl.
    rewrite ?Cabs_real by (simpl; lra); simpl.
    unfold Rabs; repeat destruct Rcase_abs; lra. }
  subst won. simpl in Hstep. rewrite Hs, Hm in Hstep. simpl in Hstep.
  destruct (Z.ltb_spec max 0); [lia|].
  exists obs, (set_curr_unitary_op res s). split; [exact Hstep|].
  split; [|split; [exact Hres|exact Hnew]].
  repeat split; assumption.
Qed.

Lemma idle_serve_all (max : Z) (n : nat) (s : GateSynthesis) :
  (0 <= max)%Z -> idle max s -> idle max (serve_all (repeat (Step 0) n) s).
Proof.
  intros Hmax. unfold serve_all. revert s.
  induction n as [|n IH]; intros s Hs; simpl; [exact Hs|].
  apply IH. destruct (idle_step max s Hmax Hs) as (obs & s' & Hstep & Hs').
  unfold after. now rewrite Hstep.
Qed.

Lemma idle_run (max : Z) (n : nat) :
  (0 <= max)%Z -> idle max (serve_all (repeat (Step 0) n) (scenario max)).
Proof. intros Hmax. apply idle_serve_all; [exact Hmax|apply idle_scenario]. Qed.

(** C1 on the code: in the scenario with gates identity and X and target X,
    after any number [n] of identity steps the step counter is still 0 and
    one more identity step returns reward 0 with done = False, however
    small [max_steps] is: [step] never increments [nb_steps], so the
    comparison with [max_steps] never ends an episode. *)
Theorem identity_steps_never_exhaust (max : Z) (n : nat) :
  (0 <= max)%Z ->
  let s := serve_all (repeat (Step 0) n) (scenario max) in
  nb_steps s = 0%Z /\ max_steps s = max /\
  exists obs s',
    step 0 s = (Return (obs, 0%Z, false), s', []) /\ nb_steps s' = 0%Z.
Proof.
  intros Hmax s. pose proof (idle_run max n Hmax) as Hs. fold s in Hs.
  destruct (idle_step max s Hmax Hs) as (obs & s' & Hstep & Hs').
  destruct Hs as ((_&_&_&_&_&_&_&Hn&Hm&_) & _).
  destruct Hs' as ((_&_&_&_&_&_&_&Hn'&_) & _).
  split; [exact Hn|]. split; [exact Hm|].
  exists obs, s'. split; [exact Hstep|exact Hn'].
Qed.

Lemma identity_steps_never_exhaust_witness :
  let s := serve_all (repeat (Step 0) 3) (scenario 2) in
  nb_steps s = 0%Z /\ max_steps s = 2%Z /\
  exists obs s',
    step 0 s = (Return (obs, 0%Z, false), s', []) /\ nb_steps s' = 0%Z.
Proof. apply (identity_steps_never_exhaust 2 3). lia. Defined.

(** No call of [step] changes the step counter. *)
Lemma step_keeps_nb_steps (a : Z) (self : GateSynthesis) :
  nb_steps (after (step a) self) = nb_steps self.
Proof.
  now destruct (framed_step_method a self) as (_&_&_&_&_&_&_&H&_).
Qed.

End StepCounter.

(* ================================================================= *)
(** ** The scenarios of the specification *)

Section Scenarios.

Lemma put_same (p : nat) (idx : list nat) :
  p < length idx -> put p (nth p idx 0) idx = idx.
Proof.
  intros Hp. apply (nth_ext _ _ 0 0).
  - now apply length_put.
  - intros m _. rewrite nth_put by exact Hp.
    now destruct (Nat.eqb_spec m p) as [->|].
Qed.

(** No-op law: the identity gate along an axis of dimension 2 leaves every
    element as it was. *)
Lemma identity_gate_no_op (T : ndarray complex) (p : nat) (idx : list nat) :
  nth p (shape T) 0 = 2 -> in_shape idx (shape T) ->
  matrix_on_axis T op_I p idx = get T idx.
Proof.
  intros Hn Hin.
  assert (Hp : p < length (shape T)).
  { destruct (Nat.lt_ge_cases p (length (shape T))) as [H|H]; [exact H|].
    rewrite nth_overflow in Hn by exact H. discriminate. }
  pose proof (in_shape_nth idx (shape T) p Hin Hp) as Hb. rewrite Hn in Hb.
  pose proof (in_shape_length _ _ Hin) as Hl.
  unfold matrix_on_axis. rewrite Hn. cbn [seq map].
  rewrite <- (put_same p idx) at 5 by lia.
  destruct (nth p idx 0) as [|[|i]]; [| |lia].
  - destruct (get T (put p 0 idx)) as [a b], (get T (put p 1 idx)) as [c d].
    unfold get, Csum, Cadd, Cmul; simpl. f_equal; lra.
  - destruct (get T (put p 0 idx)) as [a b], (get T (put p 1 idx)) as [c d].
    unfold get, Csum, Cadd, Cmul; simpl. f_equal; lra.
Qed.

(** End-to-end scenario 1: from the identity, the action of gate X reaches
    the target X at once: reward [final_reward], done = True. *)
Example scenario_step_X_wins :
  exists obs s',
    step 1 (scenario 1000) = (Return (obs, 100%Z, true), s', ["######### FINISH!!!"]).
Proof.
  destruct (step_1q_run (scenario 1000) 1 1 0 1 op_X)
    as (res & won & obs & Hstep & Hres & Hget & Hwin & Hobs);
    try reflexivity; try lia.
  assert (Hw : won = true).
  { rewrite have_winner_same_shape in Hwin by (simpl; now rewrite Hres).
    apply (f_equal (fun o => match o with Return b => b | Raise _ => true end))
      in Hwin.
    rewrite <- Hwin. clear Hwin Hstep.
    apply forallb_forall. intros idx Hin.
    apply in_indices in Hin. simpl in Hin.
    apply within_tol_true. simpl curr_unitary_op. simpl target_unitary_op.
    rewrite Hget by (rewrite Hres; exact Hin).
    unfold default_atol. simpl tol.
    destruct (in_shape_2_2 idx Hin) as [-> | [-> | [-> | ->]]].
    all: unfold matrix_on_axis, get, Csum, Cadd, Cmul, Csub; simpl.
    all: rewrite ?Cabs_real by (simpl; lra); simpl.
    all: unfold Rabs; repeat destruct Rcase_abs; lra. }
  subst won. exists obs, (set_curr_unitary_op res (scenario 1000)).
  exact Hstep.
Qed.

End Scenarios.

(* ================================================================= *)
(** ** Well-formed episodes never raise on catalogue indices *)

Section WellFormed.

Lemma in_product {A B} (xs : list A) (ys : list B) (x : A) (y : B) :
  In (x, y) (product xs ys) <-> In x xs /\ In y ys.
Proof.
  unfold product. rewrite in_flat_map. split.
  - intros (x' & Hx & Hin). apply in_map_iff in Hin.
    destruct Hin as (y' & E & Hy). injection E as -> ->. now split.
  - intros [Hx Hy]. exists x. split; [exact Hx|].
    apply in_map_iff. now exists y.
Qed.

(** Every catalogue entry pairs a single-qubit gate with a qubit in range,
    or a two-qubit gate with two distinct qubits in range. *)
Lemma catalogue_entries (G1 G2 : list gate) (N : nat) (i : nat) (g : gate)
  (q : qbits) :
  In (i, (g, q)) (make_full_action_list G1 G2 N) ->
  (In g G1 /\ exists k, q = Qb k /\ k < N) \/
  (In g G2 /\ exists a b, q = QbPair a b /\ a < N /\ b < N /\ a <> b).
Proof.
  rewrite catalogue_unfold. intros Hin. apply in_combine_r in Hin.
  apply in_app_or in Hin. destruct Hin as [Hin|Hin].
  - left. unfold q1_actions in Hin. apply in_map_iff in Hin.
    destruct Hin as ([g' k] & E & Hin). simpl in E. injection E as -> <-.
    apply in_product in Hin. destruct Hin as [Hg Hk]. apply in_seq in Hk.
    split; [exact Hg|]. exists k. split; [reflexivity|lia].
  - right. unfold q2_actions in Hin. apply in_map_iff in Hin.
    destruct Hin as ([g' [a b]] & E & Hin). simpl in E. injection E as -> <-.
    apply in_product in Hin. destruct Hin as [Hg Hab].
    apply in_coherent in Hab. split; [exact Hg|]. now exists a, b.
Qed.

Lemma list_getitem_indexable {A} (l : list A) (i : Z) :
  (- Z.of_nat (length l) <= i < Z.of_nat (length l))%Z ->
  exists x, list_getitem l i = Return x /\ In x l.
Proof.
  intros Hi. unfold list_getitem.
  set (j := if (i <? 0)%Z then (i + Z.of_nat (length l))%Z else i).
  assert (Hj : (0 <= j < Z.of_nat (length l))%Z)
    by (unfold j; destruct (Z.ltb_spec i 0); lia).
  destruct (Z.leb_spec 0 j); [|lia].
  destruct (Z.ltb_spec j (Z.of_nat (length l))); [|lia]. simpl.
  destruct (nth_error l (Z.to_nat j)) as [x|] eqn:E.
  - exists x. split; [reflexivity|]. eapply nth_error_In; eassumption.
  - apply nth_error_None in E. lia.
Qed.

(** A two-qubit action on a well-shaped episode: [step] returns and the new
    operator has the old shape. *)
Lemma step_2q_run (self : GateSynthesis) (a : Z) (i qa qb N : nat) (g : gate) :
  list_getitem (full_action_list self) a = Return (i, (g, QbPair qa qb)) ->
  shape g = [2; 2; 2; 2] -> qa < N -> qb < N -> qa <> qb ->
  nb_qbits self = N ->
  shape (curr_unitary_op self) = repeat 2 (2 * N) ->
  shape (target_unitary_op self) = repeat 2 (2 * N) ->
  exists res won obs,
    let done := won || (max_steps self <? nb_steps self)%Z in
    step a self =
    (Return (obs, (if won then final_reward self else 0%Z), done),
     set_curr_unitary_op res self,
     if done then ["######### FINISH!!!"] else []) /\
    shape res = repeat 2 (2 * N) /\
    (forall idx, in_shape idx (shape res) ->
       get res idx
       = gate_on_axes (curr_unitary_op self) g (2 * qa) (2 * qb) idx) /\
    have_winner (set_curr_unitary_op res self) = Return won /\
    shape obs = [2; 2 ^ N; 2 ^ N].
Proof.
  intros Hget Hg Ha Hb Hab HN Hcur Htgt.
  assert (Hd : ndim (curr_unitary_op self) = 2 * N)
    by (unfold ndim; rewrite Hcur; apply repeat_length).
  assert (Hna : nth (2 * qa) (shape (curr_unitary_op self)) 0 = 2)
    by (rewrite Hcur; apply nth_repeat_lt; lia).
  assert (Hnb : nth (2 * qb) (shape (curr_unitary_op self)) 0 = 2)
    by (rewrite Hcur; apply nth_repeat_lt; lia).
  destruct (apply_2q_gate_run (curr_unitary_op self) g (2 * qa) (2 * qb)
              2 2 2 2 ltac:(lia) ltac:(lia) ltac:(lia) Hg Hna Hnb
              self qa qb eq_refl
              ltac:(unfold qbit_num_to_tensor_index; lia)
              ltac:(unfold qbit_num_to_tensor_index; lia))
    as (res & Hrun & Hnd & Hsh & Hval).
  rewrite Hd in Hnd, Hsh.
  assert (Hres : shape res = repeat 2 (2 * N)).
  { apply shape_all_two; [exact Hnd|]. intros j Hj. rewrite Hsh by exact Hj.
    destruct (j =? 2 * qa); [reflexivity|].
    destruct (j =? 2 * qb); [reflexivity|].
    rewrite Hcur. now apply nth_repeat_lt. }
  set (self1 := set_curr_unitary_op res self).
  assert (Hw : exists won, have_winner self1 = Return won).
  { eexists. apply have_winner_same_shape. simpl. now rewrite Hres, Htgt. }
  destruct Hw as [won Hw].
  destruct (get_observation_returns self1) as (obs & Hobs & Hso).
  { simpl. now rewrite HN. }
  exists res, won, obs. simpl.
  split; [|split; [exact Hres|split; [exact Hval|split; [exact Hw|]]]].
  - rewrite <- (dispatch_2q g qa qb Hg) in Hrun.
    apply (step_returns a self self1 _ res [] won obs Hget Hrun Hw Hobs).
  - simpl in Hso. now rewrite HN in Hso.
Qed.

Lemma well_formed_init (q1 q2 : list gate) (rwd max : Z)
  (init_uop target_uop : ndarray complex) (tol : R) (N : nat) :
  shape init_uop = repeat 2 (2 * N) ->
  shape target_uop = repeat 2 (2 * N) ->
  Forall (fun g => shape g = [2; 2]) q1 ->
  Forall (fun g => shape g = [2; 2; 2; 2]) q2 ->
  well_formed N (GateSynthesis_init q1 q2 rwd max init_uop target_uop tol).
Proof.
  intros Hi Ht H1 H2.
  assert (HN : ndim init_uop / 2 = N).
  { unfold ndim. rewrite Hi, repeat_length.
    rewrite Nat.mul_comm. now apply Nat.div_mul. }
  unfold well_formed, GateSynthesis_init.
  cbn [nb_qbits init_unitary_op curr_unitary_op target_unitary_op
       full_action_list q1_gates q2_gates].
  rewrite HN. repeat split; assumption.
Qed.

Lemma well_formed_step (N : nat) (s : GateSynthesis) (a : Z) :
  well_formed N s ->
  (- Z.of_nat (length (full_action_list s)) <= a
   < Z.of_nat (length (full_action_list s)))%Z ->
  (exists x, result (step a) s = Return x) /\ well_formed N (after (step a) s).
Proof.
  intros (HN & Hi & Hc & Ht & Hl & H1 & H2) Ha.
  destruct (list_getitem_indexable (full_action_list s) a Ha)
    as ([i [g q]] & Hget & Hin).
  rewrite Hl in Hin. apply catalogue_entries in Hin.
  destruct Hin as [[Hg (k & -> & Hk)] | [Hg (qa & qb & -> & Hqa & Hqb & Hne)]].
  - pose proof (proj1 (Forall_forall _ _) H1 g Hg) as Hs.
    destruct (step_1q_run s a i k N g Hget Hs Hk HN Hc Ht)
      as (res & won & obs & Hstep & Hres & _).
    unfold result, after. rewrite Hstep. simpl. split; [eexists; reflexivity|].
    unfold well_formed; simpl. repeat split; assumption.
  - pose proof (proj1 (Forall_forall _ _) H2 g Hg) as Hs.
    destruct (step_2q_run s a i qa qb N g Hget Hs Hqa Hqb Hne HN Hc Ht)
      as (res & won & obs & Hstep & Hres & _).
    unfold result, after. rewrite Hstep. simpl. split; [eexists; reflexivity|].
    unfold well_formed; simpl. repeat split; assumption.
Qed.

Lemma well_formed_reset (N : nat) (s : GateSynthesis) :
  well_formed N s ->
  (exists obs, result reset s = Return obs) /\ well_formed N (after reset s).
Proof.
  intros (HN & Hi & Hc & Ht & Hl & H1 & H2).
  assert (W : well_formed N (after reset s)).
  { rewrite after_reset. unfold well_formed; simpl. repeat split; assumption. }
  split; [|exact W]. rewrite result_reset.
  destruct W as (HN' & _ & Hc' & _).
  destruct (get_observation_returns (after reset s)) as (obs & Hobs & _).
  - now rewrite HN'.
  - now exists obs.
Qed.

Lemma length_catalogue_kept (r : request) (s : GateSynthesis) :
  full_action_list (serve r s) = full_action_list s.
Proof.
  destruct r as [|a]; simpl.
  - reflexivity.
  - now destruct (framed_step_method a s) as (_&_&_&_&_&_&H&_).
Qed.

Lemma well_formed_serve_all (N : nat) (rs : list request) (s : GateSynthesis) :
  well_formed N s ->
  Forall (indexable (length (full_action_list s))) rs ->
  all_return rs s /\ well_formed N (serve_all rs s).
Proof.
  revert s; induction rs as [|r rs IH]; intros s W Hrs; simpl.
  - split; [exact I|exact W].
  - inversion Hrs as [|? ? Hr Hrs']; subst.
    assert (Hone : returns r s /\ well_formed N (serve r s)).
    { destruct r as [|a]; simpl.
      - now apply well_formed_reset.
      - now apply well_formed_step. }
    destruct Hone as [Hret W'].
    rewrite <- (length_catalogue_kept r s) in Hrs'.
    destruct (IH (serve r s) W' Hrs') as [Hall W''].
    split; [split; assumption|exact W''].
Qed.

(** X1: an episode built by [__init__] from operators of shape (2,)*2N,
    single-qubit gates of shape (2, 2) and two-qubit gates of shape
    (2, 2, 2, 2) never raises: whatever sequence of [reset] and [step] calls
    is made with action indices in [-K, K), K the catalogue size, every call
    returns, and the current operator keeps the shape (2,)*2N. *)
Theorem well_formed_episode_never_raises
  (q1 q2 : list gate) (rwd max : Z) (init_uop target_uop : ndarray complex)
  (tol : R) (N : nat) (calls : list request) :
  shape init_uop = repeat 2 (2 * N) ->
  shape target_uop = repeat 2 (2 * N) ->
  Forall (fun g => shape g = [2; 2]) q1 ->
  Forall (fun g => shape g = [2; 2; 2; 2]) q2 ->
  Forall (indexable (length q1 * N + length q2 * (N * (N - 1)))) calls ->
  let e := GateSynthesis_init q1 q2 rwd max init_uop target_uop tol in
  all_return calls e /\
  shape (curr_unitary_op (serve_all calls e)) = repeat 2 (2 * N).
Proof.
  intros Hi Ht H1 H2 Hcalls e.
  pose proof (well_formed_init q1 q2 rwd max init_uop target_uop tol N
                Hi Ht H1 H2) as W. fold e in W.
  assert (HK : length (full_action_list e)
               = length q1 * N + length q2 * (N * (N - 1))).
  { destruct W as (_&_&_&_&Hl&_). rewrite Hl. apply length_catalogue. }
  rewrite <- HK in Hcalls.
  destruct (well_formed_serve_all N calls e W Hcalls) as [Hall W'].
  split; [exact Hall|]. now destruct W' as (_&_&Hc&_).
Qed.

Lemma well_formed_episode_never_raises_witness :
  let e := GateSynthesis_init [op_I; op_X] [probe_gate] 100 10
             (identity_op 2) (identity_op 2) 1e-3 in
  let calls := [Step 0; Step 5; Reset; Step (-1); Step 3]%Z in
  all_return calls e /\
  shape (curr_unitary_op (serve_all calls e)) = repeat 2 (2 * 2).
Proof.
  apply (well_formed_episode_never_raises [op_I; op_X] [probe_gate] 100 10
           (identity_op 2) (identity_op 2) 1e-3 2).
  - reflexivity.
  - reflexivity.
  - repeat constructor.
  - repeat constructor.
  - repeat constructor; simpl; lia.
Defined.

End WellFormed.

(* ================================================================= *)
(** ** What a [step] call leaves behind *)

Section StepOutcome.

Lemma silent_bind {A B} (m : method A) (k : A -> method B) :
  silent m -> (forall a, silent (k a)) -> silent (bind m k).
Proof.
  intros Hm Hk self. unfold bind. specialize (Hm self).
  destruct (m self) as [[[a|e] s'] out]; simpl in *; [|exact Hm].
  specialize (Hk a s'). destruct (k a s') as [[r s''] out']. simpl in *.
  now rewrite Hm, Hk.
Qed.

Lemma silent_apply_1q_gate g k : silent (apply_1q_gate g k).
Proof.
  unfold apply_1q_gate.
  repeat (apply silent_bind; [|intros]); intros self; reflexivity.
Qed.

Lemma silent_apply_2q_gate g a b : silent (apply_2q_gate g a b).
Proof.
  unfold apply_2q_gate.
  apply silent_bind; [intros self; reflexivity|intros curr].
  apply silent_bind; [intros self; reflexivity|intros t].
  destruct (_ <? _);
    repeat (apply silent_bind; [|intros]); intros self; reflexivity.
Qed.

Lemma silent_dispatch g q : silent (dispatch g q).
Proof.
  unfold dispatch.
  destruct (shape_eqb _ _); [destruct q|destruct (shape_eqb _ _); [destruct q|]];
    try (intros self; reflexivity);
    auto using silent_apply_1q_gate, silent_apply_2q_gate.
Qed.

(** The appliers store their result only after both NumPy calls returned:
    when they raise, the object is as it was. *)
Lemma apply_1q_gate_raise_keeps g k self e :
  result (apply_1q_gate g k) self = Raise e ->
  after (apply_1q_gate g k) self = self.
Proof.
  unfold result, after, apply_1q_gate. rewrite bind_read.
  destruct (tensordot _ _ _ _) as [t|e1]; [|reflexivity].
  rewrite bind_lift_Return.
  destruct (transpose _ _) as [r|e2]; [|reflexivity].
  rewrite bind_lift_Return, bind_assign. discriminate.
Qed.

Lemma apply_2q_gate_raise_keeps g a b self e :
  result (apply_2q_gate g a b) self = Raise e ->
  after (apply_2q_gate g a b) self = self.
Proof.
  unfold result, after, apply_2q_gate. rewrite bind_read.
  destruct (tensordot _ _ _ _) as [t|e1]; [|reflexivity].
  rewrite bind_lift_Return.
  destruct (_ <? _).
  - destruct (transpose _ _) as [r|e2]; [|reflexivity].
    rewrite bind_lift_Return, bind_assign. discriminate.
  - destruct (transpose _ _) as [r|e2]; [|reflexivity].
    rewrite bind_lift_Return, bind_assign. discriminate.
Qed.

Lemma dispatch_raise_keeps g q self e :
  result (dispatch g q) self = Raise e -> after (dispatch g q) self = self.
Proof.
  unfold dispatch.
  destruct (shape_eqb _ _); [destruct q|destruct (shape_eqb _ _); [destruct q|]];
    try reflexivity;
    eauto using apply_1q_gate_raise_keeps, apply_2q_gate_raise_keeps.
Qed.

Lemma apply_1q_gate_return_sets g k self res :
  result (apply_1q_gate g k) self = Return res ->
  after (apply_1q_gate g k) self = set_curr_unitary_op res self.
Proof.
  unfold result, after, apply_1q_gate. rewrite bind_read.
  destruct (tensordot _ _ _ _) as [t|e1]; [|discriminate].
  rewrite bind_lift_Return.
  destruct (transpose _ _) as [r|e2]; [|discriminate].
  rewrite bind_lift_Return, bind_assign. simpl. now intros E; injection E as ->.
Qed.

Lemma apply_2q_gate_return_sets g a b self res :
  result (apply_2q_gate g a b) self = Return res ->
  after (apply_2q_gate g a b) self = set_curr_unitary_op res self.
Proof.
  unfold result, after, apply_2q_gate. rewrite bind_read.
  destruct (tensordot _ _ _ _) as [t|e1]; [|discriminate].
  rewrite bind_lift_Return.
  destruct (_ <? _).
  - destruct (transpose _ _) as [r|e2]; [|discriminate].
    rewrite bind_lift_Return, bind_assign. simpl.
    now intros E; injection E as ->.
  - destruct (transpose _ _) as [r|e2]; [|discriminate].
    rewrite bind_lift_Return, bind_assign. simpl.
    now intros E; injection E as ->.
Qed.

Lemma dispatch_return_sets g q self res :
  result (dispatch g q) self = Return res ->
  after (dispatch g q) self = set_curr_unitary_op res self.
Proof.
  unfold dispatch.
  destruct (shape_eqb _ _); [destruct q|destruct (shape_eqb _ _); [destruct q|]];
    try discriminate;
    eauto using apply_1q_gate_return_sets, apply_2q_gate_return_sets.
Qed.

(** X2: when [step] returns [(obs, reward, done)], the object differs from
    the one before at most in its current operator; the reward is
    [final_reward] if [have_winner] holds of the new operator and 0
    otherwise; [done] is that verdict or [nb_steps > max_steps]; the line
    "FINISH" is printed exactly when [done]; and [obs] is the encoding of
    the new operator. *)
Theorem step_postcondition (self s' : GateSynthesis) (a : Z)
  (obs : ndarray R) (reward : Z) (done : bool) (out : list string) :
  step a self = (Return (obs, reward, done), s', out) ->
  frame self s' /\
  exists won,
    have_winner s' = Return won /\
    reward = (if won then final_reward self else 0%Z) /\
    done = won || (max_steps self <? nb_steps self)%Z /\
    out = (if done then ["######### FINISH!!!"] else []) /\
    get_observation s' = Return obs.
Proof.
  intros Hstep.
  pose proof (framed_step_method a self) as F.
  unfold after in F. rewrite Hstep in F. simpl in F.
  split; [exact F|].
  destruct F as (_&_&_&Hr&_&_&_&Hn&Hm&_).
  rewrite step_unfold in Hstep.
  destruct (list_getitem (full_action_list self) a) as [entry|e];
    [|discriminate].
  unfold bind at 1 in Hstep.
  pose proof (silent_dispatch (fst (snd entry)) (snd (snd entry)) self) as Hq.
  destruct (dispatch (fst (snd entry)) (snd (snd entry)) self)
    as [[[res|e] s1] out1]; [|discriminate].
  simpl in Hq. subst out1. unfold conclude in Hstep.
  rewrite bind_call in Hstep.
  destruct (have_winner s1) as [won|e] eqn:Hw; [|discriminate].
  rewrite !bind_read in Hstep.
  destruct (won || (max_steps s1 <? nb_steps s1)%Z) eqn:Hd.
  - rewrite bind_print, bind_call, Hw, bind_read, bind_call in Hstep.
    destruct (get_observation s1) as [o|e] eqn:Ho; [|discriminate].
    simpl in Hstep. injection Hstep as <- <- <- <- <-.
    exists won. rewrite <- Hr, <- Hn, <- Hm, Hd. repeat split; assumption.
  - rewrite bind_ret, bind_call, Hw, bind_read, bind_call in Hstep.
    destruct (get_observation s1) as [o|e] eqn:Ho; [|discriminate].
    simpl in Hstep. injection Hstep as <- <- <- <- <-.
    exists won. rewrite <- Hr, <- Hn, <- Hm, Hd. repeat split; assumption.
Qed.

Lemma step_postcondition_witness :
  exists obs s',
    step 1 (scenario 1000)
    = (Return (obs, 100%Z, true), s', ["######### FINISH!!!"]) /\
    frame (scenario 1000) s' /\
    exists won,
      have_winner s' = Return won /\
      100%Z = (if won then final_reward (scenario 1000) else 0%Z) /\
      true = won || (max_steps (scenario 1000) <? nb_steps (scenario 1000))%Z /\
      ["######### FINISH!!!"]
      = (if true then ["######### FINISH!!!"] else []) /\
      get_observation s' = Return obs.
Proof.
  destruct scenario_step_X_wins as (obs & s' & Hstep).
  exists obs, s'. split; [exact Hstep|].
  exact (step_postcondition (scenario 1000) s' 1 obs 100 true _ Hstep).
Defined.

(** X3: a [step] call that raises either leaves the object untouched (bad
    index, unsupported gate shape, failure inside the applier) or has
    already replaced the current operator, the exception then coming from
    [have_winner] or [get_observation] on the new operator; nothing else
    is ever changed. *)
Theorem step_raise_leaves (self : GateSynthesis) (a : Z) (e : exn) :
  result (step a) self = Raise e ->
  after (step a) self = self \/
  exists res,
    after (step a) self = set_curr_unitary_op res self /\
    (have_winner (set_curr_unitary_op res self) = Raise e \/
     get_observation (set_curr_unitary_op res self) = Raise e).
Proof.
  unfold result, after. rewrite step_unfold.
  destruct (list_getitem (full_action_list self) a) as [entry|e0];
    [|left; reflexivity].
  set (g := fst (snd entry)). set (q := snd (snd entry)).
  change (result (bind (dispatch g q) (fun _ => conclude)) self = Raise e ->
          after (bind (dispatch g q) (fun _ => conclude)) self = self \/
          exists res,
            after (bind (dispatch g q) (fun _ => conclude)) self
            = set_curr_unitary_op res self /\
            (have_winner (set_curr_unitary_op res self) = Raise e \/
             get_observation (set_curr_unitary_op res self) = Raise e)).
  rewrite result_bind, after_bind.
  destruct (result (dispatch g q) self) as [res|e1] eqn:Hd.
  - rewrite (dispatch_return_sets g q self res Hd).
    set (s1 := set_curr_unitary_op res self).
    intros Hr. right. exists res.
    revert Hr. unfold result, after, conclude. rewrite bind_call.
    destruct (have_winner s1) as [won|e2] eqn:Hw.
    + rewrite !bind_read.
      destruct (won || (max_steps s1 <? nb_steps s1)%Z).
      * rewrite bind_print, bind_call, Hw, bind_read, bind_call.
        destruct (get_observation s1) as [o|e3] eqn:Ho; cbn [fst snd];
          [discriminate|].
        intros E; injection E as ->. split; [reflexivity|right; exact Ho].
      * rewrite bind_ret, bind_call, Hw, bind_read, bind_call.
        destruct (get_observation s1) as [o|e3] eqn:Ho; cbn [fst snd];
          [discriminate|].
        intros E; injection E as ->. split; [reflexivity|right; exact Ho].
    + cbn [fst snd]. intros E; injection E as ->.
      split; [reflexivity|left; exact Hw].
  - intros _. left. now apply (dispatch_raise_keeps g q self e1).
Qed.

End StepOutcome.

Section StepRaises.

Lemma step_raise_leaves_witness :
  after (step 2) (scenario 0) = scenario 0 \/
  exists res,
    after (step 2) (scenario 0) = set_curr_unitary_op res (scenario 0) /\
    (have_winner (set_curr_unitary_op res (scenario 0))
     = Raise (IndexError "list index out of range") \/
     get_observation (set_curr_unitary_op res (scenario 0))
     = Raise (IndexError "list index out of range")).
Proof.
  apply (step_raise_leaves (scenario 0) 2 (IndexError "list index out of range")).
  reflexivity.
Defined.

(** X4: [step] is not atomic.  When the target cannot be broadcast against
    an operator of shape (2,)*2N (nothing checks it at construction), a
    single-qubit action raises the broadcast error of [np.allclose], and the
    gate has already been applied: the object holds the new operator. *)
Theorem step_mutates_before_raising
  (self : GateSynthesis) (a : Z) (i k N : nat) (g : gate) :
  list_getitem (full_action_list self) a = Return (i, (g, Qb k)) ->
  shape g = [2; 2] -> k < N ->
  shape (curr_unitary_op self) = repeat 2 (2 * N) ->
  broadcast_shapes (repeat 2 (2 * N)) (shape (target_unitary_op self)) = None ->
  exists res,
    step a self =
    (Raise (ValueError "operands could not be broadcast together"),
     set_curr_unitary_op res self, []) /\
    shape res = repeat 2 (2 * N) /\
    forall idx, in_shape idx (shape res) ->
      get res idx = matrix_on_axis (curr_unitary_op self) g (2 * k) idx.
Proof.
  intros Hget Hg Hk Hcur Hb.
  assert (Hd : ndim (curr_unitary_op self) = 2 * N)
    by (unfold ndim; rewrite Hcur; apply repeat_length).
  assert (Hn2 : nth (2 * k) (shape (curr_unitary_op self)) 0 = 2)
    by (rewrite Hcur; apply nth_repeat_lt; lia).
  destruct (apply_1q_gate_run (curr_unitary_op self) g (2 * k) 2 2
              ltac:(lia) Hg Hn2 self k eq_refl
              ltac:(unfold qbit_num_to_tensor_index; lia))
    as (res & Hrun & Hnd & Hsh & Hval).
  rewrite Hd in Hnd, Hsh.
  assert (Hres : shape res = repeat 2 (2 * N)).
  { apply shape_all_two; [exact Hnd|]. intros j Hj. rewrite Hsh by exact Hj.
    destruct (j =? 2 * k); [reflexivity|].
    rewrite Hcur. now apply nth_repeat_lt. }
  exists res. split; [|split; [exact Hres|exact Hval]].
  rewrite step_unfold, Hget. cbn [fst snd].
  rewrite (dispatch_1q g k Hg). unfold bind at 1. rewrite Hrun.
  unfold conclude. rewrite bind_call.
  unfold have_winner, allclose. cbn [curr_unitary_op target_unitary_op set_curr_unitary_op].
  rewrite Hres, Hb. reflexivity.
Qed.

Lemma step_mutates_before_raising_witness :
  exists res,
    step 0 mismatched_target_episode =
    (Raise (ValueError "operands could not be broadcast together"),
     set_curr_unitary_op res mismatched_target_episode, []) /\
    shape res = repeat 2 (2 * 1) /\
    forall idx, in_shape idx (shape res) ->
      get res idx
      = matrix_on_axis (curr_unitary_op mismatched_target_episode) op_X
          (2 * 0) idx.
Proof.
  apply (step_mutates_before_raising mismatched_target_episode 0 0 0 1 op_X);
    try reflexivity; lia.
Defined.

End StepRaises.

(* ================================================================= *)
(** ** More on the catalogue, the appliers and the convergence test *)

Section MoreCatalogue.

Lemma map_fst_combine_seq {A} (l : list A) (s : nat) :
  map fst (combine (seq s (length l)) l) = seq s (length l).
Proof.
  revert s; induction l as [|x l IH]; intros s; simpl; [reflexivity|].
  now rewrite IH.
Qed.

(** X5: every entry of the catalogue is usable: it carries a gate of G1 with
    a qubit below N, or a gate of G2 with two distinct qubits below N; and
    the indices carried are 0, 1, ..., K-1 in this order. *)
Theorem catalogue_sound (G1 G2 : list gate) (N : nat) :
  let cat := make_full_action_list G1 G2 N in
  (forall i g q, In (i, (g, q)) cat ->
     (In g G1 /\ exists k, q = Qb k /\ k < N) \/
     (In g G2 /\ exists a b, q = QbPair a b /\ a < N /\ b < N /\ a <> b)) /\
  map fst cat = seq 0 (length cat).
Proof.
  intros cat. split.
  - intros i g q. apply catalogue_entries.
  - unfold cat. rewrite catalogue_unfold. unfold action.
    rewrite map_fst_combine_seq, length_combine, length_seq, Nat.min_id.
    reflexivity.
Qed.

Lemma catalogue_sound_witness :
  (In op_X [op_I; op_X] /\ exists k, Qb 1 = Qb k /\ k < 2) \/
  (In op_X [probe_gate] /\
   exists a b, Qb 1 = QbPair a b /\ a < 2 /\ b < 2 /\ a <> b).
Proof.
  apply (proj1 (catalogue_sound [op_I; op_X] [probe_gate] 2) 3 op_X (Qb 1)).
  simpl. auto 10.
Defined.

End MoreCatalogue.

Section ApplierErrors.

(** X6: called with a qubit whose axis [2k] is beyond the operator's rank,
    [apply_1q_gate] raises IndexError; called with a matrix whose number of
    columns differs from the dimension of axis [2k], it raises the
    shape-mismatch ValueError; [apply_2q_gate] called with twice the same
    qubit raises ValueError.  In each case the object is left as it was. *)
Theorem applier_errors (self : GateSynthesis) (g : gate) (k : nat) :
  (ndim (curr_unitary_op self) <= 2 * k ->
   apply_1q_gate g k self
   = (Raise (IndexError "tuple index out of range"), self, [])) /\
  (forall m n,
     2 * k < ndim (curr_unitary_op self) -> shape g = [m; n] ->
     nth (2 * k) (shape (curr_unitary_op self)) 0 <> n ->
     apply_1q_gate g k self
     = (Raise (ValueError "shape-mismatch for sum"), self, [])) /\
  (forall m0 n0 m1 n1,
     2 * k < ndim (curr_unitary_op self) -> shape g = [m0; n0; m1; n1] ->
     nth (2 * k) (shape (curr_unitary_op self)) 0 = n0 -> n0 = n1 ->
     apply_2q_gate g k k self
     = (Raise (ValueError "axes don't match array"), self, [])).
Proof.
  split; [|split].
  - intros Hk. unfold apply_1q_gate. rewrite bind_read.
    unfold tensordot, qbit_num_to_tensor_index. simpl length. simpl Nat.eqb.
    simpl axes_agree.
    assert (E : nth_error (shape (curr_unitary_op self)) (k * 2) = None)
      by (apply nth_error_None; unfold ndim in Hk; lia).
    rewrite E. reflexivity.
  - intros m n Hk Hg Hn. unfold apply_1q_gate. rewrite bind_read.
    unfold tensordot, qbit_num_to_tensor_index. simpl length. simpl Nat.eqb.
    simpl axes_agree. replace (k * 2) with (2 * k) by lia.
    rewrite (nth_error_nth' (shape (curr_unitary_op self)) 0 Hk), Hg.
    simpl nth_error.
    destruct (Nat.eqb_spec (nth (2 * k) (shape (curr_unitary_op self)) 0) n);
      [contradiction|reflexivity].
  - intros m0 n0 m1 n1 Hk Hg Hn0 Hn1. unfold apply_2q_gate. rewrite bind_read.
    unfold tensordot, qbit_num_to_tensor_index. simpl length. simpl Nat.eqb.
    simpl axes_agree. replace (k * 2) with (2 * k) by lia.
    rewrite (nth_error_nth' (shape (curr_unitary_op self)) 0 Hk), Hg, Hn0.
    simpl nth_error. subst n1. rewrite Nat.eqb_refl.
    cbn [obind negb]. unfold transpose at 1.
    assert (Hlen : length (notin (ndim (curr_unitary_op self)) [2 * k; 2 * k]
                           ++ [2 * k; 2 * k])
                   <> ndim (curr_unitary_op self)).
    { rewrite length_app. change (length [2 * k; 2 * k]) with 2.
      assert (E : notin (ndim (curr_unitary_op self)) [2 * k; 2 * k]
                  = notin (ndim (curr_unitary_op self)) [2 * k]).
      { unfold notin. apply filter_ext. intros x. cbn [existsb].
        now destruct (x =? 2 * k). }
      rewrite E, notin_one, length_app, !length_seq by exact Hk. lia. }
    destruct (Nat.eqb_spec
                (length (notin (ndim (curr_unitary_op self)) [2 * k; 2 * k]
                         ++ [2 * k; 2 * k]))
                (ndim (curr_unitary_op self))); [contradiction|].
    reflexivity.
Qed.

Lemma applier_errors_witness :
  apply_1q_gate op_X 1 (scenario 0)
  = (Raise (IndexError "tuple index out of range"), scenario 0, [])
  /\ apply_1q_gate cnot_matrix 0 (scenario 0)
     = (Raise (ValueError "shape-mismatch for sum"), scenario 0, [])
  /\ apply_2q_gate probe_gate 1 1 two_qubit_episode
     = (Raise (ValueError "axes don't match array"), two_qubit_episode, []).
Proof.
  split; [|split].
  - apply (proj1 (applier_errors (scenario 0) op_X 1)). vm_compute; lia.
  - apply (proj1 (proj2 (applier_errors (scenario 0) cnot_matrix 0)) 4 4).
    + vm_compute; lia.
    + reflexivity.
    + vm_compute; lia.
  - apply (proj2 (proj2 (applier_errors two_qubit_episode probe_gate 1))
             2 2 2 2).
    + vm_compute; lia.
    + reflexivity.
    + reflexivity.
    + reflexivity.
Defined.

(** X7: [__init__] accepts an operator of odd rank (it takes the qubit count
    to be half the rank, rounded down), but the encoder then cannot
    transpose it: [reset] raises ValueError. *)
Theorem odd_rank_reset_raises
  (q1 q2 : list gate) (rwd max : Z) (init_uop target_uop : ndarray complex)
  (tol : R) :
  Nat.odd (ndim init_uop) = true ->
  result reset (GateSynthesis_init q1 q2 rwd max init_uop target_uop tol)
  = Raise (ValueError "axes don't match array").
Proof.
  intros Hodd. rewrite result_reset, after_reset.
  unfold get_observation, GateSynthesis_init.
  cbn [nb_qbits curr_unitary_op init_unitary_op set_curr_unitary_op
       set_nb_steps set_distance_history].
  unfold transpose. rewrite length_observation_axes.
  assert (Hne : 2 * (ndim init_uop / 2) <> ndim init_uop).
  { pose proof (Nat.div_mod_eq (ndim init_uop) 2) as E.
    assert (Hm : ndim init_uop mod 2 = 1).
    { rewrite <- Nat.bit0_mod, Nat.bit0_odd, Hodd. reflexivity. }
    lia. }
  destruct (Nat.eqb_spec (2 * (ndim init_uop / 2)) (ndim init_uop));
    [contradiction|reflexivity].
Qed.

Lemma odd_rank_reset_raises_witness :
  result reset
    (GateSynthesis_init [op_X] [] 100 10 (mk_ndarray [3] [C0; C0; C0]) op_X 1e-3)
  = Raise (ValueError "axes don't match array").
Proof.
  apply (odd_rank_reset_raises [op_X] [] 100 10
           (mk_ndarray [3] [C0; C0; C0]) op_X 1e-3).
  reflexivity.
Defined.

End ApplierErrors.

Section Convergence.

Lemma Cabs_sub_same (x : complex) : Cabs (Csub x x) = 0%R.
Proof.
  rewrite Cabs_real by (simpl; lra). simpl.
  replace (Re x - Re x)%R with 0%R by lra. apply Rabs_R0.
Qed.

Lemma forallb_impl {A} (f g : A -> bool) (l : list A) :
  (forall x, In x l -> f x = true -> g x = true) ->
  forallb f l = true -> forallb g l = true.
Proof.
  intros H Hf. apply forallb_forall. intros x Hx.
  apply (H x Hx). now apply (proj1 (forallb_forall f l) Hf).
Qed.

(** X8: with a tolerance [tol >= 0], an operator that is its own target is a
    winner, whatever its shape and entries; and widening the tolerance never
    turns a winner into a non-winner. *)
Theorem have_winner_reflexive_monotone (self : GateSynthesis) :
  ((0 <= tol self)%R ->
   curr_unitary_op self = target_unitary_op self ->
   have_winner self = Return true) /\
  (forall t,
     (tol self <= t)%R ->
     have_winner self = Return true ->
     have_winner (with_tol t self) = Return true).
Proof.
  split.
  - intros Htol Heq. rewrite have_winner_same_shape by now rewrite Heq.
    f_equal. apply forallb_forall. intros idx _. apply within_tol_true.
    rewrite Heq, Cabs_sub_same. unfold default_atol.
    pose proof (Cabs_nonneg (get (target_unitary_op self) idx)). nra.
  - intros t Ht. unfold have_winner, allclose.
    cbn [curr_unitary_op target_unitary_op tol with_tol].
    destruct (broadcast_shapes _ _) as [sh|]; [|discriminate].
    intros E. f_equal.
    apply (f_equal (fun o => match o with Return b => b | Raise _ => true end))
      in E.
    revert E. apply forallb_impl. intros idx _ H.
    apply within_tol_true in H. apply within_tol_true.
    pose proof (Cabs_nonneg
                  (get (target_unitary_op self)
                       (broadcast_index (shape (target_unitary_op self)) idx))).
    nra.
Qed.

Lemma have_winner_reflexive_monotone_witness :
  have_winner (identity_episode 2) = Return true
  /\ have_winner (with_tol 1 near_identity_episode) = Return true.
Proof.
  split.
  - apply (proj1 (have_winner_reflexive_monotone (identity_episode 2))).
    + simpl. lra.
    + reflexivity.
  - apply (proj2 (have_winner_reflexive_monotone near_identity_episode) 1%R).
    + simpl. lra.
    + exact near_identity_wins.
Defined.

End Convergence.

(* ================================================================= *)
(** ** The [Game] wrapper *)

Section GameWrapper.

Lemma Game_play_env (actions : list Z) (g : Game) :
  env (Game_play actions g) = serve_all (map Step actions) (env g).
Proof.
  unfold Game_play, serve_all. revert g.
  induction actions as [|a l IH]; intros g; simpl; [reflexivity|].
  now rewrite IH.
Qed.

Lemma in_legal_actions (g : Game) (a : Z) :
  In a (Game_legal_actions g) <->
  (0 <= a < Z.of_nat (length (full_action_list (env g))))%Z.
Proof.
  unfold Game_legal_actions. rewrite in_map_iff. split.
  - intros (n & <- & Hn). apply in_seq in Hn. lia.
  - intros Ha. exists (Z.to_nat a). split; [lia|]. apply in_seq. lia.
Qed.

(** X9: a game built from single-qubit gates of shape (2, 2), a start
    operator and targets of shape (2, 2) offers the actions
    0 .. len(QB1GATES)-1, and handles every one of them: after any sequence
    of legal moves, [step] returns on each legal action.  With an empty list
    of targets the constructor raises. *)
Theorem game_handles_legal_actions
  (QB1GATES : list gate) (I_op : ndarray complex) (randomise : bool)
  (poss_targets : list (ndarray complex)) (draw : Z) :
  (Forall (fun g => shape g = [2; 2]) QB1GATES ->
   shape I_op = [2; 2] ->
   Forall (fun t => shape t = [2; 2]) poss_targets ->
   poss_targets <> [] ->
   (randomise = true -> (0 <= draw < Z.of_nat (length poss_targets))%Z) ->
   exists game,
     Game_init QB1GATES I_op randomise poss_targets draw = Return game /\
     Game_legal_actions game = map Z.of_nat (seq 0 (length QB1GATES)) /\
     forall moves a,
       Forall (fun m => In m (Game_legal_actions game)) moves ->
       In a (Game_legal_actions (Game_play moves game)) ->
       exists x, fst (fst (Game_step a (Game_play moves game))) = Return x) /\
  (poss_targets = [] ->
   exists e, Game_init QB1GATES I_op randomise poss_targets draw = Raise e).
Proof.
  split.
  - intros HG HI HT Hne Hdraw. unfold Game_init.
    set (idx := if randomise then draw else 0%Z).
    assert (Hlen : 0 < length poss_targets)
      by (destruct poss_targets; [contradiction|simpl; lia]).
    assert (Hidx : (0 <= idx < Z.of_nat (length poss_targets))%Z).
    { unfold idx. destruct randomise; [now apply Hdraw|lia]. }
    assert (E : (if randomise then
                   if 0 <? length poss_targets then Return draw
                   else Raise (ValueError "low >= high")
                 else Return 0%Z) = Return idx).
    { unfold idx. destruct randomise; [|reflexivity].
      now rewrite (proj2 (Nat.ltb_lt _ _) Hlen). }
    rewrite E. cbn [obind].
    destruct (list_getitem_indexable poss_targets idx ltac:(lia))
      as (target & Hget & Hin).
    rewrite Hget. cbn [obind].
    set (e := GateSynthesis_init QB1GATES [] 100 1000 I_op target 1e-3).
    exists (mk_Game e). split; [reflexivity|].
    assert (Ht : shape target = [2; 2])
      by (apply (proj1 (Forall_forall _ _) HT target Hin)).
    assert (W : well_formed 1 e).
    { apply well_formed_init; try assumption. constructor. }
    assert (HK : length (full_action_list e) = length QB1GATES).
    { destruct W as (_&_&_&_&Hl&_). rewrite Hl, length_catalogue.
      simpl. lia. }
    split.
    + unfold Game_legal_actions. cbn [env]. now rewrite HK.
    + intros moves a Hmoves Ha.
      assert (Hall : Forall (indexable (length (full_action_list e)))
                            (map Step moves)).
      { apply Forall_forall. intros r Hr. apply in_map_iff in Hr.
        destruct Hr as (m & <- & Hm). unfold indexable.
        apply (proj1 (Forall_forall _ _) Hmoves) in Hm.
        apply in_legal_actions in Hm. cbn [env] in Hm. lia. }
      destruct (well_formed_serve_all 1 (map Step moves) e W Hall) as [_ W'].
      apply in_legal_actions in Ha. rewrite Game_play_env in Ha. cbn [env] in Ha.
      unfold Game_step. cbn [fst]. rewrite Game_play_env. cbn [env].
      apply (well_formed_step 1 _ a W'). lia.
  - intros ->. unfold Game_init. destruct randomise; simpl.
    + eexists; reflexivity.
    + eexists; reflexivity.
Qed.

Lemma game_handles_legal_actions_witness :
  exists game,
    Game_init [op_I; op_X] op_I true [op_I; op_X] 1 = Return game /\
    Game_legal_actions game = map Z.of_nat (seq 0 2) /\
    forall moves a,
      Forall (fun m => In m (Game_legal_actions game)) moves ->
      In a (Game_legal_actions (Game_play moves game)) ->
      exists x, fst (fst (Game_step a (Game_play moves game))) = Return x.
Proof.
  apply (proj1 (game_handles_legal_actions [op_I; op_X] op_I true
                  [op_I; op_X] 1)).
  - repeat constructor.
  - reflexivity.
  - repeat constructor.
  - discriminate.
  - intros _. simpl. lia.
Defined.

End GameWrapper.

(* ================================================================= *)
(** ** Algebra of the single-qubit applier *)

Section GateAlgebra.

Lemma put_put_same (p u v : nat) (idx : list nat) :
  p < length idx -> put p u (put p v idx) = put p u idx.
Proof.
  intros Hp. apply (nth_ext _ _ 0 0).
  - rewrite !length_put; rewrite ?length_put; lia.
  - intros m _. rewrite !nth_put; rewrite ?length_put; try lia.
    now destruct (m =? p).
Qed.

Lemma put_put_comm (p q u v : nat) (idx : list nat) :
  p < length idx -> q < length idx -> p <> q ->
  put p u (put q v idx) = put q v (put p u idx).
Proof.
  intros Hp Hq Hne. apply (nth_ext _ _ 0 0).
  - rewrite !length_put; rewrite ?length_put; lia.
  - intros m _. rewrite !nth_put; rewrite ?length_put; try lia.
    destruct (Nat.eqb_spec m p), (Nat.eqb_spec m q); try reflexivity. lia.
Qed.

Lemma axis_in_range (T : ndarray complex) (p : nat) :
  nth p (shape T) 0 = 2 -> p < length (shape T).
Proof.
  intros Hn. destruct (Nat.lt_ge_cases p (length (shape T))) as [H|H];
    [exact H|]. rewrite nth_overflow in Hn by exact H. discriminate.
Qed.

Lemma matrix_on_axis_two (T g : ndarray complex) (p : nat) (idx : list nat) :
  nth p (shape T) 0 = 2 ->
  matrix_on_axis T g p idx =
  Cadd (Cadd C0 (Cmul (get T (put p 0 idx)) (get g [nth p idx 0; 0])))
       (Cmul (get T (put p 1 idx)) (get g [nth p idx 0; 1])).
Proof. intros Hn. unfold matrix_on_axis. rewrite Hn. reflexivity. Qed.

Lemma get_matmul2 (h g : gate) (i l : nat) :
  i < 2 -> l < 2 ->
  get (matmul2 h g) [i; l] =
  Cadd (Cadd C0 (Cmul (get h [i; 0]) (get g [0; l])))
       (Cmul (get h [i; 1]) (get g [1; l])).
Proof.
  intros Hi Hl. unfold matmul2.
  rewrite get_tabulate
    by (constructor; [exact Hi|constructor; [exact Hl|constructor]]).
  reflexivity.
Qed.

(** Two gates along one axis amount to their matrix product. *)
Lemma matrix_on_axis_twice (T T1 g h : ndarray complex) (p : nat)
  (idx : list nat) :
  shape T1 = shape T -> nth p (shape T) 0 = 2 -> in_shape idx (shape T) ->
  (forall idx', in_shape idx' (shape T) ->
     get T1 idx' = matrix_on_axis T g p idx') ->
  matrix_on_axis T1 h p idx = matrix_on_axis T (matmul2 h g) p idx.
Proof.
  intros Hs Hn Hin H1.
  pose proof (axis_in_range T p Hn) as Hp.
  pose proof (in_shape_length _ _ Hin) as Hl.
  pose proof (in_shape_nth idx (shape T) p Hin Hp) as Hi. rewrite Hn in Hi.
  rewrite !matrix_on_axis_two by (try rewrite Hs; exact Hn).
  rewrite !H1 by (apply in_shape_put; [exact Hin|rewrite Hn; lia]).
  rewrite !matrix_on_axis_two by exact Hn.
  rewrite !nth_put by lia. rewrite !Nat.eqb_refl.
  rewrite !put_put_same by lia.
  rewrite !get_matmul2 by lia.
  generalize (get T (put p 0 idx)) (get T (put p 1 idx))
    (get g [0; 0]) (get g [0; 1]) (get g [1; 0]) (get g [1; 1])
    (get h [nth p idx 0; 0]) (get h [nth p idx 0; 1]).
  intros [a0 b0] [a1 b1] [c0 d0] [c1 d1] [c2 d2] [c3 d3] [e0 f0] [e1 f1].
  unfold Cadd, Cmul, C0; simpl. f_equal; ring.
Qed.

(** Gates along different axes commute. *)
Lemma matrix_on_axes_commute (T A B g h : ndarray complex) (p q : nat)
  (idx : list nat) :
  shape A = shape T -> shape B = shape T ->
  nth p (shape T) 0 = 2 -> nth q (shape T) 0 = 2 -> p <> q ->
  in_shape idx (shape T) ->
  (forall idx', in_shape idx' (shape T) ->
     get A idx' = matrix_on_axis T g p idx') ->
  (forall idx', in_shape idx' (shape T) ->
     get B idx' = matrix_on_axis T h q idx') ->
  matrix_on_axis A h q idx = matrix_on_axis B g p idx.
Proof.
  intros HA HB Hnp Hnq Hne Hin HgA HhB.
  pose proof (axis_in_range T p Hnp) as Hp.
  pose proof (axis_in_range T q Hnq) as Hq.
  pose proof (in_shape_length _ _ Hin) as Hl.
  rewrite !matrix_on_axis_two by (try rewrite HA; try rewrite HB; assumption).
  rewrite !HgA by (apply in_shape_put; [exact Hin|rewrite Hnq; lia]).
  rewrite !HhB by (apply in_shape_put; [exact Hin|rewrite Hnp; lia]).
  rewrite !matrix_on_axis_two by assumption.
  rewrite !nth_put by lia.
  destruct (Nat.eqb_spec p q) as [|_]; [contradiction|].
  destruct (Nat.eqb_spec q p) as [E|_]; [symmetry in E; contradiction|].
  rewrite (put_put_comm p q 0 0), (put_put_comm p q 0 1),
    (put_put_comm p q 1 0), (put_put_comm p q 1 1) by lia.
  generalize (get T (put q 0 (put p 0 idx))) (get T (put q 1 (put p 0 idx)))
    (get T (put q 0 (put p 1 idx))) (get T (put q 1 (put p 1 idx)))
    (get g [nth p idx 0; 0]) (get g [nth p idx 0; 1])
    (get h [nth q idx 0; 0]) (get h [nth q idx 0; 1]).
  intros [a0 b0] [a1 b1] [a2 b2] [a3 b3] [c0 d0] [c1 d1] [e0 f0] [e1 f1].
  unfold Cadd, Cmul, C0; simpl. f_equal; ring.
Qed.

(** A matrix with the entries of the identity changes nothing. *)
Lemma identity2_no_op (T m : ndarray complex) (p : nat) (idx : list nat) :
  is_identity2 m -> nth p (shape T) 0 = 2 -> in_shape idx (shape T) ->
  matrix_on_axis T m p idx = get T idx.
Proof.
  intros Hm Hn Hin.
  pose proof (axis_in_range T p Hn) as Hp.
  pose proof (in_shape_length _ _ Hin) as Hl.
  pose proof (in_shape_nth idx (shape T) p Hin Hp) as Hi. rewrite Hn in Hi.
  rewrite matrix_on_axis_two by exact Hn.
  rewrite !Hm by lia.
  rewrite <- (put_same p idx) at 5 by lia.
  destruct (nth p idx 0) as [|[|i]]; [| |lia]; simpl Nat.eqb; cbv iota.
  - destruct (get T (put p 0 idx)) as [a b], (get T (put p 1 idx)) as [c d].
    unfold Cadd, Cmul, C0, C1; simpl. f_equal; lra.
  - destruct (get T (put p 0 idx)) as [a b], (get T (put p 1 idx)) as [c d].
    unfold Cadd, Cmul, C0, C1; simpl. f_equal; lra.
Qed.

End GateAlgebra.

Section GateLaws.

Lemma apply_1q_gate_shaped (self : GateSynthesis) (g : gate) (k N : nat) :
  shape (curr_unitary_op self) = repeat 2 (2 * N) -> k < N ->
  shape g = [2; 2] ->
  exists res,
    apply_1q_gate g k self = (Return res, set_curr_unitary_op res self, []) /\
    shape res = repeat 2 (2 * N) /\
    forall idx, in_shape idx (repeat 2 (2 * N)) ->
      get res idx = matrix_on_axis (curr_unitary_op self) g (2 * k) idx.
Proof.
  intros Hcur Hk Hg.
  assert (Hd : ndim (curr_unitary_op self) = 2 * N)
    by (unfold ndim; rewrite Hcur; apply repeat_length).
  assert (Hn2 : nth (2 * k) (shape (curr_unitary_op self)) 0 = 2)
    by (rewrite Hcur; apply nth_repeat_lt; lia).
  destruct (apply_1q_gate_run (curr_unitary_op self) g (2 * k) 2 2
              ltac:(lia) Hg Hn2 self k eq_refl
              ltac:(unfold qbit_num_to_tensor_index; lia))
    as (res & Hrun & Hnd & Hsh & Hval).
  rewrite Hd in Hnd, Hsh.
  assert (Hres : shape res = repeat 2 (2 * N)).
  { apply shape_all_two; [exact Hnd|]. intros j Hj. rewrite Hsh by exact Hj.
    destruct (j =? 2 * k); [reflexivity|].
    rewrite Hcur. now apply nth_repeat_lt. }
  exists res. split; [exact Hrun|]. split; [exact Hres|].
  intros idx Hin. apply Hval. now rewrite Hres.
Qed.

(** One applier after another, on the same object. *)
Lemma apply_1q_gate_then (self : GateSynthesis) (g h : gate) (k k' N : nat) :
  shape (curr_unitary_op self) = repeat 2 (2 * N) -> k < N -> k' < N ->
  shape g = [2; 2] -> shape h = [2; 2] ->
  exists r1 r2,
    bind (apply_1q_gate g k) (fun _ => apply_1q_gate h k') self
    = (Return r2, set_curr_unitary_op r2 self, []) /\
    shape r1 = repeat 2 (2 * N) /\
    shape r2 = repeat 2 (2 * N) /\
    (forall idx, in_shape idx (repeat 2 (2 * N)) ->
       get r1 idx = matrix_on_axis (curr_unitary_op self) g (2 * k) idx) /\
    (forall idx, in_shape idx (repeat 2 (2 * N)) ->
       get r2 idx = matrix_on_axis r1 h (2 * k') idx).
Proof.
  intros Hcur Hk Hk' Hg Hh.
  destruct (apply_1q_gate_shaped self g k N Hcur Hk Hg)
    as (r1 & Hrun1 & Hs1 & Hv1).
  destruct (apply_1q_gate_shaped (set_curr_unitary_op r1 self) h k' N Hs1 Hk' Hh)
    as (r2 & Hrun2 & Hs2 & Hv2).
  exists r1, r2. split; [|repeat split; assumption].
  unfold bind. rewrite Hrun1, Hrun2. reflexivity.
Qed.

(** X10: on an operator of shape (2,)*2N, applying a 2x2 gate [g] and then a
    2x2 gate [h] to the same qubit gives, element for element, what applying
    the matrix product [h @ g] once gives. *)
Theorem apply_1q_gate_composes
  (self : GateSynthesis) (g h : gate) (k N : nat) :
  shape (curr_unitary_op self) = repeat 2 (2 * N) -> k < N ->
  shape g = [2; 2] -> shape h = [2; 2] ->
  exists r2 r,
    bind (apply_1q_gate g k) (fun _ => apply_1q_gate h k) self
    = (Return r2, set_curr_unitary_op r2 self, []) /\
    apply_1q_gate (matmul2 h g) k self
    = (Return r, set_curr_unitary_op r self, []) /\
    shape r2 = shape r /\
    forall idx, in_shape idx (shape r) -> get r2 idx = get r idx.
Proof.
  intros Hcur Hk Hg Hh.
  destruct (apply_1q_gate_then self g h k k N Hcur Hk Hk Hg Hh)
    as (r1 & r2 & Hrun & Hs1 & Hs2 & Hv1 & Hv2).
  destruct (apply_1q_gate_shaped self (matmul2 h g) k N Hcur Hk eq_refl)
    as (r & Hrun' & Hs & Hv).
  exists r2, r. split; [exact Hrun|]. split; [exact Hrun'|].
  split; [now rewrite Hs2, Hs|].
  intros idx Hin. rewrite Hs in Hin. rewrite Hv2, Hv by exact Hin.
  apply matrix_on_axis_twice.
  - now rewrite Hs1, Hcur.
  - rewrite Hcur. apply nth_repeat_lt. lia.
  - now rewrite Hcur.
  - intros idx' Hin'. apply Hv1. now rewrite <- Hcur.
Qed.

Lemma apply_1q_gate_composes_witness :
  exists r2 r,
    bind (apply_1q_gate op_X 1) (fun _ => apply_1q_gate op_X 1)
      two_qubit_episode
    = (Return r2, set_curr_unitary_op r2 two_qubit_episode, []) /\
    apply_1q_gate (matmul2 op_X op_X) 1 two_qubit_episode
    = (Return r, set_curr_unitary_op r two_qubit_episode, []) /\
    shape r2 = shape r /\
    forall idx, in_shape idx (shape r) -> get r2 idx = get r idx.
Proof.
  apply (apply_1q_gate_composes two_qubit_episode op_X op_X 1 2);
    try reflexivity; lia.
Defined.

(** X11: round trip.  When [h @ g] has the entries of the identity matrix,
    applying [g] and then [h] to one qubit returns every element of the
    operator to its value. *)
Theorem inverse_gate_restores
  (self : GateSynthesis) (g h : gate) (k N : nat) :
  shape (curr_unitary_op self) = repeat 2 (2 * N) -> k < N ->
  shape g = [2; 2] -> shape h = [2; 2] ->
  is_identity2 (matmul2 h g) ->
  exists r2,
    bind (apply_1q_gate g k) (fun _ => apply_1q_gate h k) self
    = (Return r2, set_curr_unitary_op r2 self, []) /\
    shape r2 = shape (curr_unitary_op self) /\
    forall idx, in_shape idx (shape (curr_unitary_op self)) ->
      get r2 idx = get (curr_unitary_op self) idx.
Proof.
  intros Hcur Hk Hg Hh Hinv.
  destruct (apply_1q_gate_then self g h k k N Hcur Hk Hk Hg Hh)
    as (r1 & r2 & Hrun & Hs1 & Hs2 & Hv1 & Hv2).
  exists r2. split; [exact Hrun|]. split; [now rewrite Hs2, Hcur|].
  intros idx Hin.
  assert (Hn : nth (2 * k) (shape (curr_unitary_op self)) 0 = 2)
    by (rewrite Hcur; apply nth_repeat_lt; lia).
  rewrite Hv2 by now rewrite <- Hcur.
  rewrite (matrix_on_axis_twice (curr_unitary_op self) r1 g h (2 * k) idx).
  - now apply identity2_no_op.
  - now rewrite Hs1, Hcur.
  - exact Hn.
  - exact Hin.
  - intros idx' Hin'. apply Hv1. now rewrite <- Hcur.
Qed.

Lemma X_times_X : is_identity2 (matmul2 op_X op_X).
Proof.
  intros i l Hi Hl. rewrite get_matmul2 by assumption.
  destruct i as [|[|i]]; [| |lia]; destruct l as [|[|l]]; try lia;
    unfold get, Cadd, Cmul, C0, C1; simpl; f_equal; lra.
Qed.

Lemma inverse_gate_restores_witness :
  exists r2,
    bind (apply_1q_gate op_X 0) (fun _ => apply_1q_gate op_X 0)
      two_qubit_episode
    = (Return r2, set_curr_unitary_op r2 two_qubit_episode, []) /\
    shape r2 = shape (curr_unitary_op two_qubit_episode) /\
    forall idx, in_shape idx (shape (curr_unitary_op two_qubit_episode)) ->
      get r2 idx = get (curr_unitary_op two_qubit_episode) idx.
Proof.
  apply (inverse_gate_restores two_qubit_episode op_X op_X 0 2);
    try reflexivity; try lia.
  exact X_times_X.
Defined.

(** X12: on an operator of shape (2,)*2N, 2x2 gates applied to two different
    qubits commute: either order leaves the same elements. *)
Theorem apply_1q_gate_commutes
  (self : GateSynthesis) (g h : gate) (k k' N : nat) :
  shape (curr_unitary_op self) = repeat 2 (2 * N) -> k < N -> k' < N ->
  k <> k' -> shape g = [2; 2] -> shape h = [2; 2] ->
  exists r r',
    bind (apply_1q_gate g k) (fun _ => apply_1q_gate h k') self
    = (Return r, set_curr_unitary_op r self, []) /\
    bind (apply_1q_gate h k') (fun _ => apply_1q_gate g k) self
    = (Return r', set_curr_unitary_op r' self, []) /\
    shape r = shape r' /\
    forall idx, in_shape idx (shape r) -> get r idx = get r' idx.
Proof.
  intros Hcur Hk Hk' Hne Hg Hh.
  destruct (apply_1q_gate_then self g h k k' N Hcur Hk Hk' Hg Hh)
    as (a1 & r & Hrun & Ha1 & Hr & Hva & Hvr).
  destruct (apply_1q_gate_then self h g k' k N Hcur Hk' Hk Hh Hg)
    as (b1 & r' & Hrun' & Hb1 & Hr' & Hvb & Hvr').
  exists r, r'. split; [exact Hrun|]. split; [exact Hrun'|].
  split; [now rewrite Hr, Hr'|].
  intros idx Hin. rewrite Hr in Hin. rewrite Hvr, Hvr' by exact Hin.
  apply (matrix_on_axes_commute (curr_unitary_op self) a1 b1 g h
           (2 * k) (2 * k') idx).
  - now rewrite Ha1, Hcur.
  - now rewrite Hb1, Hcur.
  - rewrite Hcur. apply nth_repeat_lt. lia.
  - rewrite Hcur. apply nth_repeat_lt. lia.
  - lia.
  - now rewrite Hcur.
  - intros idx' Hin'. apply Hva. now rewrite <- Hcur.
  - intros idx' Hin'. apply Hvb. now rewrite <- Hcur.
Qed.

Lemma apply_1q_gate_commutes_witness :
  exists r r',
    bind (apply_1q_gate op_X 0) (fun _ => apply_1q_gate op_I 1)
      two_qubit_episode
    = (Return r, set_curr_unitary_op r two_qubit_episode, []) /\
    bind (apply_1q_gate op_I 1) (fun _ => apply_1q_gate op_X 0)
      two_qubit_episode
    = (Return r', set_curr_unitary_op r' two_qubit_episode, []) /\
    shape r = shape r' /\
    forall idx, in_shape idx (shape r) -> get r idx = get r' idx.
Proof.
  apply (apply_1q_gate_commutes two_qubit_episode op_X op_I 0 1 2);
    try reflexivity; lia.
Defined.

End GateLaws.

Section TwoQubitLaws.

Lemma apply_2q_gate_shaped (self : GateSynthesis) (g : gate) (a b N : nat) :
  shape (curr_unitary_op self) = repeat 2 (2 * N) -> a < N -> b < N ->
  a <> b -> shape g = [2; 2; 2; 2] ->
  exists res,
    apply_2q_gate g a b self = (Return res, set_curr_unitary_op res self, []) /\
    shape res = repeat 2 (2 * N) /\
    forall idx, in_shape idx (repeat 2 (2 * N)) ->
      get res idx = gate_on_axes (curr_unitary_op self) g (2 * a) (2 * b) idx.
Proof.
  intros Hcur Ha Hb Hab Hg.
  assert (Hd : ndim (curr_unitary_op self) = 2 * N)
    by (unfold ndim; rewrite Hcur; apply repeat_length).
  assert (Hna : nth (2 * a) (shape (curr_unitary_op self)) 0 = 2)
    by (rewrite Hcur; apply nth_repeat_lt; lia).
  assert (Hnb : nth (2 * b) (shape (curr_unitary_op self)) 0 = 2)
    by (rewrite Hcur; apply nth_repeat_lt; lia).
  destruct (apply_2q_gate_run (curr_unitary_op self) g (2 * a) (2 * b)
              2 2 2 2 ltac:(lia) ltac:(lia) ltac:(lia) Hg Hna Hnb
              self a b eq_refl
              ltac:(unfold qbit_num_to_tensor_index; lia)
              ltac:(unfold qbit_num_to_tensor_index; lia))
    as (res & Hrun & Hnd & Hsh & Hval).
  rewrite Hd in Hnd, Hsh.
  assert (Hres : shape res = repeat 2 (2 * N)).
  { apply shape_all_two; [exact Hnd|]. intros j Hj. rewrite Hsh by exact Hj.
    destruct (j =? 2 * a); [reflexivity|].
    destruct (j =? 2 * b); [reflexivity|].
    rewrite Hcur. now apply nth_repeat_lt. }
  exists res. split; [exact Hrun|]. split; [exact Hres|].
  intros idx Hin. apply Hval. now rewrite Hres.
Qed.

Lemma gate_on_axes_two (T g : ndarray complex) (pa pb : nat) (idx : list nat) :
  nth pa (shape T) 0 = 2 -> nth pb (shape T) 0 = 2 ->
  gate_on_axes T g pa pb idx =
  Cadd (Cadd (Cadd (Cadd C0
    (Cmul (get T (put pb 0 (put pa 0 idx)))
          (get g [nth pa idx 0; 0; nth pb idx 0; 0])))
    (Cmul (get T (put pb 1 (put pa 0 idx)))
          (get g [nth pa idx 0; 0; nth pb idx 0; 1])))
    (Cmul (get T (put pb 0 (put pa 1 idx)))
          (get g [nth pa idx 0; 1; nth pb idx 0; 0])))
    (Cmul (get T (put pb 1 (put pa 1 idx)))
          (get g [nth pa idx 0; 1; nth pb idx 0; 1])).
Proof. intros Ha Hb. unfold gate_on_axes. rewrite Ha, Hb. reflexivity. Qed.

Lemma in_shape_4 (x0 x1 x2 x3 : nat) :
  x0 < 2 -> x1 < 2 -> x2 < 2 -> x3 < 2 ->
  in_shape [x0; x1; x2; x3] [2; 2; 2; 2].
Proof. intros. repeat (constructor; [assumption|]). constructor. Qed.

(** X13: exchanging the two qubits of an action amounts to exchanging the
    roles of the gate's two qubits: [apply_2q_gate g b a] leaves the same
    elements as [apply_2q_gate (swap_qubits g) a b]. *)
Theorem apply_2q_gate_swaps
  (self : GateSynthesis) (g : gate) (a b N : nat) :
  shape (curr_unitary_op self) = repeat 2 (2 * N) -> a < N -> b < N ->
  a <> b -> shape g = [2; 2; 2; 2] ->
  exists r r',
    apply_2q_gate g b a self = (Return r, set_curr_unitary_op r self, []) /\
    apply_2q_gate (swap_qubits g) a b self
    = (Return r', set_curr_unitary_op r' self, []) /\
    shape r = shape r' /\
    forall idx, in_shape idx (shape r) -> get r idx = get r' idx.
Proof.
  intros Hcur Ha Hb Hab Hg.
  destruct (apply_2q_gate_shaped self g b a N Hcur Hb Ha ltac:(lia) Hg)
    as (r & Hrun & Hs & Hv).
  destruct (apply_2q_gate_shaped self (swap_qubits g) a b N Hcur Ha Hb Hab
              eq_refl) as (r' & Hrun' & Hs' & Hv').
  exists r, r'. split; [exact Hrun|]. split; [exact Hrun'|].
  split; [now rewrite Hs, Hs'|].
  intros idx Hin. rewrite Hs in Hin. rewrite Hv, Hv' by exact Hin.
  assert (Hna : nth (2 * a) (shape (curr_unitary_op self)) 0 = 2)
    by (rewrite Hcur; apply nth_repeat_lt; lia).
  assert (Hnb : nth (2 * b) (shape (curr_unitary_op self)) 0 = 2)
    by (rewrite Hcur; apply nth_repeat_lt; lia).
  pose proof (in_shape_length _ _ Hin) as Hl. rewrite repeat_length in Hl.
  assert (Hia : nth (2 * a) idx 0 < 2).
  { pose proof (in_shape_nth idx (repeat 2 (2 * N)) (2 * a) Hin) as H.
    rewrite repeat_length in H. specialize (H ltac:(lia)).
    rewrite nth_repeat_lt in H by lia. exact H. }
  assert (Hib : nth (2 * b) idx 0 < 2).
  { pose proof (in_shape_nth idx (repeat 2 (2 * N)) (2 * b) Hin) as H.
    rewrite repeat_length in H. specialize (H ltac:(lia)).
    rewrite nth_repeat_lt in H by lia. exact H. }
  rewrite !gate_on_axes_two by assumption.
  unfold swap_qubits. rewrite !get_tabulate by (apply in_shape_4; lia).
  cbn [nth].
  rewrite (put_put_comm (2 * b) (2 * a) 0 0), (put_put_comm (2 * b) (2 * a) 0 1),
    (put_put_comm (2 * b) (2 * a) 1 0), (put_put_comm (2 * b) (2 * a) 1 1)
    by lia.
  generalize (get (curr_unitary_op self) (put (2 * a) 0 (put (2 * b) 0 idx)))
    (get (curr_unitary_op self) (put (2 * a) 0 (put (2 * b) 1 idx)))
    (get (curr_unitary_op self) (put (2 * a) 1 (put (2 * b) 0 idx)))
    (get (curr_unitary_op self) (put (2 * a) 1 (put (2 * b) 1 idx)))
    (get g [nth (2 * b) idx 0; 0; nth (2 * a) idx 0; 0])
    (get g [nth (2 * b) idx 0; 0; nth (2 * a) idx 0; 1])
    (get g [nth (2 * b) idx 0; 1; nth (2 * a) idx 0; 0])
    (get g [nth (2 * b) idx 0; 1; nth (2 * a) idx 0; 1]).
  intros [a0 b0] [a1 b1] [a2 b2] [a3 b3] [c0 d0] [c1 d1] [c2 d2] [c3 d3].
  unfold Cadd, Cmul, C0; simpl. f_equal; ring.
Qed.

Lemma apply_2q_gate_swaps_witness :
  exists r r',
    apply_2q_gate probe_gate 1 0 two_qubit_episode
    = (Return r, set_curr_unitary_op r two_qubit_episode, []) /\
    apply_2q_gate (swap_qubits probe_gate) 0 1 two_qubit_episode
    = (Return r', set_curr_unitary_op r' two_qubit_episode, []) /\
    shape r = shape r' /\
    forall idx, in_shape idx (shape r) -> get r idx = get r' idx.
Proof.
  apply (apply_2q_gate_swaps two_qubit_episode probe_gate 0 1 2);
    try reflexivity; lia.
Defined.

(** X14: the two appliers agree.  The two-qubit gate [kron2 g h] applied to
    the ordered pair (a, b) leaves the same elements as [g] applied to qubit
    [a] followed by [h] applied to qubit [b]. *)
Theorem apply_2q_gate_of_product
  (self : GateSynthesis) (g h : gate) (a b N : nat) :
  shape (curr_unitary_op self) = repeat 2 (2 * N) -> a < N -> b < N ->
  a <> b -> shape g = [2; 2] -> shape h = [2; 2] ->
  exists r r',
    apply_2q_gate (kron2 g h) a b self
    = (Return r, set_curr_unitary_op r self, []) /\
    bind (apply_1q_gate g a) (fun _ => apply_1q_gate h b) self
    = (Return r', set_curr_unitary_op r' self, []) /\
    shape r = shape r' /\
    forall idx, in_shape idx (shape r) -> get r idx = get r' idx.
Proof.
  intros Hcur Ha Hb Hab Hg Hh.
  destruct (apply_2q_gate_shaped self (kron2 g h) a b N Hcur Ha Hb Hab eq_refl)
    as (r & Hrun & Hs & Hv).
  destruct (apply_1q_gate_then self g h a b N Hcur Ha Hb Hg Hh)
    as (r1 & r' & Hrun' & Hs1 & Hs' & Hv1 & Hv').
  exists r, r'. split; [exact Hrun|]. split; [exact Hrun'|].
  split; [now rewrite Hs, Hs'|].
  intros idx Hin. rewrite Hs in Hin. rewrite Hv, Hv' by exact Hin.
  assert (Hna : nth (2 * a) (shape (curr_unitary_op self)) 0 = 2)
    by (rewrite Hcur; apply nth_repeat_lt; lia).
  assert (Hnb : nth (2 * b) (shape (curr_unitary_op self)) 0 = 2)
    by (rewrite Hcur; apply nth_repeat_lt; lia).
  pose proof (in_shape_length _ _ Hin) as Hl. rewrite repeat_length in Hl.
  assert (Hia : nth (2 * a) idx 0 < 2).
  { pose proof (in_shape_nth idx (repeat 2 (2 * N)) (2 * a) Hin) as H.
    rewrite repeat_length in H. specialize (H ltac:(lia)).
    rewrite nth_repeat_lt in H by lia. exact H. }
  assert (Hib : nth (2 * b) idx 0 < 2).
  { pose proof (in_shape_nth idx (repeat 2 (2 * N)) (2 * b) Hin) as H.
    rewrite repeat_length in H. specialize (H ltac:(lia)).
    rewrite nth_repeat_lt in H by lia. exact H. }
  rewrite gate_on_axes_two by assumption.
  rewrite matrix_on_axis_two by (rewrite Hs1; apply nth_repeat_lt; lia).
  rewrite !Hv1
    by (apply in_shape_put; [exact Hin|rewrite nth_repeat_lt; lia]).
  rewrite !matrix_on_axis_two by assumption.
  rewrite !nth_put by lia.
  destruct (Nat.eqb_spec (2 * a) (2 * b)) as [E|_]; [lia|].
  unfold kron2. rewrite !get_tabulate by (apply in_shape_4; lia).
  cbn [nth].
  rewrite (put_put_comm (2 * a) (2 * b) 0 0), (put_put_comm (2 * a) (2 * b) 0 1),
    (put_put_comm (2 * a) (2 * b) 1 0), (put_put_comm (2 * a) (2 * b) 1 1)
    by lia.
  generalize (get (curr_unitary_op self) (put (2 * b) 0 (put (2 * a) 0 idx)))
    (get (curr_unitary_op self) (put (2 * b) 1 (put (2 * a) 0 idx)))
    (get (curr_unitary_op self) (put (2 * b) 0 (put (2 * a) 1 idx)))
    (get (curr_unitary_op self) (put (2 * b) 1 (put (2 * a) 1 idx)))
    (get g [nth (2 * a) idx 0; 0]) (get g [nth (2 * a) idx 0; 1])
    (get h [nth (2 * b) idx 0; 0]) (get h [nth (2 * b) idx 0; 1]).
  intros [a0 b0] [a1 b1] [a2 b2] [a3 b3] [c0 d0] [c1 d1] [e0 f0] [e1 f1].
  unfold Cadd, Cmul, C0; simpl. f_equal; ring.
Qed.

Lemma apply_2q_gate_of_product_witness :
  exists r r',
    apply_2q_gate (kron2 op_X op_I) 1 0 two_qubit_episode
    = (Return r, set_curr_unitary_op r two_qubit_episode, []) /\
    bind (apply_1q_gate op_X 1) (fun _ => apply_1q_gate op_I 0)
      two_qubit_episode
    = (Return r', set_curr_unitary_op r' two_qubit_episode, []) /\
    shape r = shape r' /\
    forall idx, in_shape idx (shape r) -> get r idx = get r' idx.
Proof.
  apply (apply_2q_gate_of_product two_qubit_episode op_X op_I 1 0 2);
    try reflexivity; lia.
Defined.

End TwoQubitLaws.

(* ================================================================= *)
(** ** The observation determines the operator *)

Section ObservationInjective.

Lemma transpose_index_permuted (nd : nat) (axes idx : list nat) :
  valid_axes nd axes -> length idx = nd ->
  transpose_index nd axes (permuted_index axes idx) = idx.
Proof.
  intros V Hl. apply (nth_ext _ _ 0 0).
  - now rewrite length_transpose_index.
  - rewrite length_transpose_index. intros m Hm.
    rewrite nth_transpose_index by exact Hm.
    destruct (index_of_In m axes (valid_axes_In nd axes m V Hm)) as [Hlt Hnth].
    unfold permuted_index.
    rewrite (nth_indep _ 0 ((fun a => nth a idx 0) 0))
      by (rewrite length_map; exact Hlt).
    rewrite (map_nth (fun a => nth a idx 0)). now rewrite Hnth.
Qed.

Lemma in_shape_permuted (sh axes idx : list nat) :
  valid_axes (length sh) axes -> in_shape idx sh ->
  in_shape (permuted_index axes idx) (map (fun k => nth k sh 0) axes).
Proof.
  intros (Hl & Hr & _) Hin. unfold permuted_index.
  clear Hl. induction axes as [|a axes IH]; simpl; [constructor|].
  constructor.
  - apply in_shape_nth; [exact Hin|]. apply Hr. now left.
  - apply IH. intros k Hk. apply Hr. now right.
Qed.

Lemma complex_eta (x y : complex) : Re x = Re y -> Im x = Im y -> x = y.
Proof. destruct x, y; simpl; intros -> ->; reflexivity. Qed.

Lemma app_inj_length {A} (l1 l1' l2 l2' : list A) :
  length l1 = length l1' -> l1 ++ l2 = l1' ++ l2' -> l1 = l1' /\ l2 = l2'.
Proof.
  revert l1'; induction l1 as [|x l1 IH]; intros [|y l1'] Hl E;
    simpl in *; try discriminate; [now split|].
  injection E as -> E. destruct (IH l1' ltac:(lia) E) as [-> ->]. now split.
Qed.

(** X15: the encoding loses nothing.  Two operators of shape (2,)*2n with
    the same observation have the same elements (for every [n], also where
    the encoder's axis order is not rows-then-columns). *)
Theorem observation_determines_operator (s s' : GateSynthesis) (n : nat) :
  nb_qbits s = n -> nb_qbits s' = n ->
  shape (curr_unitary_op s) = repeat 2 (2 * n) ->
  shape (curr_unitary_op s') = repeat 2 (2 * n) ->
  get_observation s = get_observation s' ->
  forall idx, in_shape idx (repeat 2 (2 * n)) ->
    get (curr_unitary_op s) idx = get (curr_unitary_op s') idx.
Proof.
  intros Hn Hn' Hs Hs' Hobs idx Hin.
  assert (Hd : ndim (curr_unitary_op s) = 2 * n)
    by (unfold ndim; rewrite Hs; apply repeat_length).
  assert (Hd' : ndim (curr_unitary_op s') = 2 * n)
    by (unfold ndim; rewrite Hs'; apply repeat_length).
  pose proof (valid_observation_axes n) as V.
  unfold get_observation in Hobs. rewrite Hn, Hn' in Hobs.
  rewrite (transpose_valid (curr_unitary_op s) (observation_axes n)) in Hobs
    by (rewrite Hd; exact V).
  rewrite (transpose_valid (curr_unitary_op s') (observation_axes n)) in Hobs
    by (rewrite Hd'; exact V).
  cbn [obind] in Hobs. rewrite Hd, Hd', Hs, Hs' in Hobs.
  set (sh := map (fun k => nth k (repeat 2 (2 * n)) 0) (observation_axes n))
    in Hobs.
  assert (Hsh : sh = repeat 2 (2 * n)).
  { unfold sh.
    rewrite (map_const_in (fun k => nth k (repeat 2 (2 * n)) 0) 2
               (observation_axes n)).
    - now rewrite length_observation_axes.
    - intros k Hk. apply nth_repeat_lt.
      destruct V as (_ & Hr & _). now apply Hr. }
  assert (Hp : prod_shape [2 ^ n; 2 ^ n] = prod_shape sh).
  { rewrite Hsh, prod_shape_repeat. simpl prod_shape.
    rewrite Nat.mul_1_r, <- Nat.pow_add_r. f_equal. lia. }
  unfold reshape, size, tabulate in Hobs. cbn [shape data] in Hobs.
  rewrite Hp, Nat.eqb_refl in Hobs. cbn [obind] in Hobs.
  apply (f_equal (fun o => match o with
                           | Return a => data a
                           | Raise _ => []
                           end)) in Hobs.
  unfold array2, real, imag in Hobs. cbn [shape data] in Hobs.
  apply app_inj_length in Hobs; [|now rewrite !length_map].
  destruct Hobs as [HRe HIm]. rewrite !map_map in HRe, HIm.
  set (idx' := permuted_index (observation_axes n) idx).
  assert (Hin' : In idx' (indices sh)).
  { apply in_indices. unfold sh, idx'. apply in_shape_permuted.
    - now rewrite repeat_length.
    - exact Hin. }
  pose proof (proj1 (@map_ext_in_iff _ _ _ _ _) HRe idx' Hin') as ERe.
  pose proof (proj1 (@map_ext_in_iff _ _ _ _ _) HIm idx' Hin') as EIm.
  cbv beta in ERe, EIm. unfold idx' in ERe, EIm.
  rewrite transpose_index_permuted in ERe, EIm
    by (try exact V; rewrite (in_shape_length _ _ Hin); apply repeat_length).
  now apply complex_eta.
Qed.

Lemma observation_determines_operator_witness :
  get (curr_unitary_op (scenario 0)) [0; 1]
  = get (curr_unitary_op (scenario 7)) [0; 1].
Proof.
  apply (observation_determines_operator (scenario 0) (scenario 7) 1);
    try reflexivity.
  apply in_shape_intro; [reflexivity|].
  intros k Hk. destruct k as [|[|k]]; simpl in *; lia.
Defined.

End ObservationInjective.

(* ================================================================= *)
(** ** The temperature schedule *)

Section Temperature.





End Temperature.
